(* ===================================================================== *)
(* S-FNO-UD (docs/strat-repr/token-space/sfno_ud.py): a shallow          *)
(* embedding of the simplicial-complex construction and of the forward   *)
(* passes of the spectral, coupling and layer operators, with the        *)
(* properties of the specification settled against it.                   *)
(*                                                                       *)
(* Numbers.  Vertex indices are Python ints (int).  Boundary matrices    *)
(* and Hodge Laplacians hold small integers stored as float32; sums and  *)
(* products of integers below 2^24 are exact in float32, so their        *)
(* entries are modelled in int.  Eigenvalues and feature tensors are     *)
(* floats; they are modelled by the rationals they denote, with exact    *)
(* arithmetic, and the LAPACK/ARPACK solvers are parameters.             *)
(* ===================================================================== *)

From HB Require Import structures.
From Stdlib Require Import String.
From mathcomp Require Import ssreflect ssrfun ssrbool eqtype ssrnat seq path.
From mathcomp Require Import choice fintype bigop order ssralg ssrnum ssrint rat.
From mathcomp Require Import matrix mxalgebra.

Set Implicit Arguments.
Unset Strict Implicit.
Unset Printing Implicit Defensive.

Import Order.TTheory GRing.Theory Num.Theory.

Local Open Scope ring_scope.

HB.instance Definition _ := hasDecEq.Build string String.eqb_spec.

(* ===================================================================== *)
(* PART A.  The embedding                                                *)
(* ===================================================================== *)

(* --------------------------------------------------------------------- *)
(* Python runtime: exceptions, enumerate, dict, slices                   *)
(* --------------------------------------------------------------------- *)

(* The exceptions the modelled code can let escape. *)
Inductive exn := IndexError | RuntimeError | AttributeError.

Inductive result (T : Type) := Ok of T | Raise of exn.
Arguments Raise {T} e.

Definition bind (T U : Type) (r : result T) (f : T -> result U) : result U :=
  match r with Ok x => f x | Raise e => Raise e end.

Notation "'do' x <- r ; k" := (bind r (fun x => k))
  (at level 200, x name, r at level 100, k at level 200, right associativity).

Definition is_ok (T : Type) (r : result T) : bool :=
  if r is Ok _ then true else false.

(* enumerate(s) *)
Definition enumerate (T : Type) (s : seq T) : seq (nat * T) :=
  zip (iota 0 (size s)) s.

(* s[:n] for a Python int n; a negative n counts from the end. *)
Definition py_take (T : Type) (n : int) (s : seq T) : seq T :=
  match n with
  | Posz m => take m s
  | Negz m => take (size s - m.+1) s
  end.

(* min(a, b) on Python ints *)
Definition py_min (a b : int) : int := if b < a then b else a.

Section Dict.
Variables (K : eqType) (V : Type).

(* A dict as its list of bindings in insertion order; d[k] = v keeps the
   position of an existing key and overwrites its value. *)
Definition dict := seq (K * V).

Fixpoint dict_set (d : dict) (k : K) (v : V) : dict :=
  if d is kv :: d' then
    if kv.1 == k then (k, v) :: d' else kv :: dict_set d' k v
  else [:: (k, v)].

Fixpoint dict_get (d : dict) (k : K) : option V :=
  if d is kv :: d' then
    if kv.1 == k then Some kv.2 else dict_get d' k
  else None.

(* {key(x): i for i, x in enumerate(s)} *)
Definition dict_of_enumerate (T : Type) (key : T -> K) (val : nat -> V)
    (s : seq T) : dict :=
  foldl (fun d ix => dict_set d (key ix.2) (val ix.1)) [::] (enumerate s).

End Dict.

(* --------------------------------------------------------------------- *)
(* Dense 2-D tensors                                                     *)
(* --------------------------------------------------------------------- *)

(* A dense matrix: its shape and its entries.  Entries outside the shape
   are never read by the modelled code. *)
Record dense (R : Type) := Dense {
  nrows : nat;
  ncols : nat;
  entry : nat -> nat -> R
}.

(* Same shape, same entries inside the shape. *)
Definition dense_eq (R : Type) (A B : dense R) : Prop :=
  [/\ nrows A = nrows B, ncols A = ncols B &
      forall i j, (i < nrows A)%N -> (j < ncols A)%N -> entry A i j = entry B i j].

(* The rows of a matrix, for display and tests. *)
Definition rows_of (R : Type) (A : dense R) : seq (seq R) :=
  [seq [seq entry A i j | j <- iota 0 (ncols A)] | i <- iota 0 (nrows A)].

Definition sumz (s : seq int) : int := foldr +%R 0 s.

(* torch.zeros(m, n) *)
Definition zeros (m n : nat) : dense int := Dense m n (fun _ _ => 0).

(* A.T *)
Definition transpose (R : Type) (A : dense R) : dense R :=
  Dense (ncols A) (nrows A) (fun i j => entry A j i).

(* A @ B.  torch raises when the inner sizes differ; the construction only
   forms B.T @ B, B @ B.T and B_k @ B_{k+1}, whose inner sizes agree. *)
Definition matmul (A B : dense int) : dense int :=
  Dense (nrows A) (ncols B)
    (fun i j => sumz [seq entry A i m * entry B m j | m <- iota 0 (ncols A)]).

(* L += M: the result keeps the shape of L. *)
Definition iadd (L M : dense int) : dense int :=
  Dense (nrows L) (ncols L) (fun i j => entry L i j + entry M i j).

(* The three parallel lists rows, cols, vals of the builder, zipped. *)
Definition coo := seq (nat * nat * int).

(* torch.sparse_coo_tensor(indices, vals, (m, n)).to_dense(): entries that
   share an index pair are added up. *)
Definition to_dense (m n : nat) (t : coo) : dense int :=
  Dense m n
    (fun r c => sumz [seq e.2 | e <- t & (e.1.1 == r) && (e.1.2 == c)]).

(* --------------------------------------------------------------------- *)
(* PART I of the source: SimplicialComplex                               *)
(* --------------------------------------------------------------------- *)

Definition simplex := seq int.
Definition level := seq simplex.

(* tuple(sorted(s)) *)
Definition sorted_tuple (s : simplex) : simplex :=
  sort (fun x y : int => x <= y) s.

(* tuple(x for x in sigma if x != v) *)
Definition face (sigma : simplex) (v : int) : simplex :=
  [seq x <- sigma | x != v].

(* (-1) ** i *)
Definition sign (i : nat) : int := if odd i then -1 else 1.

(* {tuple(sorted(s)): i for i, s in enumerate(self.simplices[k-1])} *)
Definition simplex_to_idx (lv : level) : dict simplex nat :=
  dict_of_enumerate sorted_tuple id lv.

(* The inner loop of the builder for the j-th simplex of level k. *)
Definition column_entries (d : dict simplex nat) (j : nat) (s : simplex) : coo :=
  let sigma := sorted_tuple s in
  pmap (fun iv : nat * int =>
          if dict_get d (face sigma iv.2) is Some r
          then Some (r, j, sign iv.1) else None)
       (enumerate sigma).

Definition boundary_coo (prev cur : level) : coo :=
  let d := simplex_to_idx prev in
  flatten [seq column_entries d jv.1 jv.2 | jv <- enumerate cur].

(* The body of the loop of _compute_boundary_matrices at level k >= 1. *)
Definition boundary_level (simplices : seq level) (n_simplices : seq nat)
    (k : nat) : dense int :=
  let n_k := nth 0%N n_simplices k in
  let n_km1 := nth 0%N n_simplices k.-1 in
  if (n_k == 0%N) || (n_km1 == 0%N) then zeros n_km1 n_k
  else
    let t := boundary_coo (nth [::] simplices k.-1) (nth [::] simplices k) in
    if t is [::] then zeros n_km1 n_k else to_dense n_km1 n_k t.

(* boundaries = [None, B_1, ..., B_max_k, zeros(n_max_k, 0)].  With no
   level at all, max_k is -1 and n_simplices[max_k] raises IndexError. *)
Definition _compute_boundary_matrices (simplices : seq level)
    (n_simplices : seq nat) : result (seq (option (dense int))) :=
  let max_k := (size simplices).-1 in
  let boundaries :=
    None :: [seq Some (boundary_level simplices n_simplices k)
            | k <- iota 1 max_k] in
  if n_simplices is [::] then Raise IndexError
  else Ok (rcons boundaries (Some (zeros (nth 0%N n_simplices max_k) 0))).

Definition hodge_level (n_simplices : seq nat) (max_k : nat)
    (boundary_matrices : seq (option (dense int))) (k : nat) : dense int :=
  let n_k := nth 0%N n_simplices k in
  if n_k == 0%N then zeros 0 0
  else
    let L0 := zeros n_k n_k in
    let L1 :=
      if (0 < k)%N then
        if nth None boundary_matrices k is Some B_k
        then iadd L0 (matmul (transpose B_k) B_k) else L0
      else L0 in
    if (k < max_k)%N then
      if nth None boundary_matrices k.+1 is Some B_kp1
      then iadd L1 (matmul B_kp1 (transpose B_kp1)) else L1
    else L1.

Definition _compute_hodge_laplacians (n_simplices : seq nat) (max_k : nat)
    (boundary_matrices : seq (option (dense int))) : seq (dense int) :=
  [seq hodge_level n_simplices max_k boundary_matrices k | k <- iota 0 max_k.+1].

(* --------------------------------------------------------------------- *)
(* Eigendecompositions and Betti numbers                                 *)
(* --------------------------------------------------------------------- *)

(* np.argsort(eigenvalues): the indices in ascending order of value.  The
   order among equal values is not fixed by numpy; a stable order is used
   here.  It only matters for the order of eigenvector columns that
   belong to one eigenvalue. *)
Definition argsort (ev : seq rat) : seq nat :=
  [seq iv.1 | iv <- sort (fun a b : nat * rat => a.2 <= b.2) (enumerate ev)].

(* eigenvalues[idx] *)
Definition take_idx (ev : seq rat) (idx : seq nat) : seq rat :=
  [seq nth 0 ev i | i <- idx].

(* eigenvectors[:, idx] *)
Definition cols_idx (U : dense rat) (idx : seq nat) : dense rat :=
  Dense (nrows U) (size idx) (fun r c => entry U r (nth 0%N idx c)).

(* eigenvectors[:, :n] *)
Definition cols_take (n : int) (U : dense rat) : dense rat :=
  Dense (nrows U) (size (py_take n (iota 0 (ncols U)))) (entry U).

Section Solvers.

(* scipy.sparse.linalg.eigsh(L, k=k, which='SM', tol=1e-6, maxiter=1000),
   with None when it raises (k out of range, no convergence), and
   numpy.linalg.eigh(L).  Both return (eigenvalues, eigenvectors); the
   values are those the float32 tensors built from them hold (rounding to
   float32 is monotone, so it commutes with the sort below). *)
Variable eigsh : dense int -> int -> option (seq rat * dense rat).
Variable eigh : dense int -> seq rat * dense rat.

(* The body of the loop of _compute_eigendecompositions. *)
Definition eig_level (max_modes : int) (L_k : dense int) : seq rat * dense rat :=
  let n_k := nrows L_k in
  if n_k == 0%N then ([::], Dense 0 0 (fun _ _ => 0))
  else
    let n_modes := py_min max_modes n_k in
    let r :=
      if n_modes < n_k%:Z - 1 then
        match eigsh L_k n_modes with
        | Some r => r
        | None =>
            let r := eigh L_k in
            (py_take n_modes r.1, cols_take n_modes r.2)
        end
      else eigh L_k in
    let idx := argsort r.1 in
    (take_idx r.1 idx, cols_idx r.2 idx).

Definition _compute_eigendecompositions (max_modes : int)
    (hodge_laplacians : seq (dense int)) : seq (seq rat * dense rat) :=
  [seq eig_level max_modes L_k | L_k <- hodge_laplacians].

(* _compute_betti_numbers(self, tol) *)
Definition _compute_betti_numbers (tol : rat)
    (eigendecompositions : seq (seq rat * dense rat)) : seq nat :=
  [seq (if size e.1 == 0%N then 0%N else count (fun l : rat => `|l| < tol) e.1)
  | e <- eigendecompositions].

(* The default tol=1e-6 of _compute_betti_numbers. *)
Definition default_tol : rat := (10%:R ^+ 6)^-1.

(* The attributes __init__ sets on the object (device, a string that no
   computation reads, is left out). *)
Record SimplicialComplex := {
  simplices : seq level;
  max_k : nat;
  max_modes : int;
  n_simplices : seq nat;
  boundary_matrices : seq (option (dense int));
  hodge_laplacians : seq (dense int);
  eigendecompositions : seq (seq rat * dense rat);
  betti_numbers : seq nat
}.

(* SimplicialComplex.__init__ *)
Definition __init__ (simplices : seq level) (max_spectral_modes : int)
    : result SimplicialComplex :=
  let max_k := (size simplices).-1 in
  let n_simplices := [seq size s | s <- simplices] in
  do boundary_matrices <- _compute_boundary_matrices simplices n_simplices;
  let hodge_laplacians :=
    _compute_hodge_laplacians n_simplices max_k boundary_matrices in
  let eigendecompositions :=
    _compute_eigendecompositions max_spectral_modes hodge_laplacians in
  let betti_numbers := _compute_betti_numbers default_tol eigendecompositions in
  Ok {| simplices := simplices; max_k := max_k;
        max_modes := max_spectral_modes; n_simplices := n_simplices;
        boundary_matrices := boundary_matrices;
        hodge_laplacians := hodge_laplacians;
        eigendecompositions := eigendecompositions;
        betti_numbers := betti_numbers |}.

(* SimplicialComplex.from_sequence.  length and window_size are Python
   ints; a negative one behaves as 0 on every path (range(n) is empty for
   n <= 0, both tests are >= 3), so they are taken in nat. *)
Definition from_sequence (length window_size : nat) (max_spectral_modes : int)
    : result SimplicialComplex :=
  let vertices : level := [seq [:: Posz i] | i <- iota 0 length] in
  let edges : level :=
    [seq [:: Posz i; Posz i.+1] | i <- iota 0 (length - 1)] in
  let simplices := [:: vertices; edges] in
  let simplices :=
    if (3 <= window_size)%N && (3 <= length)%N then
      rcons simplices
        [seq [:: Posz i; Posz i.+1; Posz i.+2] | i <- iota 0 (length - 2)]
    else simplices in
  __init__ simplices max_spectral_modes.

End Solvers.

(* Sigma_k (-1)^k s_k *)
Fixpoint alt_sum (s : seq nat) : int :=
  if s is x :: s' then x%:Z - alt_sum s' else 0.

(* The levels of the triangle of Scenario A. *)
Definition triangle : seq level :=
  [:: [:: [:: 0]; [:: 1]; [:: 2]];
      [:: [:: 0; 1]; [:: 1; 2]; [:: 0; 2]];
      [:: [:: 0; 1; 2]]].

(* --------------------------------------------------------------------- *)
(* Notions used to state and prove the properties                        *)
(* --------------------------------------------------------------------- *)

(* The faces of a tuple with their signs, by recursion on the tuple: the
   boundary of x :: s is s minus x :: (the boundary of s). *)
Fixpoint faces_signed (s : simplex) : seq (int * simplex) :=
  if s is x :: s' then
    (1, s') :: [seq (- cf.1, x :: cf.2) | cf <- faces_signed s']
  else [::].

(* The signed sum of G over the faces of s. *)
Definition wsum (G : simplex -> int) (s : simplex) : int :=
  sumz [seq cf.1 * G cf.2 | cf <- faces_signed s].

(* The entry the builder accumulates at row r in the column of the sorted
   tuple sigma, with d the index table of the level below. *)
Definition column_sum (d : dict simplex nat) (sigma : simplex) (r : nat) : int :=
  sumz [seq sign iv.1
       | iv <- enumerate sigma & dict_get d (face sigma iv.2) == Some r].

(* Level `next` is closed over level `cur`: each of its simplices has
   distinct vertices, and every face the builder forms from it is, as a
   sorted tuple, a simplex of `cur`. *)
Definition closed_over (cur next : level) : bool :=
  all (fun s : simplex =>
         uniq s &&
         all (fun v => face (sorted_tuple s) v \in [seq sorted_tuple t | t <- cur])
             s)
      next.

(* A complex closed under taking faces: every level above 0 is closed over
   the level below it. *)
Definition closed_complex (simplices : seq level) : bool :=
  all (fun k => closed_over (nth [::] simplices k) (nth [::] simplices k.+1))
      (iota 0 (size simplices).-1).

(* The input checks the specification asks of the constructor, in its
   words: no duplicate simplex at a level after canonical sorting, every
   vertex index in the range of the level-0 count, and closure under
   faces. *)
Definition no_duplicates (simplices : seq level) : bool :=
  all (fun lv : level => uniq [seq sorted_tuple s | s <- lv]) simplices.

Definition vertices_in_range (simplices : seq level) : bool :=
  let n_0 := size (nth [::] simplices 0) in
  all (fun lv : level =>
         all (fun s : simplex => all (fun v : int => (0 <= v) && (v < n_0%:Z)) s) lv)
      simplices.

Definition valid_input (simplices : seq level) : bool :=
  [&& no_duplicates simplices, vertices_in_range simplices &
      closed_complex simplices].

(* --------------------------------------------------------------------- *)
(* Solvers for the worked examples                                       *)
(* --------------------------------------------------------------------- *)

Definition of_rows (R : Type) (x0 : R) (rows : seq (seq R)) : dense R :=
  Dense (size rows) (size (head [::] rows))
        (fun i j => nth x0 (nth [::] rows i) j).

(* An eigsh that always raises (ARPACK did not converge): the code then
   falls back to eigh. *)
Definition eigsh_raises (L : dense int) (k : int)
    : option (seq rat * dense rat) := None.

(* An eigh that is exact on the Laplacians of the worked examples (the
   triangle of Scenario A, from_sequence(3), the 3-cycle and a single
   vertex): integer
   eigenvalues, with eigenvector columns left unnormalised (the unit
   vectors are irrational).  Elsewhere it returns zeros of the right
   shape. *)
Definition eigh_table (L : dense int) : seq rat * dense rat :=
  let rows := rows_of L in
  if rows == [:: [:: 2; -1; -1]; [:: -1; 2; -1]; [:: -1; -1; 2]] then
    ([:: 0; 3; 3], of_rows 0 [:: [:: 1; 1; 1]; [:: 1; -1; 1]; [:: 1; 0; -2]])
  else if rows == [:: [:: 3; 0; 0]; [:: 0; 3; 0]; [:: 0; 0; 3]] then
    ([:: 3; 3; 3], of_rows 0 [:: [:: 1; 0; 0]; [:: 0; 1; 0]; [:: 0; 0; 1]])
  else if rows == [:: [:: 1; -1; 0]; [:: -1; 2; -1]; [:: 0; -1; 1]] then
    ([:: 0; 1; 3], of_rows 0 [:: [:: 1; 1; 1]; [:: 1; 0; -2]; [:: 1; -1; 1]])
  else if rows == [:: [:: 2; -1; 1]; [:: -1; 2; 1]; [:: 1; 1; 2]] then
    ([:: 0; 3; 3], of_rows 0 [:: [:: 1; 1; 1]; [:: 1; -1; 1]; [:: -1; 0; 2]])
  else if rows == [:: [:: 3; 0]; [:: 0; 3]] then
    ([:: 3; 3], of_rows 0 [:: [:: 1; 0]; [:: 0; 1]])
  else if rows == [:: [:: 3]] then ([:: 3], of_rows 0 [:: [:: 1]])
  else if rows == [:: [:: 2]] then ([:: 2], of_rows 0 [:: [:: 1]])
  else if rows == [:: [:: 0]] then ([:: 0], of_rows 0 [:: [:: 1]])
  else (nseq (nrows L) 0, Dense (nrows L) (nrows L) (fun _ _ => 0)).

(* Observations on the result of a construction. *)
Definition boundaries_of (r : result SimplicialComplex)
    : seq (option (dense int)) :=
  if r is Ok c then boundary_matrices c else [::].

(* B_k @ B_{k+1} of a list of boundary matrices, as rows. *)
Definition product_rows (bm : seq (option (dense int))) (k : nat)
    : option (seq (seq int)) :=
  match nth None bm k, nth None bm k.+1 with
  | Some B_k, Some B_kp1 => Some (rows_of (matmul B_k B_kp1))
  | _, _ => None
  end.

(* B_k of a constructed complex (the stored entry for k >= 1). *)
Definition boundary (c : SimplicialComplex) (k : nat) : dense int :=
  odflt (zeros 0 0) (nth None (boundary_matrices c) k).

(* L_k of a constructed complex. *)
Definition laplacian (c : SimplicialComplex) (k : nat) : dense int :=
  nth (zeros 0 0) (hodge_laplacians c) k.

(* Inputs the specification calls invalid. *)
Definition duplicate_input : seq level := [:: [:: [:: 0]; [:: 0]]].
Definition out_of_range_input : seq level :=
  [:: [:: [:: 0]; [:: 1]]; [:: [:: 0; 1]; [:: 1; 7]]].
Definition missing_face_input : seq level :=
  [:: [:: [:: 0]; [:: 1]; [:: 2]]; [:: [:: 0; 1]; [:: 1; 2]]; [:: [:: 0; 1; 2]]].

(* The Laplacians the constructor computes from the levels; they do not
   depend on the solvers. *)
Definition laplacians_of (simplices : seq level) : seq (dense int) :=
  let n_simplices := [seq size s | s <- simplices] in
  if _compute_boundary_matrices simplices n_simplices is Ok boundary_matrices
  then _compute_hodge_laplacians n_simplices (size simplices).-1 boundary_matrices
  else [::].

(* The rational matrix of the upper-left m x n block of A. *)
Definition mxq (m n : nat) (A : dense int) : 'M[rat]_(m, n) :=
  \matrix_(i < m, j < n) (entry A i j)%:~R.

(* dim ker L over the rationals, for a square L. *)
Definition kernel_dim (L : dense int) : nat :=
  (nrows L - \rank (mxq (nrows L) (nrows L) L))%N.

(* The solver resolves the kernel of L at tolerance tol: it returns as
   many values below tol as the kernel has dimensions (Theorem 2.2 of the
   docstrings: beta_k = dim ker L_k). *)
Definition resolves_kernel (eigh : dense int -> seq rat * dense rat)
    (tol : rat) (L : dense int) : Prop :=
  count (fun l : rat => `|l| < tol) (eigh L).1 = kernel_dim L.

(* Every computed value is within delta of the exact one listed at the
   same position. *)
Definition close_to (delta : rat) (computed exact : seq rat) : bool :=
  (size computed == size exact) &&
  all (fun p : rat * rat => `|p.1 - p.2| < delta) (zip computed exact).

(* L @ U = U @ diag(ev), with the columns of U pairwise orthogonal and
   nonzero: ev is the exact spectrum of L, with multiplicities. *)
Definition dotq (n : nat) (f g : nat -> rat) : rat :=
  foldr +%R 0 [seq f m * g m | m <- iota 0 n].

Definition exact_eigenpairs (L : dense int) (r : seq rat * dense rat) : bool :=
  let n := nrows L in
  let U := r.2 in
  [&& ncols L == n, size r.1 == n, nrows U == n, ncols U == n,
      all (fun i => all (fun j =>
             dotq n (fun m => (entry L i m)%:~R) (fun m => entry U m j)
             == entry U i j * nth 0 r.1 j)
           (iota 0 n)) (iota 0 n) &
      all (fun i => all (fun j =>
             (dotq n (fun m => entry U m i) (fun m => entry U m j) == 0)
             == (i != j))
           (iota 0 n)) (iota 0 n)].

(* beta_k from the eigenvalues stored at level k. *)
Definition betti_level (tol : rat) (e : seq rat * dense rat) : nat :=
  if size e.1 == 0%N then 0%N else count (fun l : rat => `|l| < tol) e.1.

(* The exact spectra of the Laplacians of the triangle of Scenario A. *)
Definition triangle_spectra : seq (seq rat) :=
  [:: [:: 0; 3; 3]; [:: 3; 3; 3]; [:: 3]].

(* --------------------------------------------------------------------- *)
(* The attributes of a constructed complex                               *)
(* --------------------------------------------------------------------- *)

(* The values an attribute of the object can hold; PyBoolList is the
   shape a per-level flag would have. *)
Inductive pyval :=
  | PyInt of int
  | PyStr of string
  | PyIntList of seq nat
  | PyBoolList of seq bool
  | PySimplices of seq level
  | PyOptTensors of seq (option (dense int))
  | PyTensors of seq (dense int)
  | PyEigenpairs of seq (seq rat * dense rat).

Definition is_flag_list (v : pyval) : bool :=
  if v is PyBoolList _ then true else false.

(* The instance dictionary after __init__: one entry per assignment
   self.x = ..., in order.  The class defines no property and no
   __getattr__, so these are all the attributes of the object. *)
Definition __dict__ (device : string) (c : SimplicialComplex)
    : dict string pyval :=
  [:: ("simplices"%string, PySimplices (simplices c));
      ("max_k"%string, PyInt (max_k c));
      ("device"%string, PyStr device);
      ("max_modes"%string, PyInt (max_modes c));
      ("n_simplices"%string, PyIntList (n_simplices c));
      ("boundary_matrices"%string, PyOptTensors (boundary_matrices c));
      ("hodge_laplacians"%string, PyTensors (hodge_laplacians c));
      ("eigendecompositions"%string, PyEigenpairs (eigendecompositions c));
      ("betti_numbers"%string, PyIntList (betti_numbers c))].

(* The surface of the specification: some attribute holds one flag per
   level, set exactly when M < n_k. *)
Definition exposes_truncation_flag (device : string) (c : SimplicialComplex)
    : Prop :=
  exists name flags,
    dict_get (__dict__ device c) name = Some (PyBoolList flags) /\
    forall k, (k <= max_k c)%N ->
      nth false flags k = (max_modes c < (nth 0%N (n_simplices c) k)%:Z).

(* The eigenvalues stored at level k. *)
Definition eigenvalues (c : SimplicialComplex) (k : nat) : seq rat :=
  (nth ([::], Dense 0 0 (fun _ _ => 0)) (eigendecompositions c) k).1.

(* ===================================================================== *)
(* PARTS II-IV of the source: the operators                              *)
(* ===================================================================== *)

(* --------------------------------------------------------------------- *)
(* Tensors of feature values                                             *)
(* --------------------------------------------------------------------- *)

(* A 3-D tensor batch x n x channels: its shape and its entries. *)
Record tensor3 := Tensor3 {
  dim0 : nat;
  dim1 : nat;
  dim2 : nat;
  at3 : nat -> nat -> nat -> rat
}.

Definition shape3 (X : tensor3) : seq nat := [:: dim0 X; dim1 X; dim2 X].

(* The entries of a tensor as nested lists, for display and tests. *)
Definition to_lists (X : tensor3) : seq (seq (seq rat)) :=
  [seq [seq [seq at3 X b n c | c <- iota 0 (dim2 X)] | n <- iota 0 (dim1 X)]
  | b <- iota 0 (dim0 X)].

Definition of_lists (d1 d2 : nat) (l : seq (seq (seq rat))) : tensor3 :=
  Tensor3 (size l) d1 d2 (fun b n c => nth 0 (nth [::] (nth [::] l b) n) c).


Definition sumq (s : seq rat) : rat := foldr +%R 0 s.

(* Broadcasting of one dimension: sizes must match or one of them be 1. *)
Definition bdim (a b : nat) : option nat :=
  if a == b then Some a
  else if a == 1%N then Some b
  else if b == 1%N then Some a
  else None.

(* The index read in a dimension of size a that was broadcast. *)
Definition bidx (a i : nat) : nat := if a == 1%N then 0%N else i.

(* float tensor of an integer matrix *)
Definition to_rat (A : dense int) : dense rat :=
  Dense (nrows A) (ncols A) (fun i j => (entry A i j)%:~R).

(* U[:, :n] for 0 <= n *)
Definition cols_upto (n : nat) (U : dense rat) : dense rat :=
  Dense (nrows U) (minn n (ncols U)) (entry U).

(* F[:n] along the first dimension, 0 <= n *)
Definition first_upto (n : nat) (F : tensor3) : tensor3 :=
  Tensor3 (minn n (dim0 F)) (dim1 F) (dim2 F) (at3 F).

(* torch.einsum('nm,bni->bmi', A, X) *)
Definition einsum_nm_bni_bmi (A : dense rat) (X : tensor3) : result tensor3 :=
  if bdim (nrows A) (dim1 X) is Some n_n then
    Ok (Tensor3 (dim0 X) (ncols A) (dim2 X)
          (fun b m i =>
             sumq [seq entry A (bidx (nrows A) n) m * at3 X b (bidx (dim1 X) n) i
                  | n <- iota 0 n_n]))
  else Raise RuntimeError.

(* torch.einsum('mio,bmi->bmo', F, X) *)
Definition einsum_mio_bmi_bmo (F X : tensor3) : result tensor3 :=
  match bdim (dim0 F) (dim1 X), bdim (dim1 F) (dim2 X) with
  | Some n_m, Some n_i =>
      Ok (Tensor3 (dim0 X) n_m (dim2 F)
            (fun b m o =>
               sumq [seq at3 F (bidx (dim0 F) m) (bidx (dim1 F) i) o *
                         at3 X b (bidx (dim1 X) m) (bidx (dim2 X) i)
                    | i <- iota 0 n_i]))
  | _, _ => Raise RuntimeError
  end.

(* torch.einsum('nm,bmo->bno', A, X) *)
Definition einsum_nm_bmo_bno (A : dense rat) (X : tensor3) : result tensor3 :=
  if bdim (ncols A) (dim1 X) is Some n_m then
    Ok (Tensor3 (dim0 X) (nrows A) (dim2 X)
          (fun b n o =>
             sumq [seq entry A n (bidx (ncols A) m) * at3 X b (bidx (dim1 X) m) o
                  | m <- iota 0 n_m]))
  else Raise RuntimeError.

(* torch.einsum('ij,bji->bi', B, T): a 2-D result batch x i *)
Definition einsum_ij_bji_bi (B : dense rat) (T : tensor3) : result (dense rat) :=
  match bdim (nrows B) (dim2 T), bdim (ncols B) (dim1 T) with
  | Some n_i, Some n_j =>
      Ok (Dense (dim0 T) n_i
            (fun b i =>
               sumq [seq entry B (bidx (nrows B) i) (bidx (ncols B) j) *
                         at3 T b (bidx (dim1 T) j) (bidx (dim2 T) i)
                    | j <- iota 0 n_j]))
  | _, _ => Raise RuntimeError
  end.

(* X.transpose(1, 2) *)
Definition transpose12 (X : tensor3) : tensor3 :=
  Tensor3 (dim0 X) (dim2 X) (dim1 X) (fun b c n => at3 X b n c).

(* torch.zeros_like(X) *)
Definition zeros_like (X : tensor3) : tensor3 :=
  Tensor3 (dim0 X) (dim1 X) (dim2 X) (fun _ _ _ => 0).

(* a * X for a scalar a *)
Definition scale3 (a : rat) (X : tensor3) : tensor3 :=
  Tensor3 (dim0 X) (dim1 X) (dim2 X) (fun b n c => a * at3 X b n c).

(* C.unsqueeze(-1).expand(-1, -1, d) *)
Definition expand_last (d : nat) (C : dense rat) : tensor3 :=
  Tensor3 (nrows C) (ncols C) d (fun b i _ => entry C b i).

(* X + Y, with broadcasting *)
Definition add3 (X Y : tensor3) : result tensor3 :=
  match bdim (dim0 X) (dim0 Y), bdim (dim1 X) (dim1 Y), bdim (dim2 X) (dim2 Y) with
  | Some d0, Some d1, Some d2 =>
      Ok (Tensor3 d0 d1 d2
            (fun b n c =>
               at3 X (bidx (dim0 X) b) (bidx (dim1 X) n) (bidx (dim2 X) c) +
               at3 Y (bidx (dim0 Y) b) (bidx (dim1 Y) n) (bidx (dim2 Y) c)))
  | _, _, _ => Raise RuntimeError
  end.

(* out += Y: Y must broadcast to the shape of out, which is kept. *)
Definition fits (y o : nat) : bool := (y == o) || (y == 1%N).

Definition iadd3 (out Y : tensor3) : result tensor3 :=
  if [&& fits (dim0 Y) (dim0 out), fits (dim1 Y) (dim1 out) &
         fits (dim2 Y) (dim2 out)]
  then Ok (Tensor3 (dim0 out) (dim1 out) (dim2 out)
             (fun b n c =>
                at3 out b n c +
                at3 Y (bidx (dim0 Y) b) (bidx (dim1 Y) n) (bidx (dim2 Y) c)))
  else Raise RuntimeError.

(* nn.Linear(in, out, bias=False) with weight W of shape out x in *)
Definition linear (W : dense rat) (X : tensor3) : result tensor3 :=
  if dim2 X == ncols W then
    Ok (Tensor3 (dim0 X) (dim1 X) (nrows W)
          (fun b n o =>
             sumq [seq at3 X b n i * entry W o i | i <- iota 0 (ncols W)]))
  else Raise RuntimeError.

(* s[k], raising IndexError out of range (k >= 0) *)
Definition getitem (T : Type) (s : seq T) (k : nat) : result T :=
  if nth None [seq Some x | x <- s] k is Some x then Ok x else Raise IndexError.

(* --------------------------------------------------------------------- *)
(* PART II of the source: SpectralConvolution                            *)
(* --------------------------------------------------------------------- *)

(* 1-D tensors are lists.  x op y with broadcasting. *)
Definition bmap2 (f : rat -> rat -> rat) (x y : seq rat) : result (seq rat) :=
  if bdim (size x) (size y) is Some n then
    Ok [seq f (nth 0 x (bidx (size x) i)) (nth 0 y (bidx (size y) i))
       | i <- iota 0 n]
  else Raise RuntimeError.

(* x.max(), which raises on an empty tensor *)
Definition max1 (x : seq rat) : result rat :=
  if x is a :: x' then Ok (foldr Order.max a x') else Raise RuntimeError.

(* The constant 1e-6 added to the largest eigenvalue. *)
Definition eps6 : rat := (10%:R ^+ 6)^-1.

Module SpectralConvolution.

(* filter_type 'mlp' keeps spectral_filter (n_modes x in x out),
   'polynomial' keeps poly_coeffs (poly_order x in x out). *)
Inductive filter :=
  | Mlp of tensor3
  | Polynomial of tensor3.

Record t := Build {
  in_features : nat;
  out_features : nat;
  n_modes : nat;
  filter_type : filter
}.

Definition poly_order : nat := 5.

(* poly_coeffs[i].unsqueeze(0) * T.unsqueeze(-1).unsqueeze(-1) *)
Definition coeff_term (poly_coeffs : tensor3) (i : nat) (T : seq rat) : tensor3 :=
  Tensor3 (size T) (dim1 poly_coeffs) (dim2 poly_coeffs)
          (fun m a o => at3 poly_coeffs i a o * nth 0 T m).

(* The loop `for i in range(2, poly_order)`, carrying
   (filter_response, T_prev, T_curr). *)
Fixpoint cheb_loop (poly_coeffs : tensor3) (Lambda_normalized : seq rat)
    (idx : seq nat) (st : tensor3 * seq rat * seq rat)
    : result (tensor3 * seq rat * seq rat) :=
  if idx is i :: idx' then
    let: (filter_response, T_prev, T_curr) := st in
    do twice <- bmap2 (fun x y => 2 * x * y) Lambda_normalized T_curr;
    do T_next <- bmap2 (fun x y => x - y) twice T_prev;
    do filter_response <- iadd3 filter_response (coeff_term poly_coeffs i T_next);
    cheb_loop poly_coeffs Lambda_normalized idx' (filter_response, T_curr, T_next)
  else Ok st.

(* The polynomial branch up to filter_response.  Where the float
   denominator max + 1e-6 is 0 the quotient is inf or nan; rat gives 0. *)
Definition chebyshev_response (self : t) (poly_coeffs : tensor3) (n_modes : nat)
    (Lambda : seq rat) : result tensor3 :=
  let Lambda_n := take n_modes Lambda in
  do top <- max1 Lambda_n;
  let Lambda_normalized := [seq l / (top + eps6) | l <- Lambda_n] in
  let filter_response :=
    Tensor3 n_modes (in_features self) (out_features self) (fun _ _ _ => 0) in
  let T_prev := nseq n_modes 1 in
  let T_curr := Lambda_normalized in
  do filter_response <- iadd3 filter_response (coeff_term poly_coeffs 0 T_prev);
  do filter_response <-
    (if (1 < poly_order)%N
     then iadd3 filter_response (coeff_term poly_coeffs 1 T_curr)
     else Ok filter_response);
  do st <- cheb_loop poly_coeffs Lambda_normalized (iota 2 (poly_order - 2))
             (filter_response, T_prev, T_curr);
  Ok st.1.1.

(* SpectralConvolution.forward(X, U, Lambda) *)
Definition forward (self : t) (X : tensor3) (U : dense rat) (Lambda : seq rat)
    : result tensor3 :=
  let n_modes := minn (n_modes self) (ncols U) in
  let U_truncated := cols_upto n_modes U in
  do X_spectral <- einsum_nm_bni_bmi (transpose U_truncated) X;
  do X_filtered <-
    match filter_type self with
    | Mlp spectral_filter =>
        let filter_truncated := first_upto n_modes spectral_filter in
        einsum_mio_bmi_bmo filter_truncated X_spectral
    | Polynomial poly_coeffs =>
        do filter_response <- chebyshev_response self poly_coeffs n_modes Lambda;
        einsum_mio_bmi_bmo filter_response X_spectral
    end;
  einsum_nm_bmo_bno U_truncated X_filtered.

(* The forward contract in the words of the specification: project with
   U^T onto the first m = min(M, columns of U) modes, apply the mode-wise
   weights, project back with U. *)
Definition forward_spec (self : t) (spectral_filter : tensor3) (X : tensor3)
    (U : dense rat) : tensor3 :=
  let m := minn (n_modes self) (ncols U) in
  let X_spectral b k i :=
    sumq [seq entry U n k * at3 X b n i | n <- iota 0 (dim1 X)] in
  let X_filtered b k o :=
    sumq [seq at3 spectral_filter k i o * X_spectral b k i
         | i <- iota 0 (in_features self)] in
  Tensor3 (dim0 X) (dim1 X) (out_features self)
    (fun b n o => sumq [seq entry U n k * X_filtered b k o | k <- iota 0 m]).

End SpectralConvolution.

(* --------------------------------------------------------------------- *)
(* PART III of the source: BoundaryCoupling                              *)
(* --------------------------------------------------------------------- *)

Module BoundaryCoupling.

(* W_down with beta exist only when the level above exists and has
   features, W_up with gamma likewise; reading an attribute that was not
   created raises AttributeError. *)
Record t := Build {
  dim_k : nat;
  has_below : bool;
  has_above : bool;
  down : option (dense rat * rat);
  up : option (dense rat * rat)
}.

(* One of the two guarded blocks of forward: project the neighbour with
   W, aggregate with the matrix B through einsum('ij,bji->bi'), scale,
   expand to dim_k channels and add to output. *)
Definition contribution (self : t) (gate : option (dense rat * rat))
    (B : dense rat) (X_nb : tensor3) (output : tensor3) : result tensor3 :=
  if gate is Some (W, g) then
    do X_proj <- linear W X_nb;
    do coupled <- einsum_ij_bji_bi B (transpose12 X_proj);
    iadd3 output (scale3 g (expand_last (dim_k self) coupled))
  else Raise AttributeError.

(* BoundaryCoupling.forward(X_k, X_k_minus_1, X_k_plus_1, B_k, B_k_plus_1) *)
Definition forward (self : t) (X_k : tensor3)
    (X_k_minus_1 X_k_plus_1 : option tensor3)
    (B_k B_k_plus_1 : option (dense rat)) : result tensor3 :=
  let output := zeros_like X_k in
  do output <-
    match has_above self, X_k_plus_1, B_k_plus_1 with
    | true, Some X_above, Some B =>
        if (0 < dim1 X_above)%N
        then contribution self (down self) B X_above output
        else Ok output
    | _, _, _ => Ok output
    end;
  match has_below self, X_k_minus_1, B_k with
  | true, Some X_below, Some B =>
      if (0 < dim1 X_below)%N
      then contribution self (up self) (transpose B) X_below output
      else Ok output
  | _, _, _ => Ok output
  end.

(* The operator in the words of the specification: the neighbour above
   projected to width dim_k and aggregated through B_{k+1}, the neighbour
   below projected and aggregated through B_k transposed, each scaled by
   its gate; a neighbour with no simplices contributes nothing. *)
Definition forward_spec (self : t) (X_k : tensor3)
    (X_k_minus_1 X_k_plus_1 : option tensor3)
    (B_k B_k_plus_1 : option (dense rat)) : tensor3 :=
  let proj (W : dense rat) (X : tensor3) b j c :=
    sumq [seq at3 X b j i * entry W c i | i <- iota 0 (ncols W)] in
  let above b i c :=
    match X_k_plus_1, B_k_plus_1, down self with
    | Some X, Some B, Some (W, g) =>
        g * sumq [seq entry B i j * proj W X b j c | j <- iota 0 (dim1 X)]
    | _, _, _ => 0
    end in
  let below b i c :=
    match X_k_minus_1, B_k, up self with
    | Some X, Some B, Some (W, g) =>
        g * sumq [seq entry B j i * proj W X b j c | j <- iota 0 (dim1 X)]
    | _, _, _ => 0
    end in
  Tensor3 (dim0 X_k) (dim1 X_k) (dim_k self)
          (fun b i c => above b i c + below b i c).

End BoundaryCoupling.

(* --------------------------------------------------------------------- *)
(* PART IV of the source: SFNOLayer                                      *)
(* --------------------------------------------------------------------- *)

(* nn.LayerNorm(d): weight and bias of length d. *)
Record LayerNorm := { weight : seq rat; bias : seq rat }.

(* The eps=1e-5 of nn.LayerNorm. *)
Definition eps5 : rat := (10%:R ^+ 5)^-1.

Definition map3 (f : rat -> rat) (X : tensor3) : tensor3 :=
  Tensor3 (dim0 X) (dim1 X) (dim2 X) (fun b n c => f (at3 X b n c)).

(* F.relu *)
Definition relu (x : rat) : rat := if x < 0 then 0 else x.

Module SFNOLayer.

Record t := Build {
  dims : seq nat;
  spectral_convs : seq SpectralConvolution.t;
  alpha : seq rat;
  boundary_couplings : seq BoundaryCoupling.t;
  residuals : seq (dense rat);
  norms : seq LayerNorm;
  activation : string
}.

Section Forward.

(* The float functions 1/sqrt and gelu, and the dropout module (the
   identity in eval mode, a random rescaled mask in training mode). *)
Variable rsqrt : rat -> rat.
Variable gelu : rat -> rat.
Variable dropout : tensor3 -> tensor3.

(* self.norms[k](Y): normalisation over the last dimension, whose size
   must be the normalised size. *)
Definition layer_norm (ln : LayerNorm) (Y : tensor3) : result tensor3 :=
  if dim2 Y == size (weight ln) then
    Ok (Tensor3 (dim0 Y) (dim1 Y) (dim2 Y)
          (fun b n c =>
             let row := [seq at3 Y b n i | i <- iota 0 (dim2 Y)] in
             let mean := sumq row / (dim2 Y)%:R in
             let var := sumq [seq (y - mean) ^+ 2 | y <- row] / (dim2 Y)%:R in
             (at3 Y b n c - mean) * rsqrt (var + eps5) * nth 0 (weight ln) c
             + nth 0 (bias ln) c))
  else Raise RuntimeError.

(* self.activation = F.gelu if activation == 'gelu' else F.relu *)
Definition activate (self : t) (Y : tensor3) : tensor3 :=
  map3 (if activation self == "gelu"%string then gelu else relu) Y.

(* The sum S_k + B_coupled + R_k that is normalised and activated. *)
Definition combine (self : t) (X : seq tensor3) (c : SimplicialComplex)
    (k : nat) (X_k : tensor3) : result tensor3 :=
  do e <- getitem (eigendecompositions c) k;
  let: (Lambda_k, U_k) := e in
  do conv <- getitem (spectral_convs self) k;
  do S_k <- SpectralConvolution.forward conv X_k U_k Lambda_k;
  do alpha_k <- getitem (alpha self) k;
  let S_k := scale3 alpha_k S_k in
  do X_below <- (if (0 < k)%N then do x <- getitem X k.-1; Ok (Some x)
                 else Ok None);
  do X_above <- (if (k.+1 < size (dims self))%N
                 then do x <- getitem X k.+1; Ok (Some x) else Ok None);
  do B_k <- (if (0 < k)%N
             then do B <- getitem (boundary_matrices c) k; Ok (omap to_rat B)
             else Ok None);
  do B_kp1 <- (if (k.+1 < size (dims self))%N
               then do B <- getitem (boundary_matrices c) k.+1; Ok (omap to_rat B)
               else Ok None);
  do coupling <- getitem (boundary_couplings self) k;
  do B_coupled <- BoundaryCoupling.forward coupling X_k X_below X_above B_k B_kp1;
  do W_res <- getitem (residuals self) k;
  do R_k <- linear W_res X_k;
  do Y_k <- add3 S_k B_coupled;
  add3 Y_k R_k.

(* One iteration of the loop: the tensor appended to outputs. *)
Definition level_output (self : t) (X : seq tensor3) (c : SimplicialComplex)
    (k : nat) : result tensor3 :=
  do X_k <- getitem X k;
  if dim1 X_k == 0%N then Ok X_k
  else
    do Y_k <- combine self X c k X_k;
    do ln <- getitem (norms self) k;
    do Y_k <- layer_norm ln Y_k;
    let Y_k := activate self Y_k in
    Ok (dropout Y_k).

(* for k in range(self.max_k + 1): ... outputs.append(...) *)
Fixpoint loop (self : t) (X : seq tensor3) (c : SimplicialComplex)
    (ks : seq nat) (outputs : seq tensor3) : result (seq tensor3) :=
  if ks is k :: ks' then
    do Y_k <- level_output self X c k;
    loop self X c ks' (rcons outputs Y_k)
  else Ok outputs.

(* SFNOLayer.forward(X, complex); max_k = len(dims) - 1. *)
Definition forward (self : t) (X : seq tensor3) (c : SimplicialComplex)
    : result (seq tensor3) :=
  loop self X c (iota 0 (size (dims self))) [::].


End Forward.

End SFNOLayer.

(* --------------------------------------------------------------------- *)
(* Worked inputs for the operators                                       *)
(* --------------------------------------------------------------------- *)

Definition ones3 (d0 d1 d2 : nat) : tensor3 := Tensor3 d0 d1 d2 (fun _ _ _ => 1).

(* A 2 x 2 rotation: an orthonormal eigenvector matrix that is not
   symmetric. *)
Definition U_rot : dense rat :=
  of_rows 0 [:: [:: 3%:R / 5%:R; - (4%:R / 5%:R)]; [:: 4%:R / 5%:R; 3%:R / 5%:R]].

(* Three rows, two eigenvector columns. *)
Definition U_3x2 : dense rat := of_rows 0 [:: [:: 1; 0]; [:: 0; 1]; [:: 0; 0]].

(* Configured with 5 modes, one input and one output channel. *)
Definition conv5 : SpectralConvolution.t :=
  SpectralConvolution.Build 1 1 5 (SpectralConvolution.Mlp (ones3 5 1 1)).

Definition conv2 : SpectralConvolution.t :=
  SpectralConvolution.Build 1 1 2 (SpectralConvolution.Mlp (ones3 2 1 1)).

Definition X_1x3x1 : tensor3 := of_lists 3 1 [:: [:: [:: 1]; [:: 2]; [:: 3]]].
Definition X_1x2x1 : tensor3 := of_lists 2 1 [:: [:: [:: 1]; [:: 0]]].

Definition eye (n : nat) : dense rat := Dense n n (fun i j => (i == j)%:R).

(* Level 0 of the triangle: three vertices below three edges. *)
Definition B1_triangle : dense rat :=
  to_rat (boundary_level triangle [seq size s | s <- triangle] 1).

(* Coupling of a bottom level with C channels to the level above. *)
Definition coupling_up_only (C : nat) : BoundaryCoupling.t :=
  BoundaryCoupling.Build C false true (Some (eye C, 1 / 10%:R)) None.

Definition X_1x3x2 : tensor3 :=
  of_lists 3 2 [:: [:: [:: 1; 2]; [:: 3; 4]; [:: 5; 6]]].
Definition X_1x3x3 : tensor3 :=
  of_lists 3 3 [:: [:: [:: 1; 2; 3]; [:: 4; 5; 6]; [:: 7; 8; 10]]].


Definition layer1 : SFNOLayer.t :=
  SFNOLayer.Build [:: 1%N]
    [:: SpectralConvolution.Build 1 1 1 (SpectralConvolution.Mlp (ones3 1 1 1))]
    [:: 1]
    [:: BoundaryCoupling.Build 1 false false None None]
    [:: eye 1]
    [:: {| weight := [:: 1]; bias := [:: -1] |}]
    "relu".


(* A stand-in for the float 1/sqrt in the worked example; the width-1
   normalisation multiplies it by x - mean = 0. *)
Definition rsqrt_sample (x : rat) : rat := 1.

(* The 3-cycle as from_graph builds it: three vertices, three edges and
   an empty level of triangles; a three-level layer of width 3 with ReLU
   over it, where every shape test of the operators passes. *)
Definition cycle3 : seq level :=
  [:: [:: [:: 0]; [:: 1]; [:: 2]]; [:: [:: 0; 1]; [:: 1; 2]; [:: 0; 2]]; [::]].

Definition conv3 : SpectralConvolution.t :=
  SpectralConvolution.Build 3 3 3 (SpectralConvolution.Mlp (ones3 3 3 3)).

Definition norm3 : LayerNorm :=
  {| weight := [:: 1; 1; 1]; bias := [:: 0; 0; 0] |}.

Definition layer333 : SFNOLayer.t :=
  SFNOLayer.Build [:: 3%N; 3%N; 3%N]
    [:: conv3; conv3; conv3]
    [:: 1; 1; 1]
    [:: BoundaryCoupling.Build 3 false true (Some (eye 3, 1 / 10%:R)) None;
        BoundaryCoupling.Build 3 true true (Some (eye 3, 1 / 10%:R))
                               (Some (eye 3, 1 / 10%:R));
        BoundaryCoupling.Build 3 true false None (Some (eye 3, 1 / 10%:R))]
    [:: eye 3; eye 3; eye 3]
    [:: norm3; norm3; norm3]
    "relu".

Definition X_cycle3 : seq tensor3 :=
  [:: X_1x3x3; X_1x3x3; Tensor3 1 0 3 (fun _ _ _ => 0)].

(* The complex of the 3-cycle, built with the table solver, and the
   outputs of the layer on it (eval mode: dropout is the identity). *)
Definition cycle3_complex : SimplicialComplex :=
  if __init__ eigsh_raises eigh_table cycle3 64 is Ok c then c
  else {| simplices := [::]; max_k := 0; max_modes := 0; n_simplices := [::];
          boundary_matrices := [::]; hodge_laplacians := [::];
          eigendecompositions := [::]; betti_numbers := [::] |}.

(* The list a forward pass returned. *)
Definition outputs_of (r : result (seq tensor3)) : seq tensor3 :=
  if r is Ok Y then Y else [::].

Definition cycle3_outputs : seq tensor3 :=
  outputs_of (SFNOLayer.forward rsqrt_sample id id layer333 X_cycle3
                                cycle3_complex).

(* ===================================================================== *)
(* Further notions and source functions                                  *)
(* ===================================================================== *)

(* The quadratic form x^T L x of a matrix L at the vector x. *)
Definition quad_form (L : dense int) (x : nat -> rat) : rat :=
  sumq [seq x i * sumq [seq (entry L i j)%:~R * x j | j <- iota 0 (ncols L)]
       | i <- iota 0 (nrows L)].

(* The rank of B_k over the rationals (0 for the absent B_0). *)
Definition boundary_rank (c : SimplicialComplex) (k : nat) : nat :=
  \rank (mxq (nth 0%N (n_simplices c) k.-1) (nth 0%N (n_simplices c) k)
             (boundary c k)).

(* BoundaryCoupling.__init__(dim_k, dim_k_minus_1, dim_k_plus_1,
   has_level_below, has_level_above).  W_down and beta are created only
   under `has_level_above and dim_k_plus_1 > 0`, W_up and gamma only
   under `has_level_below and dim_k_minus_1 > 0`.  The weights of the two
   nn.Linear modules (random at construction) and the gates (0.1 at
   construction) are parameters that training changes: they are
   arguments here. *)
Definition BoundaryCoupling__init__ (dim_k dim_k_minus_1 dim_k_plus_1 : nat)
    (has_level_below has_level_above : bool)
    (W_down : nat -> nat -> rat) (beta : rat)
    (W_up : nat -> nat -> rat) (gamma : rat) : BoundaryCoupling.t :=
  BoundaryCoupling.Build dim_k has_level_below has_level_above
    (if has_level_above && (0 < dim_k_plus_1)%N
     then Some (Dense dim_k dim_k_plus_1 W_down, beta) else None)
    (if has_level_below && (0 < dim_k_minus_1)%N
     then Some (Dense dim_k dim_k_minus_1 W_up, gamma) else None).



(* The tensor a call returned. *)
Definition value_of (r : result tensor3) : tensor3 :=
  if r is Ok Y then Y else Tensor3 0 0 0 (fun _ _ _ => 0).


(* --------------------------------------------------------------------- *)
(* SimplicialComplex.from_graph                                          *)
(* --------------------------------------------------------------------- *)

(* A Python set as the list of its elements in insertion order, without
   repetition.  s.add(x): *)
Definition set_add (T : eqType) (s : seq T) (x : T) : seq T :=
  if x \in s then s else rcons s x.

(* a & b *)
Definition set_and (T : eqType) (a b : seq T) : seq T := [seq x <- a | x \in b].

(* `for x in s: body`, where the body may raise (None). *)
Fixpoint foldl_opt (A B : Type) (f : A -> B -> option A) (a : A) (s : seq B)
    : option A :=
  if s is x :: s' then
    if f a x is Some a' then foldl_opt f a' s' else None
  else Some a.

(* What from_graph can do: return a complex, raise KeyError (adj[e[0]]
   with an endpoint that is no key of adj), or let another exception
   escape. *)
Inductive graph_result :=
  | Built of SimplicialComplex
  | KeyError
  | Raised of exn.

(* adj[a].add(b), KeyError (None) when a is no key *)
Definition adj_add (adj : dict int (seq int)) (a b : int)
    : option (dict int (seq int)) :=
  if dict_get adj a is Some s then Some (dict_set adj a (set_add s b)) else None.

Section FromGraph.

Variable eigsh : dense int -> int -> option (seq rat * dense rat).
Variable eigh : dense int -> seq rat * dense rat.

(* The order in which Python iterates over a set is not specified by the
   language; it is a parameter here, for sets of tuples (list(edges_set),
   list(triangles)) and for sets of ints (adj[u], adj[u] & adj[v]).  The
   argument is the set in insertion order. *)
Variable list_of_tuples : seq simplex -> seq simplex.
Variable iter_ints : seq int -> seq int.

(* The loop over the columns of edge_index that fills edges_set. *)
Definition edges_set_of (edge_index : dense int) : seq simplex :=
  foldl (fun edges_set i =>
           let u := entry edge_index 0 i in
           let v := entry edge_index 1 i in
           if u != v then set_add edges_set (sorted_tuple [:: u; v])
           else edges_set)
        [::] (iota 0 (ncols edge_index)).

(* adj = {i: set() for i in range(num_nodes)}, then for e in edges:
   adj[e[0]].add(e[1]); adj[e[1]].add(e[0]) *)
Definition adjacency (num_nodes : nat) (edges : seq simplex)
    : option (dict int (seq int)) :=
  foldl_opt (fun adj e =>
               if adj_add adj (nth 0 e 0) (nth 0 e 1) is Some adj'
               then adj_add adj' (nth 0 e 1) (nth 0 e 0) else None)
            [seq (Posz i, [::]) | i <- iota 0 num_nodes] edges.

(* for w in adj[u] & adj[v]: if u < v < w: triangles.add((u, v, w)) *)
Definition triangles_of_pair (u v : int) (adj_u adj_v : seq int)
    (triangles : seq simplex) : seq simplex :=
  foldl (fun triangles w =>
           if (u < v) && (v < w) then set_add triangles [:: u; v; w]
           else triangles)
        triangles (iter_ints (set_and adj_u adj_v)).

(* for v in adj[u]: ... *)
Definition triangles_of_vertex (adj : dict int (seq int)) (u : int)
    (triangles : seq simplex) : option (seq simplex) :=
  if dict_get adj u is Some adj_u then
    foldl_opt (fun triangles v =>
                 if dict_get adj v is Some adj_v
                 then Some (triangles_of_pair u v adj_u adj_v triangles)
                 else None)
              triangles (iter_ints adj_u)
  else None.

(* triangles = set(); for u in range(num_nodes): ... *)
Definition triangles_set_of (num_nodes : nat) (adj : dict int (seq int))
    : option (seq simplex) :=
  foldl_opt (fun triangles (u : nat) => triangles_of_vertex adj (Posz u) triangles)
            [::] (iota 0 num_nodes).

(* SimplicialComplex.from_graph(edge_index, num_nodes, include_triangles,
   max_spectral_modes=...).  edge_index is a 2-D integer tensor; reading
   row 0 or 1 of a tensor with fewer rows raises IndexError.  num_nodes is
   a Python int; range(num_nodes) is empty for a negative one, so it is
   taken in nat. *)
Definition from_graph (edge_index : dense int) (num_nodes : nat)
    (include_triangles : bool) (max_spectral_modes : int) : graph_result :=
  if (0 < ncols edge_index)%N && (nrows edge_index < 2)%N then Raised IndexError
  else
    let vertices : level := [seq [:: Posz i] | i <- iota 0 num_nodes] in
    let edges := list_of_tuples (edges_set_of edge_index) in
    let simplices := [:: vertices; edges] in
    let simplices :=
      if include_triangles then
        if adjacency num_nodes edges is Some adj then
          if triangles_set_of num_nodes adj is Some triangles
          then Some (rcons simplices (list_of_tuples triangles))
          else None
        else None
      else Some simplices in
    if simplices is Some simplices then
      match __init__ eigsh eigh simplices max_spectral_modes with
      | Ok c => Built c
      | Raise e => Raised e
      end
    else KeyError.

End FromGraph.

(* The vertex v is one of range(num_nodes). *)
Definition in_range (num_nodes : nat) (v : int) : bool :=
  (0 <= v) && (v < num_nodes%:Z).

(* The columns of edge_index as pairs. *)
Definition columns (edge_index : dense int) : seq (int * int) :=
  [seq (entry edge_index 0 i, entry edge_index 1 i)
  | i <- iota 0 (ncols edge_index)].

(* The graph has the edge {a, b}: some column is (a, b) or (b, a), a != b. *)
Definition has_edge (edge_index : dense int) (a b : int) : bool :=
  (a != b) && (((a, b) \in columns edge_index) || ((b, a) \in columns edge_index)).

(* The triangle graph 0 - 1 - 2 - 0 as an edge index. *)
Definition triangle_edge_index : dense int :=
  of_rows 0 [:: [:: 0; 1; 2]; [:: 1; 2; 0]].

(* a and b are the two entries of some tuple of the list. *)
Definition neighbours (edges : seq simplex) (a b : int) : bool :=
  has (fun e : simplex =>
         ((nth 0 e 0 == a) && (nth 0 e 1 == b)) ||
         ((nth 0 e 0 == b) && (nth 0 e 1 == a)))
      edges.

(* adj holds, for every vertex of range(num_nodes) and for no other key,
   the set of its neighbours in the list of edges. *)
Definition adj_spec (num_nodes : nat) (edges : seq simplex)
    (adj : dict int (seq int)) : Prop :=
  forall a,
    if in_range num_nodes a
    then exists2 s, dict_get adj a = Some s &
                    uniq s /\ forall b, (b \in s) = neighbours edges a b
    else dict_get adj a = None.

(* Every column of edge_index that is no loop has both ends in
   range(num_nodes). *)
Definition edges_in_range (edge_index : dense int) (num_nodes : nat) : bool :=
  all (fun uv : int * int =>
         (uv.1 == uv.2) || in_range num_nodes uv.1 && in_range num_nodes uv.2)
      (columns edge_index).

(* u < v < w are pairwise neighbours in the list of edges. *)
Definition clique (edges : seq simplex) (u v w : int) : bool :=
  [&& u < v, v < w, neighbours edges u v, neighbours edges u w &
      neighbours edges v w].

(* An edge index with the edge (1, 5), for two nodes. *)
Definition stray_edge_index : dense int := of_rows 0 [:: [:: 0; 1]; [:: 1; 5]].

(* The complex a call of from_graph returned. *)
Definition complex_of (r : graph_result) : SimplicialComplex :=
  if r is Built c then c
  else {| simplices := [::]; max_k := 0; max_modes := 0; n_simplices := [::];
          boundary_matrices := [::]; hodge_laplacians := [::];
          eigendecompositions := [::]; betti_numbers := [::] |}.

Definition is_built (r : graph_result) : bool :=
  if r is Built _ then true else false.

(* from_graph on the triangle graph, iterating sets in insertion order. *)
Definition triangle_graph : graph_result :=
  from_graph eigsh_raises eigh_table id id triangle_edge_index 3 true 64.

(* --------------------------------------------------------------------- *)
(* PART VI of the source: SFNOLoss                                       *)
(* --------------------------------------------------------------------- *)

(* A float scalar: a number, or nan. *)
Inductive pyfloat := Num of rat | NaN.

(* x + y and a * y on floats: nan is absorbing. *)
Definition fadd (x y : pyfloat) : pyfloat :=
  match x, y with
  | Num a, Num b => Num (a + b)
  | _, _ => NaN
  end.

Definition fmul (a : rat) (y : pyfloat) : pyfloat :=
  if y is Num b then Num (a * b) else NaN.

(* (A ** 2).mean(): the mean of a tensor without elements is nan. *)
Definition mean_sq (A : dense int) : pyfloat :=
  if (nrows A * ncols A == 0)%N then NaN
  else Num (sumq [seq sumq [seq ((entry A i j)%:~R) ^+ 2 | j <- iota 0 (ncols A)]
                 | i <- iota 0 (nrows A)]
            / (nrows A * ncols A)%:R).

(* A @ B on 2-D tensors, which raises when the inner sizes differ. *)
Definition matmul_checked (A B : dense int) : result (dense int) :=
  if ncols A == nrows B then Ok (matmul A B) else Raise RuntimeError.

Module SFNOLoss.

Record t := Build { alpha : rat; beta : rat; gamma : rat }.

(* One iteration of `for k in range(1, len(predictions))` of the
   boundary-consistency term. *)
Definition boundary_step (c : SimplicialComplex) (boundary_loss : pyfloat)
    (k : nat) : result pyfloat :=
  if (k < size (boundary_matrices c) - 1)%N then
    match nth None (boundary_matrices c) k,
          nth None (boundary_matrices c) k.+1 with
    | Some B_k, Some B_kp1 =>
        do composition <- matmul_checked B_k B_kp1;
        Ok (fadd boundary_loss (mean_sq composition))
    | _, _ => Ok boundary_loss
    end
  else Ok boundary_loss.

Fixpoint boundary_loop (c : SimplicialComplex) (boundary_loss : pyfloat)
    (ks : seq nat) : result pyfloat :=
  if ks is k :: ks' then
    do boundary_loss <- boundary_step c boundary_loss k;
    boundary_loop c boundary_loss ks'
  else Ok boundary_loss.

(* losses['boundary'] (lines 846-857).  Of `intermediate` only the test
   `intermediate is not None and 'layer_0' in intermediate` is read, and
   of `predictions` only its length. *)
Definition boundary_loss (has_layer_0 : bool) (n_predictions : nat)
    (c : SimplicialComplex) : result pyfloat :=
  if has_layer_0 then boundary_loop c (Num 0) (iota 1 (n_predictions - 1))
  else Ok (Num 0).

(* SFNOLoss.forward: the task, spectral and incompleteness terms
   (cross-entropy or MSE, filter differences, variances) are taken as
   computed; the total and the dict of components are formed from them
   and the boundary term as in lines 870-877. *)
Definition forward (self : t) (task spectral incompleteness : result pyfloat)
    (has_layer_0 : bool) (n_predictions : nat) (c : SimplicialComplex)
    : result (pyfloat * seq (string * pyfloat)) :=
  do task_loss <- task;
  do spectral_loss <- spectral;
  do boundary <- boundary_loss has_layer_0 n_predictions c;
  do incompleteness_loss <- incompleteness;
  let total_loss :=
    fadd (fadd (fadd task_loss (fmul (alpha self) spectral_loss))
               (fmul (beta self) boundary))
         (fmul (gamma self) incompleteness_loss) in
  Ok (total_loss,
      [:: ("task"%string, task_loss); ("spectral"%string, spectral_loss);
          ("boundary"%string, boundary);
          ("incompleteness"%string, incompleteness_loss)]).

End SFNOLoss.

(* --------------------------------------------------------------------- *)
(* PART VII of the source: utility functions                             *)
(* --------------------------------------------------------------------- *)







(* ===================================================================== *)
(* PART B.  Properties                                                   *)
(* ===================================================================== *)

(* --------------------------------------------------------------------- *)
(* Sums, enumerate, dict                                                 *)
(* --------------------------------------------------------------------- *)

Lemma sumzE (s : seq int) : sumz s = \sum_(x <- s) x.
Proof. by elim: s => [|x s IH]; rewrite ?big_nil // big_cons /= IH. Qed.

Lemma enumerate_rcons (T : Type) (s : seq T) (x : T) :
  enumerate (rcons s x) = rcons (enumerate s) (size s, x).
Proof.
rewrite /enumerate size_rcons -addn1 iotaD add0n /= -!cats1 zip_cat //.
by rewrite size_iota.
Qed.

Lemma zip_iotaS (T : Type) (a n : nat) (s : seq T) :
  zip (iota a.+1 n) s = [seq (iv.1.+1, iv.2) | iv <- zip (iota a n) s].
Proof. by elim: n a s => [|n IH] a [|y s] //=; rewrite IH. Qed.

Lemma enumerate_cons (T : Type) (x : T) (s : seq T) :
  enumerate (x :: s) = (0%N, x) :: [seq (iv.1.+1, iv.2) | iv <- enumerate s].
Proof. by rewrite /enumerate /= zip_iotaS. Qed.

Lemma mem_zip2 (S T : eqType) (l : seq S) (s : seq T) (iv : S * T) :
  iv \in zip l s -> iv.2 \in s.
Proof.
elim: l s => [|i l IH] [|y s] //=; rewrite !in_cons.
by case/orP => [/eqP ->|/IH ->]; rewrite ?eqxx ?orbT.
Qed.

Lemma mem_enumerate (T : eqType) (s : seq T) (iv : nat * T) :
  iv \in enumerate s -> iv.2 \in s.
Proof. exact: mem_zip2. Qed.

Section DictLemmas.
Variables (K : eqType) (V : Type).
Implicit Types (d : dict K V) (k : K) (v : V).

Lemma dict_get_set d k v k' :
  dict_get (dict_set d k v) k' = if k == k' then Some v else dict_get d k'.
Proof.
elim: d => [|[k0 v0] d IH] /=; first by [].
case: (k0 =P k) => [->|ne] /=; first by case: ifP.
by rewrite IH; case: (k0 =P k') => [<-|//]; case: (k =P k0) => // e; case: ne.
Qed.

Lemma dict_of_enumerate_rcons (T : Type) (key : T -> K) (val : nat -> V)
    (s : seq T) (x : T) :
  dict_of_enumerate key val (rcons s x) =
  dict_set (dict_of_enumerate key val s) (key x) (val (size s)).
Proof. by rewrite /dict_of_enumerate enumerate_rcons -cats1 foldl_cat. Qed.

End DictLemmas.

Lemma simplex_to_idx_sound (lv : level) (f : simplex) (m : nat) :
  dict_get (simplex_to_idx lv) f = Some m ->
  (m < size lv)%N /\ sorted_tuple (nth [::] lv m) = f.
Proof.
rewrite /simplex_to_idx; elim/last_ind: lv => [|lv s IH] //.
rewrite dict_of_enumerate_rcons dict_get_set size_rcons.
case: eqP => [<- [<-]|_ /IH [lt_m <-]].
  by rewrite nth_rcons ltnn eqxx.
by rewrite nth_rcons lt_m ltnS (ltnW lt_m).
Qed.

Lemma simplex_to_idx_complete (lv : level) (f : simplex) :
  f \in [seq sorted_tuple s | s <- lv] -> dict_get (simplex_to_idx lv) f.
Proof.
rewrite /simplex_to_idx; elim/last_ind: lv => [|lv s IH] //.
rewrite dict_of_enumerate_rcons dict_get_set map_rcons mem_rcons in_cons.
case: (sorted_tuple s =P f) => [//|ne] /orP [/eqP e|]; first by case: ne.
exact: IH.
Qed.

Lemma simplex_to_idx_none (lv : level) (f : simplex) :
  f \notin [seq sorted_tuple s | s <- lv] -> dict_get (simplex_to_idx lv) f = None.
Proof.
move=> nin; case E: (dict_get _ _) => [m|//].
by case/simplex_to_idx_sound: E nin => lt_m <-; rewrite map_f // mem_nth.
Qed.

(* --------------------------------------------------------------------- *)
(* Signed faces: the boundary of a boundary                              *)
(* --------------------------------------------------------------------- *)

Lemma wsumE (G : simplex -> int) (s : simplex) :
  wsum G s = \sum_(cf <- faces_signed s) cf.1 * G cf.2.
Proof. by rewrite /wsum sumzE big_map. Qed.

Lemma wsum_cons (G : simplex -> int) (x : int) (s : simplex) :
  wsum G (x :: s) = G s - wsum (G \o cons x) s.
Proof.
rewrite !wsumE /= big_cons mul1r big_map; congr (_ + _).
by rewrite -sumrN; apply: eq_bigr => cf _; rewrite mulNr.
Qed.

Lemma wsumB (G H : simplex -> int) (s : simplex) :
  wsum (fun f => G f - H f) s = wsum G s - wsum H s.
Proof.
by rewrite !wsumE -sumrB; apply: eq_bigr => cf _; rewrite mulrBr.
Qed.

Lemma eq_wsum (G H : simplex -> int) (s : simplex) :
  G =1 H -> wsum G s = wsum H s.
Proof. by move=> e; rewrite !wsumE; apply: eq_bigr => cf _; rewrite e. Qed.

(* The signed sum over the faces of the faces vanishes. *)
Lemma wsum_wsum (G : simplex -> int) (s : simplex) : wsum (wsum G) s = 0.
Proof.
elim: s G => [|x s IH] G; first by rewrite wsumE big_nil.
rewrite wsum_cons.
have -> : wsum (wsum G \o cons x) s =
          wsum (fun f => G f - wsum (G \o cons x) f) s.
  by apply: eq_wsum => f /=; rewrite wsum_cons.
by rewrite wsumB IH subr0 subrr.
Qed.

Arguments face : simpl never.

Lemma sign_succ (i : nat) : sign i.+1 = - sign i.
Proof. by rewrite /sign /=; case: (odd i); rewrite //= opprK. Qed.

Lemma face_head (x : int) (s : simplex) : x \notin s -> face (x :: s) x = s.
Proof.
move=> nin; rewrite /face /= eqxx /=; apply/all_filterP/allP => y y_s.
by apply: contraNneq nin => <-.
Qed.

Lemma face_tail (x v : int) (s : simplex) :
  x != v -> face (x :: s) v = x :: face s v.
Proof. by rewrite /face /= => ->. Qed.

(* On a duplicate-free tuple the faces the builder enumerates, with the
   signs it gives them, are the signed faces. *)
Lemma faces_enumerate (s : simplex) :
  uniq s ->
  [seq (sign iv.1, face s iv.2) | iv <- enumerate s] = faces_signed s.
Proof.
elim: s => [|x s IH] // /andP [x_s uniq_s].
rewrite enumerate_cons /= face_head //; congr (_ :: _).
rewrite -IH // -!map_comp; apply/eq_in_map => iv /mem_enumerate iv_s /=.
rewrite sign_succ face_tail //.
by apply: contraNneq x_s => ->.
Qed.

Lemma faces_signed_uniq (s : simplex) (cf : int * simplex) :
  uniq s -> cf \in faces_signed s -> uniq cf.2.
Proof.
move=> uniq_s; rewrite -faces_enumerate // => /mapP [iv _ ->] /=.
exact: filter_uniq.
Qed.

(* --------------------------------------------------------------------- *)
(* The entries of a boundary matrix                                      *)
(* --------------------------------------------------------------------- *)

Lemma to_dense_entry (m n : nat) (t : coo) (r c : nat) :
  entry (to_dense m n t) r c =
  \sum_(e <- t | (e.1.1 == r) && (e.1.2 == c)) e.2.
Proof. by rewrite /= sumzE big_map big_filter. Qed.

Lemma column_sumE (d : dict simplex nat) (sigma : simplex) (r : nat) :
  column_sum d sigma r =
  \sum_(iv <- enumerate sigma | dict_get d (face sigma iv.2) == Some r) sign iv.1.
Proof. by rewrite /column_sum sumzE big_map big_filter. Qed.

Lemma column_sum_faces (d : dict simplex nat) (sigma : simplex) (r : nat) :
  uniq sigma ->
  column_sum d sigma r = wsum (fun f => (dict_get d f == Some r)%:R) sigma.
Proof.
move=> uniq_s; rewrite column_sumE wsumE -faces_enumerate // big_map.
by rewrite big_mkcond; apply: eq_bigr => iv _ /=; case: ifP; rewrite ?mulr1 ?mulr0.
Qed.

Lemma column_entries_sum (d : dict simplex nat) (j : nat) (s : simplex)
    (r c : nat) :
  \sum_(e <- column_entries d j s | (e.1.1 == r) && (e.1.2 == c)) e.2 =
  if j == c then column_sum d (sorted_tuple s) r else 0.
Proof.
rewrite column_sumE /column_entries; set sigma := sorted_tuple s.
elim: (enumerate sigma) => [|iv l IH] /=; first by rewrite !big_nil if_same.
case E: (dict_get d (face sigma iv.2)) => [r'|] /=; last first.
  by rewrite IH big_cons E.
rewrite !big_cons E IH /= -[Some r' == Some r]/(r' == r).
by case: (r' == r); case: (j == c); rewrite //= add0r.
Qed.

Lemma big_enumerate_pick (T : Type) (G : T -> int) (x0 : T) (s : seq T)
    (c : nat) :
  \sum_(jv <- enumerate s) (if jv.1 == c then G jv.2 else 0) =
  if (c < size s)%N then G (nth x0 s c) else 0.
Proof.
elim/last_ind: s => [|s x IH]; first by rewrite big_nil.
rewrite enumerate_rcons -cats1 big_cat big_seq1 IH /= size_rcons nth_rcons ltnS.
by case: (ltngtP c (size s)) => [lt|gt|_]; rewrite ?addr0 ?eqxx ?add0r.
Qed.

Lemma boundary_coo_entry (X Y : level) (r c : nat) :
  \sum_(e <- boundary_coo X Y | (e.1.1 == r) && (e.1.2 == c)) e.2 =
  if (c < size Y)%N
  then column_sum (simplex_to_idx X) (sorted_tuple (nth [::] Y c)) r else 0.
Proof.
rewrite /boundary_coo big_flatten big_map /=.
under eq_bigr do rewrite column_entries_sum.
exact: (big_enumerate_pick
          (fun s => column_sum (simplex_to_idx X) (sorted_tuple s) r) [::]).
Qed.

Lemma column_sum_nil (sigma : simplex) (r : nat) : column_sum [::] sigma r = 0.
Proof. by rewrite column_sumE big_pred0. Qed.

Lemma nth_n_simplices (simplices : seq level) (k : nat) :
  nth 0%N [seq size s | s <- simplices] k = size (nth [::] simplices k).
Proof.
case: (ltnP k (size simplices)) => [lt|ge]; first exact: nth_map.
by rewrite !nth_default // size_map.
Qed.

Lemma boundary_level_shape (simplices : seq level) (k : nat) :
  let B := boundary_level simplices [seq size s | s <- simplices] k in
  nrows B = size (nth [::] simplices k.-1) /\
  ncols B = size (nth [::] simplices k).
Proof.
rewrite /boundary_level !nth_n_simplices.
by case: ifP => _ //=; case: (boundary_coo _ _).
Qed.

(* Every entry of B_k, in all the branches of the builder. *)
Lemma boundary_level_entry (simplices : seq level) (k r c : nat) :
  let X := nth [::] simplices k.-1 in
  let Y := nth [::] simplices k in
  entry (boundary_level simplices [seq size s | s <- simplices] k) r c =
  if (c < size Y)%N
  then column_sum (simplex_to_idx X) (sorted_tuple (nth [::] Y c)) r else 0.
Proof.
move=> X Y; rewrite /boundary_level !nth_n_simplices -/X -/Y.
case: ifP => [/orP [/eqP -> //|/eqP /size0nil ->]|_].
- by rewrite /= column_sum_nil if_same.
- rewrite -boundary_coo_entry.
  case E: (boundary_coo X Y) => [|e t]; first by rewrite big_nil.
  by rewrite to_dense_entry.
Qed.

(* --------------------------------------------------------------------- *)
(* B_k @ B_{k+1} on levels closed under faces                            *)
(* --------------------------------------------------------------------- *)

Lemma matmul_entry (A B : dense int) (i j : nat) :
  entry (matmul A B) i j = \sum_(m <- iota 0 (ncols A)) entry A i m * entry B m j.
Proof. by rewrite /= sumzE big_map. Qed.

Lemma sum_iota_pick (F : nat -> int) (n m0 : nat) :
  \sum_(m <- iota 0 n) F m * (Some m0 == Some m)%:R =
  if (m0 < n)%N then F m0 else 0.
Proof.
elim: n => [|n IH]; first by rewrite big_nil.
rewrite -addn1 iotaD add0n big_cat big_seq1 IH addn1 ltnS /=.
rewrite -[Some m0 == Some n]/(m0 == n).
by case: (ltngtP m0 n) => [_|_|->]; rewrite ?mulr1 ?mulr0 ?addr0 ?add0r.
Qed.

Lemma closed_overP (cur next : level) (s : simplex) :
  closed_over cur next -> s \in next ->
  uniq (sorted_tuple s) /\
  forall cf, cf \in faces_signed (sorted_tuple s) ->
    cf.2 \in [seq sorted_tuple t | t <- cur].
Proof.
move=> /allP cl /cl /andP [uniq_s /allP faces_s].
have uniq_t : uniq (sorted_tuple s) by rewrite sort_uniq.
split=> // cf; rewrite -faces_enumerate // => /mapP [iv /mem_enumerate iv_s ->].
by apply: faces_s; rewrite -(mem_sort (fun x y : int => x <= y)).
Qed.

(* The boundary of a boundary vanishes when level k+1 is closed over
   level k. *)
Lemma boundary_boundary_entry (simplices : seq level) (k i j : nat) :
  let ns := [seq size s | s <- simplices] in
  closed_over (nth [::] simplices k) (nth [::] simplices k.+1) ->
  entry (matmul (boundary_level simplices ns k.+1.-1)
                (boundary_level simplices ns k.+1)) i j = 0.
Proof.
move=> ns cl; rewrite matmul_entry.
have [_ ->] := boundary_level_shape simplices k.+1.-1.
rewrite [k.+1.-1]/=; set X := nth [::] simplices k.-1.
set Y := nth [::] simplices k; set Z := nth [::] simplices k.+1.
under eq_bigr do rewrite !boundary_level_entry /= -/X -/Y -/Z.
case: (ltnP j (size Z)) => [lt_j|_]; last first.
  by apply: big1 => m _; rewrite mulr0.
have [uniq_t faces_t] := closed_overP cl (mem_nth [::] lt_j).
set tau := sorted_tuple (nth [::] Z j) in uniq_t faces_t *.
set G := fun f : simplex => (dict_get (simplex_to_idx X) f == Some i)%:R : int.
rewrite -[RHS](wsum_wsum G tau) [RHS]wsumE.
under eq_bigr do rewrite (column_sum_faces _ _ uniq_t) wsumE mulr_sumr.
rewrite exchange_big /= big_seq [RHS]big_seq.
apply: eq_bigr => cf cf_t.
have := simplex_to_idx_complete (faces_t _ cf_t).
case E: (dict_get _ _) => [m0|//] _.
have [lt_m0 e_m0] := simplex_to_idx_sound E.
under eq_bigr do rewrite mulrCA.
rewrite -mulr_sumr; congr (_ * _).
rewrite (sum_iota_pick
  (fun m => if (m < size Y)%N
            then column_sum (simplex_to_idx X) (sorted_tuple (nth [::] Y m)) i
            else 0)) lt_m0 e_m0.
by rewrite column_sum_faces // (faces_signed_uniq uniq_t cf_t).
Qed.

(* --------------------------------------------------------------------- *)
(* The constructor                                                       *)
(* --------------------------------------------------------------------- *)

Section Construction.

Variable eigsh : dense int -> int -> option (seq rat * dense rat).
Variable eigh : dense int -> seq rat * dense rat.

Lemma compute_boundary_matrices_ok (simplices : seq level) :
  (0 < size simplices)%N ->
  let ns := [seq size s | s <- simplices] in
  let max_k := (size simplices).-1 in
  _compute_boundary_matrices simplices ns =
  Ok (rcons (None :: [seq Some (boundary_level simplices ns k) | k <- iota 1 max_k])
            (Some (zeros (nth 0%N ns max_k) 0))).
Proof. by case: simplices. Qed.

Lemma init_ok (levels : seq level) (M : int) :
  (0 < size levels)%N ->
  exists c, __init__ eigsh eigh levels M = Ok c /\
            [/\ simplices c = levels,
                max_k c = (size levels).-1,
                n_simplices c = [seq size s | s <- levels],
                _compute_boundary_matrices levels (n_simplices c) =
                  Ok (boundary_matrices c) &
                hodge_laplacians c =
                  _compute_hodge_laplacians (n_simplices c) (max_k c)
                    (boundary_matrices c)].
Proof.
move=> lt0; rewrite /__init__ compute_boundary_matrices_ok //=.
by eexists; split; [reflexivity | split; rewrite /= ?compute_boundary_matrices_ok].
Qed.

Lemma init_nil (M : int) : __init__ eigsh eigh [::] M = Raise IndexError.
Proof. by []. Qed.

Lemma nth_boundaries (simplices : seq level) (bm : seq (option (dense int)))
    (k : nat) :
  let ns := [seq size s | s <- simplices] in
  _compute_boundary_matrices simplices ns = Ok bm ->
  (0 < k <= (size simplices).-1)%N ->
  nth None bm k = Some (boundary_level simplices ns k).
Proof.
move=> ns; case: k => [|k] // E /= lt_k.
have lt0 : (0 < size simplices)%N by case: (size simplices) lt_k.
move: E; rewrite compute_boundary_matrices_ok // => -[<-].
rewrite [nth _ _ _]/= nth_rcons size_map size_iota lt_k.
by rewrite (nth_map 0%N) ?size_iota // nth_iota // add1n.
Qed.

Lemma nth_boundaries_top (simplices : seq level)
    (bm : seq (option (dense int))) :
  let ns := [seq size s | s <- simplices] in
  _compute_boundary_matrices simplices ns = Ok bm ->
  nth None bm (size simplices).-1.+1 =
  Some (zeros (nth 0%N ns (size simplices).-1) 0).
Proof.
move=> ns; rewrite /ns {ns}.
case: (posnP (size simplices)) => [/size0nil -> //|lt0].
rewrite compute_boundary_matrices_ok // => -[<-].
by rewrite [nth _ _ _]/= nth_rcons size_map size_iota ltnn eqxx.
Qed.

End Construction.

(* --------------------------------------------------------------------- *)
(* C1: the boundary of a boundary                                        *)
(* --------------------------------------------------------------------- *)

Lemma closed_complex_at (simplices : seq level) (k : nat) :
  closed_complex simplices -> (k < (size simplices).-1)%N ->
  closed_over (nth [::] simplices k) (nth [::] simplices k.+1).
Proof. by move=> /allP cl lt_k; apply: cl; rewrite mem_iota. Qed.

(** C1, as stated, fails: for the complex from_sequence(3) builds, with
    levels [(0,),(1,),(2,)], [(0,1),(1,2)], [(0,1,2)], the product
    B_1 @ B_2 is the column (-1, 0, 1), not zero. *)
Lemma from_sequence_boundary_product_nonzero :
  product_rows (boundaries_of (from_sequence eigsh_raises eigh_table 3 3 64)) 1
  = Some [:: [:: -1]; [:: 0]; [:: 1]].
Proof. by vm_compute. Qed.

(** C1, amended: when the levels handed to the constructor are closed
    under taking faces, construction succeeds and for every level k from
    1 to max_k the product B_k @ B_{k+1} of the stored boundary matrices
    is the zero matrix of shape n_{k-1} x n_{k+1}. *)
Theorem boundary_of_boundary_closed
    (eigsh : dense int -> int -> option (seq rat * dense rat))
    (eigh : dense int -> seq rat * dense rat)
    (simplices : seq level) (M : int) (k : nat) :
  closed_complex simplices -> (0 < k <= (size simplices).-1)%N ->
  exists c B_k B_kp1,
    [/\ __init__ eigsh eigh simplices M = Ok c,
        nth None (boundary_matrices c) k = Some B_k,
        nth None (boundary_matrices c) k.+1 = Some B_kp1 &
        dense_eq (matmul B_k B_kp1)
                 (zeros (nth 0%N (n_simplices c) k.-1)
                        (nth 0%N (n_simplices c) k.+1))].
Proof.
move=> cl /andP [lt0k le_k].
have lt0 : (0 < size simplices)%N.
  by case: (size simplices) le_k => //= le_k; rewrite (leq_trans lt0k le_k).
have [c [-> [_ _ e_ns e_bm _]]] := init_ok eigsh eigh M lt0.
rewrite e_ns in e_bm *.
have e_k := nth_boundaries e_bm (introT andP (conj lt0k le_k)).
have [r_k c_k] := boundary_level_shape simplices k.
exists c, (boundary_level simplices [seq size s | s <- simplices] k).
move: le_k; rewrite leq_eqVlt => /orP [/eqP e_top|lt_k].
- exists (zeros (nth 0%N [seq size s | s <- simplices] k) 0).
  split=> //; first by rewrite e_top (nth_boundaries_top e_bm).
  rewrite /dense_eq /= e_ns !nth_n_simplices; split=> //.
  by rewrite [nth _ _ k.+1]nth_default // e_top prednK.
- exists (boundary_level simplices [seq size s | s <- simplices] k.+1).
  have e_k1 : nth None (boundary_matrices c) k.+1 =
              Some (boundary_level simplices [seq size s | s <- simplices] k.+1).
    by apply: nth_boundaries.
  have [r_k1 c_k1] := boundary_level_shape simplices k.+1.
  split=> //; rewrite /dense_eq e_ns !nth_n_simplices; split=> //.
  move=> i j _ _; rewrite [RHS]/=.
  exact: (boundary_boundary_entry i j (closed_complex_at cl lt_k)).
Qed.

Lemma boundary_of_boundary_closed_witness :
  exists c B_k B_kp1,
    [/\ __init__ eigsh_raises eigh_table triangle 64 = Ok c,
        nth None (boundary_matrices c) 1 = Some B_k,
        nth None (boundary_matrices c) 2 = Some B_kp1 &
        dense_eq (matmul B_k B_kp1)
                 (zeros (nth 0%N (n_simplices c) 0) (nth 0%N (n_simplices c) 2))].
Proof.
by apply: (@boundary_of_boundary_closed eigsh_raises eigh_table triangle 64 1).
Defined.

(* --------------------------------------------------------------------- *)
(* C8: the Hodge Laplacians                                              *)
(* --------------------------------------------------------------------- *)

(** C8: for every constructed complex and every level k with n_k > 0, the
    stored Laplacian L_k has shape n_k x n_k, its entries are those of
    B_k^T B_k + B_{k+1} B_{k+1}^T with the first term left out at k = 0
    and the second left out at the top level, and L_k equals its
    transpose entry for entry. *)
Theorem hodge_laplacian_formula
    (eigsh : dense int -> int -> option (seq rat * dense rat))
    (eigh : dense int -> seq rat * dense rat)
    (simplices : seq level) (M : int) (k : nat) :
  (k <= (size simplices).-1)%N -> (0 < size (nth [::] simplices k))%N ->
  exists c,
    [/\ __init__ eigsh eigh simplices M = Ok c,
        nrows (laplacian c k) = nth 0%N (n_simplices c) k /\
        ncols (laplacian c k) = nth 0%N (n_simplices c) k,
        (0 < k)%N -> nth None (boundary_matrices c) k,
        (k < max_k c)%N -> nth None (boundary_matrices c) k.+1 &
        forall i j,
          entry (laplacian c k) i j =
            (if (0 < k)%N
             then entry (matmul (transpose (boundary c k)) (boundary c k)) i j
             else 0) +
            (if (k < max_k c)%N
             then entry (matmul (boundary c k.+1) (transpose (boundary c k.+1))) i j
             else 0) /\
          entry (laplacian c k) i j = entry (laplacian c k) j i].
Proof.
move=> le_k lt_nk.
have lt0 : (0 < size simplices)%N.
  by case: simplices lt_nk {le_k} => //; rewrite nth_nil.
have [c [-> [_ e_max e_ns e_bm e_L]]] := init_ok eigsh eigh M lt0.
rewrite e_ns in e_bm.
have Bk : (0 < k)%N ->
    nth None (boundary_matrices c) k =
    Some (boundary_level simplices [seq size s | s <- simplices] k).
  by move=> lt0k; apply: nth_boundaries => //; rewrite lt0k.
have Bk1 : (k < max_k c)%N ->
    nth None (boundary_matrices c) k.+1 =
    Some (boundary_level simplices [seq size s | s <- simplices] k.+1).
  by rewrite e_max => lt_k; apply: nth_boundaries.
have e_Lk : laplacian c k =
    hodge_level (n_simplices c) (max_k c) (boundary_matrices c) k.
  rewrite /laplacian e_L /_compute_hodge_laplacians.
  rewrite (nth_map 0%N) ?size_iota ?nth_iota ?e_max ?ltnS //.
exists c; rewrite e_Lk /boundary /hodge_level e_ns nth_n_simplices.
rewrite -[size _ == 0%N]negbK -lt0n lt_nk [negb _]/=.
move: (boundary_level _ _ k) (boundary_level _ _ k.+1) Bk Bk1 => A B Bk Bk1.
case: (ltnP 0 k) => [lt0k|_]; case: (ltnP k (max_k c)) => [ltk|_];
  rewrite ?(Bk lt0k) ?(Bk1 ltk) /=; split=> // i j;
  rewrite ?add0r ?addr0; split=> //; congr (_ + _) || idtac;
  by congr sumz; apply: eq_map => m; rewrite mulrC.
Qed.

Lemma hodge_laplacian_formula_witness :
  exists c,
    [/\ __init__ eigsh_raises eigh_table triangle 64 = Ok c,
        nrows (laplacian c 1) = nth 0%N (n_simplices c) 1 /\
        ncols (laplacian c 1) = nth 0%N (n_simplices c) 1,
        (0 < 1)%N -> nth None (boundary_matrices c) 1,
        (1 < max_k c)%N -> nth None (boundary_matrices c) 2 &
        forall i j,
          entry (laplacian c 1) i j =
            (if (0 < 1)%N
             then entry (matmul (transpose (boundary c 1)) (boundary c 1)) i j
             else 0) +
            (if (1 < max_k c)%N
             then entry (matmul (boundary c 2) (transpose (boundary c 2))) i j
             else 0) /\
          entry (laplacian c 1) i j = entry (laplacian c 1) j i].
Proof.
by apply: (@hodge_laplacian_formula eigsh_raises eigh_table triangle 64 1).
Defined.

(* --------------------------------------------------------------------- *)
(* C2: what the constructor checks                                       *)
(* --------------------------------------------------------------------- *)

(** C2, as stated, fails: a level with a duplicate simplex, a vertex
    index outside the vertex range, and a 2-simplex whose face (0,2) is
    missing from level 1 are all accepted; construction returns a
    complex. *)
Lemma constructor_accepts_invalid_input :
  [/\ ~~ no_duplicates duplicate_input /\
      is_ok (__init__ eigsh_raises eigh_table duplicate_input 64),
      ~~ vertices_in_range out_of_range_input /\
      is_ok (__init__ eigsh_raises eigh_table out_of_range_input 64) &
      ~~ closed_complex missing_face_input /\
      is_ok (__init__ eigsh_raises eigh_table missing_face_input 64)].
Proof. by []. Qed.

(** C2, amended: the constructor validates nothing.  On the empty
    sequence of levels it raises IndexError; on every other input, valid
    or not, it succeeds and returns a complex with every attribute
    computed (one count, Laplacian, eigenpair and Betti number per level,
    and max_k + 2 boundary-matrix slots).  A result is either such a
    complete complex or an exception, never a partial object. *)
Theorem constructor_total
    (eigsh : dense int -> int -> option (seq rat * dense rat))
    (eigh : dense int -> seq rat * dense rat)
    (levels : seq level) (M : int) :
  if levels is [::] then __init__ eigsh eigh levels M = Raise IndexError
  else exists c,
    __init__ eigsh eigh levels M = Ok c /\
    [/\ simplices c = levels /\ max_modes c = M,
        n_simplices c = [seq size s | s <- levels],
        size (boundary_matrices c) = (size levels).+1,
        size (hodge_laplacians c) = size levels &
        size (eigendecompositions c) = size levels /\
        size (betti_numbers c) = size levels].
Proof.
case: levels => [//|lv lvs].
eexists; split; first by reflexivity.
by split; rewrite /= ?size_rcons ?size_map ?size_iota.
Qed.

(* --------------------------------------------------------------------- *)
(* C10: from_sequence                                                    *)
(* --------------------------------------------------------------------- *)

Lemma sorted_tuple_id (s : simplex) :
  sorted (fun x y : int => x <= y) s -> sorted_tuple s = s.
Proof. by apply: sorted_sort; apply: le_trans. Qed.

Lemma sorted_tuple_edge (i : nat) :
  sorted_tuple [:: Posz i; Posz i.+1] = [:: Posz i; Posz i.+1].
Proof. by apply: sorted_tuple_id; rewrite /= lez_nat leqnSn. Qed.

Lemma sorted_tuple_window (i : nat) :
  sorted_tuple [:: Posz i; Posz i.+1; Posz i.+2] =
  [:: Posz i; Posz i.+1; Posz i.+2].
Proof. by apply: sorted_tuple_id; rewrite /= !lez_nat !leqnSn. Qed.

Lemma sorted_edges (n : nat) :
  [seq sorted_tuple s | s <- [seq [:: Posz i; Posz i.+1] | i <- iota 0 n]] =
  [seq [:: Posz i; Posz i.+1] | i <- iota 0 n].
Proof. by rewrite -map_comp; apply: eq_map => i /=; rewrite sorted_tuple_edge. Qed.

Lemma mem_edges (n a b : nat) :
  ([:: Posz a; Posz b] \in [seq [:: Posz i; Posz i.+1] | i <- iota 0 n]) =
  (b == a.+1) && (a < n)%N.
Proof.
apply/mapP/andP => [[i]|[/eqP -> lt_a]]; last by exists a; rewrite ?mem_iota.
by rewrite mem_iota add0n /= => lt_i [-> ->].
Qed.

(* The index table of the consecutive pairs. *)
Lemma edges_lookup (n a b : nat) :
  dict_get (simplex_to_idx [seq [:: Posz i; Posz i.+1] | i <- iota 0 n])
           [:: Posz a; Posz b] =
  if (b == a.+1) && (a < n)%N then Some a else None.
Proof.
set E := [seq _ | i <- iota 0 n]; rewrite -mem_edges -/E.
case: ifP => [in_E|/negbT nin_E]; last first.
  by apply: simplex_to_idx_none; rewrite sorted_edges.
have := @simplex_to_idx_complete E [:: Posz a; Posz b].
rewrite sorted_edges in_E => /(_ isT).
case D: (dict_get _ _) => [m|//] _.
have [lt_m] := simplex_to_idx_sound D; rewrite size_map size_iota in lt_m.
by rewrite /E (nth_map 0%N) ?size_iota // nth_iota // add0n sorted_tuple_edge => -[->].
Qed.

Lemma face_window (i : nat) :
  let sigma := [:: Posz i; Posz i.+1; Posz i.+2] in
  [/\ face sigma (Posz i) = [:: Posz i.+1; Posz i.+2],
      face sigma (Posz i.+1) = [:: Posz i; Posz i.+2] &
      face sigma (Posz i.+2) = [:: Posz i; Posz i.+1]].
Proof.
have e1 : forall m, (m.+1 == m) = false by elim.
have e2 : forall m, (m.+2 == m) = false by elim.
have e3 : forall m, (m == m.+1) = false by elim.
have e4 : forall m, (m == m.+2) = false by elim.
by rewrite /face /= !eqz_nat !eqxx /= !eqSS !e1 !e2 !e3 !e4.
Qed.

Lemma succ_neq (m : nat) : (m.+1 == m) = false.
Proof. by elim: m. Qed.

Lemma window_column (n r i : nat) :
  (i.+2 < n)%N ->
  column_sum (simplex_to_idx [seq [:: Posz j; Posz j.+1] | j <- iota 0 (n - 1)])
             [:: Posz i; Posz i.+1; Posz i.+2] r =
  ((r == i) || (r == i.+1))%:R.
Proof.
move=> lt_i; have [f0 f1 f2] := face_window i.
have lt1 : (i.+1 < n - 1)%N by rewrite ltn_subRL add1n.
have lt0 : (i < n - 1)%N by exact: ltnW.
rewrite column_sumE /enumerate /= !big_cons big_nil /= f0 f1 f2 !edges_lookup.
rewrite !eqxx lt1 lt0 /= eqSS succ_neq /=.
rewrite -[Some i.+1 == Some r]/(i.+1 == r) -[Some i == Some r]/(i == r).
rewrite ![_ == r]eq_sym /sign /=.
case: (r =P i) => [->|_]; case: (_ =P i.+1) => [e|_] //=.
by move/eqP: e; rewrite eq_sym succ_neq.
Qed.

(** C10: for every length L >= 3 and window_size >= 3, from_sequence
    succeeds; level 1 holds exactly the consecutive pairs (i, i+1) and
    level 2 the windows (i, i+1, i+2), i < L-2; the face (i, i+2) of each
    window is absent from level 1 and from its index table, so the levels
    are not closed under faces; and the boundary builder leaves that face
    out: column i of B_2 has the entry 1 in rows i and i+1 and 0
    elsewhere. *)
Theorem from_sequence_not_closed
    (eigsh : dense int -> int -> option (seq rat * dense rat))
    (eigh : dense int -> seq rat * dense rat)
    (L w : nat) (M : int) :
  (3 <= L)%N -> (3 <= w)%N ->
  exists c B_2,
    [/\ from_sequence eigsh eigh L w M = Ok c,
        nth [::] (simplices c) 1 =
          [seq [:: Posz i; Posz i.+1] | i <- iota 0 (L - 1)] /\
        nth [::] (simplices c) 2 =
          [seq [:: Posz i; Posz i.+1; Posz i.+2] | i <- iota 0 (L - 2)],
        ~~ closed_complex (simplices c),
        nth None (boundary_matrices c) 2 = Some B_2 &
        forall i, (i < L - 2)%N ->
          [/\ face (sorted_tuple (nth [::] (nth [::] (simplices c) 2) i))
                   (Posz i.+1) = [:: Posz i; Posz i.+2],
              [:: Posz i; Posz i.+2] \notin
                [seq sorted_tuple s | s <- nth [::] (simplices c) 1],
              dict_get (simplex_to_idx (nth [::] (simplices c) 1))
                       [:: Posz i; Posz i.+2] = None &
              forall r, entry B_2 r i = ((r == i) || (r == i.+1))%:R]].
Proof.
move=> le3L le3w; rewrite /from_sequence le3w le3L /=.
set V : level := [seq _ | i <- iota 0 L].
set E : level := [seq _ | i <- iota 0 (L - 1)].
set T : level := [seq _ | i <- iota 0 (L - 2)].
have [c [-> [e_S e_max e_ns e_bm _]]] :=
  init_ok eigsh eigh M (isT : (0 < size [:: V; E; T])%N).
rewrite e_ns in e_bm.
have nth_T i : (i < L - 2)%N ->
    sorted_tuple (nth [::] T i) = [:: Posz i; Posz i.+1; Posz i.+2].
  move=> lt_i.
  by rewrite /T (nth_map 0%N) ?size_iota // nth_iota // add0n sorted_tuple_window.
have nin_E i : [:: Posz i; Posz i.+2] \notin [seq sorted_tuple s | s <- E].
  by rewrite sorted_edges mem_edges eqSS succ_neq.
have lt0 : (0 < L - 2)%N by rewrite subn_gt0.
exists c, (boundary_level [:: V; E; T] [seq size s | s <- [:: V; E; T]] 2).
rewrite e_S; split=> //.
- apply/negP => /allP /(_ 1%N isT) /allP /(_ [:: 0; 1; 2]).
  have -> : [:: 0; 1; 2] \in nth [::] [:: V; E; T] 2.
    by apply/mapP; exists 0%N; rewrite ?mem_iota.
  move=> /(_ isT) /andP [_ /allP /(_ 1 isT)].
  rewrite (sorted_tuple_window 0); have [_ -> _] := face_window 0.
  by rewrite (negbTE (nin_E 0%N)).
- exact: nth_boundaries.
- move=> i lt_i; rewrite [nth [::] _ 2]/= [nth [::] _ 1]/= nth_T //.
  have [_ -> _] := face_window i.
  split=> //; first exact: simplex_to_idx_none.
  move=> r; rewrite boundary_level_entry [nth [::] _ 2]/= [nth [::] _ 2.-1]/=.
  rewrite size_map size_iota lt_i nth_T // window_column //.
  by move: lt_i; rewrite ltn_subRL add2n.
Qed.

Lemma from_sequence_not_closed_witness :
  exists c B_2,
    [/\ from_sequence eigsh_raises eigh_table 3 3 64 = Ok c,
        nth [::] (simplices c) 1 =
          [seq [:: Posz i; Posz i.+1] | i <- iota 0 (3 - 1)] /\
        nth [::] (simplices c) 2 =
          [seq [:: Posz i; Posz i.+1; Posz i.+2] | i <- iota 0 (3 - 2)],
        ~~ closed_complex (simplices c),
        nth None (boundary_matrices c) 2 = Some B_2 &
        forall i, (i < 3 - 2)%N ->
          [/\ face (sorted_tuple (nth [::] (nth [::] (simplices c) 2) i))
                   (Posz i.+1) = [:: Posz i; Posz i.+2],
              [:: Posz i; Posz i.+2] \notin
                [seq sorted_tuple s | s <- nth [::] (simplices c) 1],
              dict_get (simplex_to_idx (nth [::] (simplices c) 1))
                       [:: Posz i; Posz i.+2] = None &
              forall r, entry B_2 r i = ((r == i) || (r == i.+1))%:R]].
Proof.
by apply: (@from_sequence_not_closed eigsh_raises eigh_table 3 3 64).
Defined.

(* --------------------------------------------------------------------- *)
(* Stored eigenvalues and Betti numbers                                  *)
(* --------------------------------------------------------------------- *)

Lemma enumerate_nth (T : eqType) (x0 : T) (s : seq T) (iv : nat * T) :
  iv \in enumerate s -> (iv.1 < size s)%N /\ nth x0 s iv.1 = iv.2.
Proof.
elim/last_ind: s => [|s x IH] //; rewrite enumerate_rcons mem_rcons in_cons.
rewrite size_rcons nth_rcons => /orP [/eqP -> /=|/IH [lt_i <-]].
  by rewrite ltnn eqxx.
by rewrite lt_i ltnS (ltnW lt_i).
Qed.

(* The stored eigenvalues are the solver's, in ascending order. *)
Lemma take_idx_argsort (ev : seq rat) :
  take_idx ev (argsort ev) = sort (fun x y : rat => x <= y) ev.
Proof.
rewrite /take_idx /argsort -map_comp.
have -> : sort (fun x y : rat => x <= y) ev =
          [seq iv.2 | iv <- sort (fun a b : nat * rat => a.2 <= b.2) (enumerate ev)].
  by rewrite -sort_map /enumerate -/(unzip2 _) unzip2_zip // size_iota.
apply/eq_in_map => iv; rewrite mem_sort => /(enumerate_nth 0) [_ e] /=.
exact: e.
Qed.

Lemma count_sort (a : pred rat) (ev : seq rat) :
  count a (sort (fun x y : rat => x <= y) ev) = count a ev.
Proof. by apply/permP; rewrite perm_sort. Qed.

Section Spectra.

Variable eigsh : dense int -> int -> option (seq rat * dense rat).
Variable eigh : dense int -> seq rat * dense rat.

(* With M >= n_k - 1 the full decomposition is taken. *)
Lemma eig_level_full (M : int) (L : dense int) :
  nrows L != 0%N -> (nrows L)%:Z - 1 <= M ->
  (eig_level eigsh eigh M L).1 = sort (fun x y : rat => x <= y) (eigh L).1.
Proof.
move=> /negbTE n0 le_M; rewrite /eig_level n0.
have -> : (py_min M (nrows L) < (nrows L)%:Z - 1) = false.
  rewrite /py_min; case: ifP => _; apply/negbTE; rewrite -leNgt //.
  by rewrite lerBlDr lerDl.
by rewrite /= take_idx_argsort.
Qed.

Lemma betti_level_count (tol : rat) (M : int) (L : dense int) :
  nrows L != 0%N -> (nrows L)%:Z - 1 <= M ->
  betti_level tol (eig_level eigsh eigh M L) =
  count (fun l : rat => `|l| < tol) (eigh L).1.
Proof.
move=> n0 le_M; rewrite /betti_level eig_level_full // size_sort count_sort.
by case: (eigh L).1.
Qed.

Lemma betti_level_empty (tol : rat) (M : int) (L : dense int) :
  nrows L = 0%N -> betti_level tol (eig_level eigsh eigh M L) = 0%N.
Proof. by move=> n0; rewrite /betti_level /eig_level n0. Qed.

Lemma laplacians_of_init (levels : seq level) (M : int) (c : SimplicialComplex) :
  __init__ eigsh eigh levels M = Ok c ->
  [/\ hodge_laplacians c = laplacians_of levels,
      n_simplices c = [seq size s | s <- levels] &
      betti_numbers c =
      [seq betti_level default_tol (eig_level eigsh eigh M L)
      | L <- laplacians_of levels]].
Proof.
rewrite /__init__ /laplacians_of.
case: (_compute_boundary_matrices _ _) => [bm|e] //= [<-] /=.
by split=> //; rewrite /_compute_betti_numbers /_compute_eigendecompositions -map_comp.
Qed.

End Spectra.

(* Computed values within tol of exact ones that are 0 or at least 2 tol
   away from 0: the values below tol are those computed for a 0. *)
Lemma count_close (tol : rat) (computed exact : seq rat) :
  close_to tol computed exact ->
  all (fun y : rat => (y == 0) || (2 * tol <= `|y|)) exact ->
  count (fun l : rat => `|l| < tol) computed = count (pred1 0) exact.
Proof.
rewrite /close_to => /andP [/eqP]; elim: computed exact => [|x xs IH] [|y ys] //=.
move=> [e_sz] /andP [close_xy close_s] /andP [gap_y gap_s].
rewrite (IH ys) //; congr (_ + _)%N; congr nat_of_bool.
case/orP: gap_y => [/eqP y0|gap].
  by move: close_xy; rewrite y0 subr0 eqxx.
have y_neq0 : (y == 0) = false.
  apply/negbTE; rewrite -normr_gt0; apply: lt_le_trans gap.
  by rewrite mulr_gt0 // (le_lt_trans _ close_xy).
rewrite y_neq0; apply/negbTE; rewrite -leNgt.
have: `|y| <= `|x| + `|x - y|.
  by rewrite -{1}[y](subKr x) (le_trans (ler_normB _ _)).
move=> tri; rewrite -(lerD2r `|x - y|) (le_trans _ tri) //.
apply: le_trans gap; rewrite mulr_natl mulr2n lerD2l; exact: ltW.
Qed.

Lemma default_tol_bounds : 0 < default_tol /\ 2 * default_tol <= 1.
Proof. by vm_compute. Qed.

(* --------------------------------------------------------------------- *)
(* C7: the triangle of Scenario A                                        *)
(* --------------------------------------------------------------------- *)

(* The spectra listed for the triangle are exact: the table solver
   returns them with eigenvectors that satisfy L U = U diag(ev). *)
Lemma triangle_spectra_exact :
  [seq (eigh_table L).1 | L <- laplacians_of triangle] = triangle_spectra /\
  all (fun L => exact_eigenpairs L (eigh_table L)) (laplacians_of triangle).
Proof. by vm_compute. Qed.

Lemma triangle_laplacians :
  let L k := nth (zeros 0 0) (laplacians_of triangle) k in
  [/\ laplacians_of triangle = [:: L 0%N; L 1%N; L 2%N],
      nrows (L 0%N) = 3, nrows (L 1%N) = 3 & nrows (L 2%N) = 1].
Proof. by []. Qed.

(** C7: for the triangle with vertices {0,1,2}, edges (0,1),(1,2),(0,2)
    and the 2-simplex (0,1,2), built with M >= 2 modes (the default is
    64) and an eigh whose values are within the tolerance 1e-6 of the
    exact spectra (0,3,3), (3,3,3), (3) of L_0, L_1, L_2, construction
    yields n = [3,3,1] and beta = [1,0,0], and both alternating sums
    are 1. *)
Theorem triangle_scenario
    (eigsh : dense int -> int -> option (seq rat * dense rat))
    (eigh : dense int -> seq rat * dense rat) (M : int) :
  2 <= M ->
  all (fun p : dense int * seq rat => close_to default_tol (eigh p.1).1 p.2)
      (zip (laplacians_of triangle) triangle_spectra) ->
  exists c,
    [/\ __init__ eigsh eigh triangle M = Ok c,
        n_simplices c = [:: 3; 3; 1]%N,
        betti_numbers c = [:: 1; 0; 0]%N,
        alt_sum (n_simplices c) = 1 & alt_sum (betti_numbers c) = 1].
Proof.
move=> le_M; have [] := triangle_laplacians.
move: (nth _ _ 0%N) (nth _ _ 1%N) (nth _ _ 2%N) => L0 L1 L2 eL n0 n1 n2.
have [c [e_c _]] := init_ok eigsh eigh M (isT : (0 < size triangle)%N).
have [_ e_ns e_b] := laplacians_of_init e_c.
rewrite eL [zip _ _]/= => /and4P [cl0 cl1 cl2 _].
have [tol_gt0 tol_le] := default_tol_bounds.
move: default_tol tol_gt0 tol_le e_b cl0 cl1 cl2 => tol tol_gt0 tol_le e_b.
rewrite [(_, _).1]/= [(_, _).2]/= => cl0 cl1 cl2.
have gap : 2 * tol <= `|3 : rat| by rewrite (le_trans tol_le).
have e_betti : betti_numbers c = [:: 1; 0; 0]%N.
  rewrite e_b eL !map_cons !betti_level_count ?n0 ?n1 ?n2 //;
    try by rewrite (le_trans _ le_M).
  rewrite (count_close cl0) ?(count_close cl1) ?(count_close cl2) //;
    by rewrite /= ?eqxx ?gap.
by exists c; rewrite e_ns e_betti.
Qed.

Lemma triangle_scenario_witness :
  exists c,
    [/\ __init__ eigsh_raises eigh_table triangle 64 = Ok c,
        n_simplices c = [:: 3; 3; 1]%N,
        betti_numbers c = [:: 1; 0; 0]%N,
        alt_sum (n_simplices c) = 1 & alt_sum (betti_numbers c) = 1].
Proof.
apply: (@triangle_scenario eigsh_raises eigh_table 64); first by [].
by vm_compute.
Defined.

(* --------------------------------------------------------------------- *)
(* Ranks of Gram matrices over the rationals                             *)
(* --------------------------------------------------------------------- *)

(* A matrix whose Gram matrix vanishes is zero: a sum of squares. *)
Lemma gram_eq0 (q n : nat) (A : 'M[rat]_(q, n)) : A *m A^T = 0 -> A = 0.
Proof.
move=> gram0; apply/matrixP => i j; rewrite mxE.
have: (A *m A^T) i i == 0 by rewrite gram0 mxE.
rewrite mxE psumr_eq0; first by move=> k _; rewrite mxE -expr2 sqr_ge0.
move=> /allP /(_ j); rewrite mem_index_enum mxE /= => /(_ isT).
by rewrite -expr2 sqrf_eq0 => /eqP.
Qed.

Lemma gram_ker (q m n : nat) (A : 'M[rat]_(m, n)) (X : 'M[rat]_(q, m)) :
  X *m (A *m A^T) = 0 -> X *m A = 0.
Proof.
move=> ker; apply: gram_eq0.
by rewrite trmx_mul mulmxA -[X *m A *m _]mulmxA ker mul0mx.
Qed.

Lemma rank_gram (m n : nat) (A : 'M[rat]_(m, n)) : \rank (A *m A^T) = \rank A.
Proof.
have eq_ker : (kermx (A *m A^T) == kermx A)%MS.
  apply/andP; split; apply/sub_kermxP.
    by apply: gram_ker; apply/sub_kermxP.
  by rewrite mulmxA mulmx_ker mul0mx.
have := eqmx_rank eq_ker; rewrite !mxrank_ker => e.
have le1 := rank_leq_row (A *m A^T); have le2 := rank_leq_row A.
by rewrite -(subKn le1) e subKn.
Qed.

Lemma rank_gram_tr (m n : nat) (A : 'M[rat]_(m, n)) : \rank (A^T *m A) = \rank A.
Proof. by rewrite -{2}[A]trmxK rank_gram mxrank_tr. Qed.

(* The Laplacian of two composable maps whose composite vanishes. *)
Lemma rank_hodge (m n p : nat) (A : 'M[rat]_(m, n)) (B : 'M[rat]_(n, p)) :
  A *m B = 0 -> \rank (A^T *m A + B *m B^T)%R = (\rank A + \rank B)%N.
Proof.
move=> AB0.
have -> : A^T *m A + B *m B^T = row_mx A^T B *m (row_mx A^T B)^T.
  by rewrite tr_row_mx trmxK mul_row_col.
rewrite rank_gram -mxrank_tr tr_row_mx trmxK.
rewrite -(eqmx_rank (introT eqmxP (addsmxE A B^T))).
have cap0 : \rank (A :&: B^T)%MS = 0%N.
  apply/eqP; rewrite mxrank_eq0; apply/eqP; apply: gram_eq0.
  have /submxP [X eX] := capmxSl A B^T.
  have /submxP [Y eY] := capmxSr A B^T.
  rewrite {1}eX {1}eY trmx_mul trmxK mulmxA -[X *m A *m B]mulmxA AB0.
  by rewrite mulmx0 mul0mx.
by rewrite -[\rank B]mxrank_tr -(mxrank_sum_cap A B^T) cap0 addn0.
Qed.


(* --------------------------------------------------------------------- *)
(* The stored matrices as rational matrices                              *)
(* --------------------------------------------------------------------- *)

Lemma mxq_zeros (m n a b : nat) : mxq m n (zeros a b) = 0.
Proof. by apply/matrixP => i j; rewrite !mxE. Qed.

Lemma mxq_transpose (m n : nat) (A : dense int) :
  mxq n m (transpose A) = (mxq m n A)^T.
Proof. by apply/matrixP => i j; rewrite !mxE. Qed.

Lemma mxq_iadd (m n : nat) (L A : dense int) :
  mxq m n (iadd L A) = mxq m n L + mxq m n A.
Proof. by apply/matrixP => i j; rewrite !mxE /= rmorphD. Qed.

Lemma big_iota_ord (R : Type) (idx : R) (op : R -> R -> R) (n : nat)
    (F : nat -> R) :
  \big[op/idx]_(k <- iota 0 n) F k = \big[op/idx]_(k < n) F k.
Proof. by rewrite -(big_mkord xpredT) /index_iota subn0. Qed.

Lemma mxq_matmul (m n p : nat) (A B : dense int) :
  ncols A = n -> mxq m p (matmul A B) = mxq m n A *m mxq n p B.
Proof.
move=> <-; apply/matrixP => i j; rewrite !mxE matmul_entry.
rewrite big_iota_ord rmorph_sum /=.
by apply: eq_bigr => k _; rewrite !mxE rmorphM.
Qed.

Lemma mxq_eq0 (m n : nat) (A : dense int) :
  (forall i j, entry A i j = 0) -> mxq m n A = 0.
Proof. by move=> A0; apply/matrixP => i j; rewrite !mxE A0. Qed.

(* --------------------------------------------------------------------- *)
(* Alternating sums                                                      *)
(* --------------------------------------------------------------------- *)

Lemma alt_sum_sub (a b : nat -> nat) (s : seq nat) :
  (forall k, k \in s -> (b k <= a k)%N) ->
  alt_sum [seq (a k - b k)%N | k <- s] =
  alt_sum [seq a k | k <- s] - alt_sum [seq b k | k <- s].
Proof.
elim: s => [|k s IH] le_s /=; first by rewrite subr0.
have le_s' : forall j, j \in s -> (b j <= a j)%N.
  by move=> j j_s; apply: le_s; rewrite in_cons j_s orbT.
rewrite (IH le_s') -subzn ?le_s ?mem_head // !opprB addrACA [RHS]addrACA.
by congr (_ + _); rewrite addrC.
Qed.

Lemma alt_sum_telescope (r : nat -> nat) (a n : nat) :
  alt_sum [seq (r k + r k.+1)%N | k <- iota a n] =
  (r a)%:Z - (-1) ^+ n * (r (a + n)%N)%:Z.
Proof.
elim: n a => [|n IH] a /=; first by rewrite expr0 mul1r addn0 subrr.
rewrite IH exprS addnS addSn PoszD mulN1r mulNr opprB opprK.
by rewrite -addrA [(r a.+1)%:Z + _]addrC subrK.
Qed.

(* --------------------------------------------------------------------- *)
(* The Laplacians of levels closed under faces                           *)
(* --------------------------------------------------------------------- *)

Lemma ord_absurd (m : nat) (i : 'I_m) : m = 0%N -> False.
Proof. by move=> e0; case: i => i; rewrite e0. Qed.

Section ClosedLevels.

Variable levels : seq level.
Hypothesis closed : closed_complex levels.
Hypothesis nonempty : (0 < size levels)%N.

Let ns := [seq size s | s <- levels].
Let d := (size levels).-1.
Let n (k : nat) := size (nth [::] levels k).
Let bm := rcons (None :: [seq Some (boundary_level levels ns k) | k <- iota 1 d])
                (Some (zeros (nth 0%N ns d) 0)).
Let D (k : nat) : 'M[rat]_(n k.-1, n k) :=
  mxq (n k.-1) (n k) (boundary_level levels ns k).
Let r (k : nat) : nat := if (0 < k <= d)%N then \rank (D k) else 0%N.

Lemma boundaries_closed : _compute_boundary_matrices levels ns = Ok bm.
Proof. exact: compute_boundary_matrices_ok. Qed.

Lemma D_comp (k : nat) : (k < d)%N -> D k *m D k.+1 = 0.
Proof.
move=> lt_k; have [_ c_k] := boundary_level_shape levels k.
rewrite /D -(mxq_matmul _ _ _ c_k); apply: mxq_eq0 => i j.
exact: (boundary_boundary_entry i j (closed_complex_at closed lt_k)).
Qed.

Lemma hodge_level_mx (k : nat) :
  (k <= d)%N ->
  let L := hodge_level ns d bm k in
  nrows L = n k /\
  mxq (n k) (n k) L =
    (if (0 < k)%N then (D k)^T *m D k else 0) +
    (if (k < d)%N then D k.+1 *m (D k.+1)^T else 0).
Proof.
move=> le_k; rewrite /hodge_level /ns nth_n_simplices -/(n k) -/ns.
case: (posnP (n k)) => [e0|lt0].
  by split=> //; apply/matrixP => i; case: (ord_absurd i e0).
have Bk : (0 < k)%N -> nth None bm k = Some (boundary_level levels ns k).
  by move=> lt0k; apply: (nth_boundaries boundaries_closed); rewrite lt0k.
have Bk1 : (k < d)%N -> nth None bm k.+1 = Some (boundary_level levels ns k.+1).
  by move=> lt_k; apply: (nth_boundaries boundaries_closed).
have [r_k c_k] := boundary_level_shape levels k.
have [r_k1 c_k1] := boundary_level_shape levels k.+1.
rewrite /D; move: (boundary_level _ _ k) (boundary_level _ _ k.+1) Bk Bk1
  r_k c_k r_k1 c_k1 => A B Bk Bk1 r_k c_k r_k1 c_k1.
case: (ltnP 0 k) => [lt0k|_]; case: (ltnP k d) => [ltk|_];
  rewrite ?(Bk lt0k) ?(Bk1 ltk); split=> //;
  rewrite ?mxq_iadd ?mxq_zeros ?add0r ?addr0 //.
- by rewrite (mxq_matmul _ _ _ c_k1) (@mxq_matmul _ (n k.-1)) // !mxq_transpose.
- by rewrite (@mxq_matmul _ (n k.-1)) // mxq_transpose.
- by rewrite (mxq_matmul _ _ _ c_k1) mxq_transpose.
Qed.

Lemma rank_level (k : nat) :
  (k <= d)%N ->
  \rank (mxq (n k) (n k) (hodge_level ns d bm k)) = (r k + r k.+1)%N.
Proof.
move=> le_k; have [_ ->] := hodge_level_mx le_k; rewrite /r ltnS le_k andbT /=.
case: (ltnP 0 k) => [lt0k|_]; case: (ltnP k d) => [ltk|_];
  rewrite ?add0r ?addr0 ?addn0 ?mxrank0 //.
- exact: (rank_hodge (D_comp ltk)).
- exact: rank_gram_tr.
- exact: rank_gram.
Qed.

Lemma kernel_dim_level (k : nat) :
  (k <= d)%N ->
  kernel_dim (hodge_level ns d bm k) = (n k - (r k + r k.+1))%N.
Proof.
move=> le_k; rewrite -rank_level //; have [] := hodge_level_mx le_k.
by rewrite /kernel_dim; move: (hodge_level _ _ _ _) => L ->.
Qed.

Lemma rank_level_le (k : nat) : (k <= d)%N -> (r k + r k.+1 <= n k)%N.
Proof. by move=> le_k; rewrite -rank_level // rank_leq_row. Qed.

Lemma laplacians_of_closed :
  laplacians_of levels = [seq hodge_level ns d bm k | k <- iota 0 d.+1].
Proof. by rewrite /laplacians_of -/ns boundaries_closed. Qed.

Lemma n_simplices_iota : ns = [seq n k | k <- iota 0 d.+1].
Proof.
rewrite /d prednK //; apply: (@eq_from_nth _ 0%N); rewrite !size_map ?size_iota //.
by move=> k lt_k; rewrite nth_n_simplices (nth_map 0%N) ?size_iota // nth_iota.
Qed.

(* The alternating sum of the kernel dimensions is that of the counts. *)
Lemma euler_poincare_kernel :
  alt_sum [seq kernel_dim L | L <- laplacians_of levels] = alt_sum ns.
Proof.
rewrite laplacians_of_closed -map_comp.
have -> : [seq (kernel_dim \o hodge_level ns d bm) k | k <- iota 0 d.+1] =
          [seq (n k - (r k + r k.+1))%N | k <- iota 0 d.+1].
  apply/eq_in_map => k; rewrite mem_iota add0n ltnS /= => le_k.
  exact: kernel_dim_level.
have le_n : forall k, k \in iota 0 d.+1 -> (r k + r k.+1 <= n k)%N.
  by move=> k; rewrite mem_iota add0n ltnS /=; apply: rank_level_le.
rewrite (alt_sum_sub le_n) alt_sum_telescope add0n -n_simplices_iota /r /= ltnn.
by rewrite mulr0 subrr subr0.
Qed.

End ClosedLevels.

(* --------------------------------------------------------------------- *)
(* C6: Euler-Poincare                                                    *)
(* --------------------------------------------------------------------- *)

(** C6, as stated, fails: from_sequence(3), built with M = 64 >= n_k and
    an eigh that is exact on its Laplacians, stores the full spectra
    (0,1,3), (3,3), (2), so n = [3,2,1] and beta = [1,0,0]: the
    alternating sums are 2 and 1. *)
Lemma euler_poincare_fails_from_sequence :
  if from_sequence eigsh_raises eigh_table 3 3 64 is Ok c then
    [/\ all (fun L => exact_eigenpairs L (eigh_table L)) (hodge_laplacians c),
        [seq size e.1 | e <- eigendecompositions c] = n_simplices c,
        n_simplices c = [:: 3; 2; 1]%N /\ betti_numbers c = [:: 1; 0; 0]%N,
        alt_sum (n_simplices c) = 2 & alt_sum (betti_numbers c) = 1]
  else False.
Proof. by vm_compute. Qed.

Lemma kernel_dimE (L : dense int) (N : nat) :
  nrows L = N -> kernel_dim L = (N - \rank (mxq N N L))%N.
Proof. by move=> <-. Qed.

Lemma eq_map_nth (T U : Type) (x0 : T) (f g : T -> U) (s : seq T) :
  (forall k, (k < size s)%N -> f (nth x0 s k) = g (nth x0 s k)) ->
  [seq f x | x <- s] = [seq g x | x <- s].
Proof.
elim: s => [|x s IH] //= e_s; rewrite (e_s 0%N) // IH // => k lt_k.
exact: (e_s k.+1).
Qed.

(** C6, amended: for every complex handed to the constructor whose levels
    are closed under taking faces, built with M >= n_k at every level
    (full spectra) and an eigh that resolves the kernel of every nonempty
    Laplacian at the tolerance 1e-6 (as many returned values below the
    tolerance as dim ker L_k, the docstring's Theorem 2.2), construction
    succeeds and the alternating sum of the simplex counts equals the
    alternating sum of the Betti numbers. *)
Theorem euler_poincare_closed
    (eigsh : dense int -> int -> option (seq rat * dense rat))
    (eigh : dense int -> seq rat * dense rat)
    (levels : seq level) (M : int) :
  closed_complex levels -> (0 < size levels)%N ->
  all (fun lv : level => (size lv)%:Z <= M) levels ->
  (forall k, (k < size levels)%N ->
     nrows (nth (zeros 0 0) (laplacians_of levels) k) != 0%N ->
     resolves_kernel eigh default_tol (nth (zeros 0 0) (laplacians_of levels) k)) ->
  exists c, __init__ eigsh eigh levels M = Ok c /\
            alt_sum (n_simplices c) = alt_sum (betti_numbers c).
Proof.
move=> closed lt0 /allP le_M resolved.
have [c [e_c _]] := init_ok eigsh eigh M lt0.
have [_ e_ns e_b] := laplacians_of_init e_c.
exists c; split=> //; rewrite e_ns -(euler_poincare_kernel closed lt0) e_b.
congr alt_sum; apply: (@eq_map_nth _ _ (zeros 0 0)) => k.
rewrite {1}laplacians_of_closed // size_map size_iota prednK // => lt_k.
have le_k : (k <= (size levels).-1)%N by rewrite -ltnS prednK.
have [e_n _] := hodge_level_mx lt0 le_k.
have := resolved k lt_k; move: e_n.
rewrite laplacians_of_closed // (nth_map 0%N) ?size_iota ?prednK //.
rewrite nth_iota ?prednK // add0n.
move: (hodge_level _ _ _ _) => L e_n res.
case: (posnP (nrows L)) => [e0|n0].
  by rewrite betti_level_empty // /kernel_dim e0.
rewrite betti_level_count ?res -?lt0n // e_n.
apply: le_trans (le_M _ (mem_nth [::] lt_k)).
by rewrite lerBlDr lerDl.
Qed.

Lemma mxq_scalar (N : nat) (L : dense int) (a : int) :
  (forall i j, (i < N)%N -> (j < N)%N -> entry L i j = if i == j then a else 0) ->
  mxq N N L = (a%:~R)%:M.
Proof.
move=> e_L; apply/matrixP => i j; rewrite !mxE e_L // -val_eqE /=.
by case: eqP => _; rewrite ?mulr1n ?mulr0n.
Qed.

Lemma kernel_dim_scalar (N : nat) (L : dense int) (a : int) :
  nrows L = N -> a != 0 ->
  (forall i j, (i < N)%N -> (j < N)%N -> entry L i j = if i == j then a else 0) ->
  kernel_dim L = 0%N.
Proof.
move=> e_n a0 e_L; rewrite (kernel_dimE e_n) (mxq_scalar e_L) -scalemx1.
by rewrite mxrank_scale_nz ?intr_eq0 // mxrank1 subnn.
Qed.

(* The kernel dimensions of the Laplacians of the triangle: L_1 and L_2
   are 3 times the identity, and dim ker L_0 follows from the
   alternating sum. *)
Lemma triangle_kernel_dims :
  [seq kernel_dim L | L <- laplacians_of triangle] = [:: 1; 0; 0]%N.
Proof.
have kd1 : kernel_dim (nth (zeros 0 0) (laplacians_of triangle) 1) = 0%N.
  apply: (@kernel_dim_scalar 3 _ 3) => //.
  by move=> [|[|[|i]]] [|[|[|j]]] // _ _; vm_compute.
have kd2 : kernel_dim (nth (zeros 0 0) (laplacians_of triangle) 2) = 0%N.
  apply: (@kernel_dim_scalar 1 _ 3) => //.
  by move=> [|i] [|j] // _ _; vm_compute.
have := @euler_poincare_kernel triangle isT isT.
have [-> _ _ _] := triangle_laplacians.
rewrite !map_cons kd1 kd2; move: (kernel_dim _) => x.
have -> : alt_sum [seq size s | s <- triangle] = Posz 1 by [].
by rewrite /= !subr0 => -[->].
Qed.

Lemma triangle_resolved (k : nat) :
  (k < size triangle)%N ->
  nrows (nth (zeros 0 0) (laplacians_of triangle) k) != 0%N ->
  resolves_kernel eigh_table default_tol
    (nth (zeros 0 0) (laplacians_of triangle) k).
Proof.
have := triangle_kernel_dims; have [-> _ _ _] := triangle_laplacians.
rewrite !map_cons /resolves_kernel => -[kd0 kd1 kd2].
case: k => [|[|[|k]]]; rewrite ?[(_.+3 < _)%N]/= => lt_k _.
- by rewrite kd0; vm_compute.
- by rewrite kd1; vm_compute.
- by rewrite kd2; vm_compute.
- discriminate lt_k.
Qed.

Lemma euler_poincare_closed_witness :
  exists c, __init__ eigsh_raises eigh_table triangle 64 = Ok c /\
            alt_sum (n_simplices c) = alt_sum (betti_numbers c).
Proof.
apply: (@euler_poincare_closed eigsh_raises eigh_table triangle 64).
- by vm_compute.
- by vm_compute.
- by vm_compute.
- exact: triangle_resolved.
Defined.

(* --------------------------------------------------------------------- *)
(* C3: truncation                                                        *)
(* --------------------------------------------------------------------- *)

Lemma no_flag_attribute (device : string) (c : SimplicialComplex) :
  ~ exposes_truncation_flag device c.
Proof.
case=> name [flags []]; rewrite /__dict__ /=.
by do 9![case: ifP => _ //].
Qed.

(** C3, as stated, fails: the triangle built with M = 2 has M < n_0 = 3,
    yet the object has no attribute holding a per-level flag (its
    attributes are the nine __init__ assigns), and level 0 stores all
    three eigenvalues. *)
Lemma no_truncation_flag :
  if __init__ eigsh_raises eigh_table triangle 2 is Ok c then
    [/\ max_modes c < (nth 0%N (n_simplices c) 0)%:Z,
        [seq kv.1 | kv <- __dict__ "cpu" c] =
          [:: "simplices"; "max_k"; "device"; "max_modes"; "n_simplices";
              "boundary_matrices"; "hodge_laplacians"; "eigendecompositions";
              "betti_numbers"]%string,
        ~~ has (fun kv => is_flag_list kv.2) (__dict__ "cpu" c),
        ~ exposes_truncation_flag "cpu" c &
        size (eigenvalues c 0) = 3]
  else False.
Proof. by split=> //; apply: no_flag_attribute. Qed.

Section SpectrumSize.

Variable eigsh : dense int -> int -> option (seq rat * dense rat).
Variable eigh : dense int -> seq rat * dense rat.

(* The contracts of the solvers on sizes: eigh returns one value per row,
   eigsh returns the number of values asked for when it returns. *)
Hypothesis eigh_size : forall L, size (eigh L).1 = nrows L.
Hypothesis eigsh_size :
  forall L m r, eigsh L m = Some r -> (size r.1)%:Z = m.

Lemma eig_level_size (M : int) (L : dense int) :
  0 <= M ->
  (size (eig_level eigsh eigh M L).1)%:Z =
  if M < (nrows L)%:Z - 1 then M else (nrows L)%:Z.
Proof.
case: M => [m|//] _; rewrite /eig_level.
case: (posnP (nrows L)) => [->|n0]; first by [].
rewrite [(_, _).1]/= take_idx_argsort size_sort /py_min.
have -> : (nrows L)%:Z - 1 = Posz (nrows L).-1.
  by rewrite -[1]/(Posz 1) subzn // subn1.
rewrite !ltz_nat; case: (ltnP (nrows L) m) => [lt_n|le_m].
  rewrite ltz_nat ltnNge leq_pred /= eigh_size.
  by rewrite ltnNge (leq_trans (leq_pred _) (ltnW lt_n)).
rewrite ltz_nat; case: ifP => [lt_m|_]; last by rewrite eigh_size.
case E: (eigsh L m) => [r|]; first exact: eigsh_size E.
rewrite /= size_take eigh_size; case: ifP => // /negbT; rewrite -leqNgt => le_n.
by move: lt_m; rewrite ltnNge (leq_trans (leq_pred _) le_n).
Qed.

Lemma init_eigendecompositions (levels : seq level) (M : int)
    (c : SimplicialComplex) :
  __init__ eigsh eigh levels M = Ok c ->
  eigendecompositions c =
    [seq eig_level eigsh eigh M L | L <- laplacians_of levels] /\
  betti_numbers c = [seq betti_level default_tol e | e <- eigendecompositions c].
Proof.
rewrite /__init__ /laplacians_of.
by case: (_compute_boundary_matrices _ _) => [bm|e] //= [<-].
Qed.

End SpectrumSize.

Lemma eigh_table_size (L : dense int) : size (eigh_table L).1 = nrows L.
Proof.
have <- : size (rows_of L) = nrows L by rewrite size_map size_iota.
rewrite /eigh_table; do 8![case: eqP => [-> //|_]].
by rewrite /= size_nseq size_map size_iota.
Qed.

(** C3, amended: no truncation flag exists; the constructed object has
    only the attributes __init__ assigns.  What can be inspected is the
    stored spectrum: with 0 <= M and solvers that return the number of
    values asked for, level k stores M eigenvalues when M < n_k - 1 and
    all n_k otherwise, so it is truncated exactly when M < n_k - 1 (not
    when M = n_k - 1 < n_k), and beta_k is at most the number of stored
    eigenvalues. *)
Theorem stored_spectrum_size
    (eigsh : dense int -> int -> option (seq rat * dense rat))
    (eigh : dense int -> seq rat * dense rat)
    (device : string) (levels : seq level) (M : int) (k : nat) :
  (forall L, size (eigh L).1 = nrows L) ->
  (forall L m r, eigsh L m = Some r -> (size r.1)%:Z = m) ->
  0 <= M -> (k < size levels)%N ->
  exists c,
    [/\ __init__ eigsh eigh levels M = Ok c,
        ~ exposes_truncation_flag device c,
        (size (eigenvalues c k))%:Z =
          (if M < (nth 0%N (n_simplices c) k)%:Z - 1 then M
           else (nth 0%N (n_simplices c) k)%:Z),
        (size (eigenvalues c k) < nth 0%N (n_simplices c) k)%N =
          (M < (nth 0%N (n_simplices c) k)%:Z - 1) &
        (nth 0%N (betti_numbers c) k <= size (eigenvalues c k))%N].
Proof.
move=> eigh_size eigsh_size M0 lt_k.
have lt0 : (0 < size levels)%N by exact: leq_ltn_trans lt_k.
have le_k : (k <= (size levels).-1)%N by rewrite -ltnS prednK.
have [c [e_c [_ _ e_ns _ _]]] := init_ok eigsh eigh M lt0.
have [e_eig e_b] := init_eigendecompositions e_c.
have [e_n _] := hodge_level_mx lt0 le_k.
have sz_L : size (laplacians_of levels) = size levels.
  by rewrite laplacians_of_closed // size_map size_iota prednK.
have e_ev : eigenvalues c k =
    (eig_level eigsh eigh M (nth (zeros 0 0) (laplacians_of levels) k)).1.
  by rewrite /eigenvalues e_eig (nth_map (zeros 0 0)) ?sz_L.
have e_nk : nrows (nth (zeros 0 0) (laplacians_of levels) k) =
            nth 0%N (n_simplices c) k.
  rewrite e_ns nth_n_simplices -e_n laplacians_of_closed //.
  by rewrite (nth_map 0%N) ?size_iota ?prednK // nth_iota ?prednK.
have e_sz := eig_level_size eigh_size eigsh_size
               (nth (zeros 0 0) (laplacians_of levels) k) M0.
rewrite e_nk -e_ev in e_sz.
exists c; split=> //; first exact: no_flag_attribute.
- move: e_sz; case: ifP => [lt_M|_] e_sz; last first.
    by rewrite -ltz_nat e_sz ltxx.
  rewrite -ltz_nat e_sz; apply: lt_trans lt_M _.
  by rewrite ltrBlDr ltrDl.
- have lt_e : (k < size (eigendecompositions c))%N.
    by rewrite e_eig size_map sz_L.
  rewrite e_b (nth_map ([::], Dense 0 0 (fun _ _ => 0)) _ _ lt_e).
  by rewrite /betti_level -/(eigenvalues c k); case: ifP => // _; apply: count_size.
Qed.

Lemma stored_spectrum_size_witness :
  exists c,
    [/\ __init__ eigsh_raises eigh_table triangle 1 = Ok c,
        ~ exposes_truncation_flag "cpu" c,
        (size (eigenvalues c 0))%:Z =
          (if 1 < (nth 0%N (n_simplices c) 0)%:Z - 1 then 1
           else (nth 0%N (n_simplices c) 0)%:Z),
        (size (eigenvalues c 0) < nth 0%N (n_simplices c) 0)%N =
          (1 < (nth 0%N (n_simplices c) 0)%:Z - 1) &
        (nth 0%N (betti_numbers c) 0 <= size (eigenvalues c 0))%N].
Proof.
apply: (@stored_spectrum_size eigsh_raises eigh_table "cpu" triangle 1 0).
- exact: eigh_table_size.
- by [].
- by [].
- by [].
Defined.

(* --------------------------------------------------------------------- *)
(* C9: SpectralConvolution.forward                                       *)
(* --------------------------------------------------------------------- *)

(* The first einsum contracts the modes of U against the simplices of X:
   whenever their numbers differ and neither is 1, forward raises. *)
Lemma spectral_forward_shape_error (self : SpectralConvolution.t)
    (X : tensor3) (U : dense rat) (Lambda : seq rat) :
  bdim (minn (SpectralConvolution.n_modes self) (ncols U)) (dim1 X) = None ->
  SpectralConvolution.forward self X U Lambda = Raise RuntimeError.
Proof.
rewrite /SpectralConvolution.forward /einsum_nm_bni_bmi.
by rewrite [nrows _]/= -minnA minnn => ->.
Qed.

(** C9 fails on the code: with X of shape 1 x 3 x 1, an eigenvector matrix
    U of shape 3 x 2 (two columns available) and 5 configured modes,
    min(5, 2) = 2 modes are selected and forward raises RuntimeError,
    where the contract gives a tensor of shape 1 x 3 x 1. *)
Lemma spectral_forward_raises :
  [/\ minn (SpectralConvolution.n_modes conv5) (ncols U_3x2) = 2,
      SpectralConvolution.forward conv5 X_1x3x1 U_3x2 [:: 0; 1] =
        Raise RuntimeError &
      shape3 (SpectralConvolution.forward_spec conv5 (ones3 5 1 1) X_1x3x1 U_3x2)
        = [:: 1; 3; 1]%N].
Proof. by []. Qed.

(* Where the shapes agree (U square) the same einsum projects with U
   instead of U^T: for the rotation U_rot, all mode weights 1 and
   X = (1, 0), forward returns U U X = (-7/25, 24/25), the contract
   U U^T X = (1, 0). *)
Lemma spectral_forward_projects_with_U :
  (if SpectralConvolution.forward conv2 X_1x2x1 U_rot [:: 0; 1] is Ok Y
   then to_lists Y else [::])
    = [:: [:: [:: - (7%:R / 25%:R)]; [:: 24%:R / 25%:R]]] /\
  to_lists (SpectralConvolution.forward_spec conv2 (ones3 2 1 1) X_1x2x1 U_rot)
    = [:: [:: [:: 1]; [:: 0]]].
Proof. by vm_compute. Qed.

(* --------------------------------------------------------------------- *)
(* C4: BoundaryCoupling.forward                                          *)
(* --------------------------------------------------------------------- *)

(* With no neighbour, or neighbours without simplices, the output is the
   zero tensor of the shape of X_k and nothing is raised. *)
Lemma boundary_coupling_zero (self : BoundaryCoupling.t) (X_k : tensor3)
    (X_below X_above : option tensor3) (B_k B_kp1 : option (dense rat)) :
  (forall X, X_above = Some X -> dim1 X = 0%N) ->
  (forall X, X_below = Some X -> dim1 X = 0%N) ->
  BoundaryCoupling.forward self X_k X_below X_above B_k B_kp1 =
  Ok (zeros_like X_k).
Proof.
move=> above0 below0; rewrite /BoundaryCoupling.forward.
have -> : match BoundaryCoupling.has_above self, X_above, B_kp1 with
          | true, Some X, Some B =>
              if (0 < dim1 X)%N
              then BoundaryCoupling.contribution self
                     (BoundaryCoupling.down self) B X (zeros_like X_k)
              else Ok (zeros_like X_k)
          | _, _, _ => Ok (zeros_like X_k)
          end = Ok (zeros_like X_k).
  case: (BoundaryCoupling.has_above self) => //.
  by case: X_above above0 => [X|] // /(_ X erefl) ->; case: B_kp1.
rewrite /=; case: (BoundaryCoupling.has_below self) => //.
by case: X_below below0 => [X|] // /(_ X erefl) ->; case: B_k.
Qed.

(* The aggregation einsum('ij,bji->bi', B, X_proj.transpose(1, 2)) pairs
   the columns of B with the channels of the projection: when their
   numbers differ and neither is 1, forward raises. *)
Lemma boundary_coupling_shape_error (self : BoundaryCoupling.t)
    (X_k X_above : tensor3) (X_below : option tensor3)
    (B_k : option (dense rat)) (B_kp1 W : dense rat) (g : rat) :
  BoundaryCoupling.has_above self -> (0 < dim1 X_above)%N ->
  BoundaryCoupling.down self = Some (W, g) -> dim2 X_above = ncols W ->
  bdim (ncols B_kp1) (nrows W) = None ->
  BoundaryCoupling.forward self X_k X_below (Some X_above) B_k (Some B_kp1) =
  Raise RuntimeError.
Proof.
move=> has lt0 e_down e_in e_j.
rewrite /BoundaryCoupling.forward has lt0 /BoundaryCoupling.contribution e_down.
rewrite /linear e_in eqxx /= /einsum_ij_bji_bi /= e_j.
by case: (bdim _ _).
Qed.

(** C4 fails on the code: at level 0 of the triangle (three vertices
    under three edges) with two channels per level, forward raises
    RuntimeError, where the operator described returns a tensor of shape
    1 x 3 x 2. *)
Lemma boundary_coupling_raises :
  BoundaryCoupling.forward (coupling_up_only 2) X_1x3x2 None (Some X_1x3x2)
                           None (Some B1_triangle) = Raise RuntimeError /\
  shape3 (BoundaryCoupling.forward_spec (coupling_up_only 2) X_1x3x2 None
            (Some X_1x3x2) None (Some B1_triangle)) = [:: 1; 3; 2]%N.
Proof. by vm_compute. Qed.

(* Where the shapes agree (three channels), the value returned is not the
   aggregation through B_1: row 0 is -0.4 in every channel, the
   aggregation gives (-0.8, -1, -1.3). *)
Lemma boundary_coupling_value_differs :
  (if BoundaryCoupling.forward (coupling_up_only 3) X_1x3x3 None (Some X_1x3x3)
        None (Some B1_triangle) is Ok Y
   then nth [::] (nth [::] (to_lists Y) 0) 0 else [::])
    = [:: - (2%:R / 5%:R); - (2%:R / 5%:R); - (2%:R / 5%:R)] /\
  nth [::] (nth [::] (to_lists
     (BoundaryCoupling.forward_spec (coupling_up_only 3) X_1x3x3 None
        (Some X_1x3x3) None (Some B1_triangle))) 0) 0
    = [:: - (4%:R / 5%:R); -1; - (13%:R / 10%:R)].
Proof. by vm_compute. Qed.

(* --------------------------------------------------------------------- *)
(* C5: SFNOLayer.forward                                                 *)
(* --------------------------------------------------------------------- *)

Section LayerForward.

Variable rsqrt : rat -> rat.
Variable gelu : rat -> rat.
Variable dropout : tensor3 -> tensor3.
Variable self : SFNOLayer.t.
Variable X : seq tensor3.
Variable c : SimplicialComplex.

Let level_output := SFNOLayer.level_output rsqrt gelu dropout self X c.
Let loop := SFNOLayer.loop rsqrt gelu dropout self X c.

Lemma loop_cons (k : nat) (ks : seq nat) (outputs : seq tensor3) :
  loop (k :: ks) outputs =
  bind (level_output k) (fun Y_k => loop ks (rcons outputs Y_k)).
Proof. by []. Qed.

(* The loop appends one tensor per level, in order, and stops at the
   first level that raises. *)
Lemma loop_ok (ks : seq nat) (outputs Y : seq tensor3) :
  loop ks outputs = Ok Y ->
  exists2 Ys, Y = outputs ++ Ys &
    size Ys = size ks /\
    forall i, (i < size ks)%N ->
      level_output (nth 0%N ks i) = Ok (nth (zeros_like (ones3 0 0 0)) Ys i).
Proof.
elim: ks outputs => [|k ks IH] outputs.
  by move=> [<-]; exists [::]; rewrite ?cats0.
rewrite loop_cons; case E: (level_output k) => [Y_k|e] //=.
move=> /IH [Ys -> [e_sz e_Ys]]; exists (Y_k :: Ys); first by rewrite cat_rcons.
by split=> [|[|i] lt_i] /=; rewrite ?e_sz //; apply: e_Ys.
Qed.

Lemma loop_total (ks : seq nat) (outputs : seq tensor3) :
  (forall k, k \in ks -> is_ok (level_output k)) -> is_ok (loop ks outputs).
Proof.
elim: ks outputs => [|k ks IH] outputs ok_ks //.
rewrite loop_cons; have := ok_ks k (mem_head _ _).
case: (level_output k) => [Y_k|e] //= _; apply: IH => j j_ks.
by apply: ok_ks; rewrite in_cons j_ks orbT.
Qed.

Lemma forward_levels (Y : seq tensor3) :
  SFNOLayer.forward rsqrt gelu dropout self X c = Ok Y ->
  size Y = size (SFNOLayer.dims self) /\
  forall k, (k < size (SFNOLayer.dims self))%N ->
    level_output k = Ok (nth (zeros_like (ones3 0 0 0)) Y k).
Proof.
move=> /loop_ok [Ys -> [e_sz e_Ys]]; rewrite size_iota in e_sz e_Ys.
by split=> // k lt_k; rewrite -(e_Ys k lt_k) nth_iota.
Qed.

End LayerForward.


(* A normalisation of width 1 returns its bias, whatever 1/sqrt is: the
   worked example does not depend on the stand-in chosen for it. *)
Lemma layer_norm_width1 (rsqrt : rat -> rat) (ln : LayerNorm) (Z : tensor3) :
  size (weight ln) = 1%N -> dim2 Z = 1%N ->
  exists2 N, SFNOLayer.layer_norm rsqrt ln Z = Ok N &
             forall b n, at3 N b n 0 = nth 0 (bias ln) 0.
Proof.
move=> e_w e_Z; rewrite /SFNOLayer.layer_norm e_w e_Z eqxx.
eexists; first by reflexivity.
by move=> b n; rewrite /= /sumq /= addr0 divr1 subrr !mul0r add0r.
Qed.

(* The sum that is normalised: alpha_k times the spectral convolution,
   plus the boundary coupling, plus the residual linear map. *)
Lemma combine_sum (self : SFNOLayer.t) (X : seq tensor3)
    (c : SimplicialComplex) (k : nat) (X_k Z : tensor3) :
  SFNOLayer.combine self X c k X_k = Ok Z ->
  exists S B R,
    [/\ exists e conv, [/\ getitem (eigendecompositions c) k = Ok e,
                           getitem (SFNOLayer.spectral_convs self) k = Ok conv &
                           SpectralConvolution.forward conv X_k e.2 e.1 = Ok S],
        exists coupling X_below X_above B_k B_kp1,
          getitem (SFNOLayer.boundary_couplings self) k = Ok coupling /\
          BoundaryCoupling.forward coupling X_k X_below X_above B_k B_kp1 = Ok B,
        exists2 W_res, getitem (SFNOLayer.residuals self) k = Ok W_res &
                       linear W_res X_k = Ok R &
        exists alpha_k Z1,
          [/\ getitem (SFNOLayer.alpha self) k = Ok alpha_k,
              add3 (scale3 alpha_k S) B = Ok Z1 & add3 Z1 R = Ok Z]].
Proof.
rewrite /SFNOLayer.combine.
case: (getitem (eigendecompositions c) k) => [[Lambda_k U_k]|] //=.
case: (getitem (SFNOLayer.spectral_convs self) k) => [conv|] //=.
case E_S: (SpectralConvolution.forward _ _ _ _) => [S|] //=.
case: (getitem (SFNOLayer.alpha self) k) => [alpha_k|] //=.
case: (X in bind X _) => [X_below|] //=.
case: (X in bind X _) => [X_above|] //=.
case: (X in bind X _) => [B_k|] //=.
case: (X in bind X _) => [B_kp1|] //=.
case: (getitem (SFNOLayer.boundary_couplings self) k) => [coupling|] //=.
case E_B: (BoundaryCoupling.forward _ _ _ _ _ _) => [B|] //=.
case: (getitem (SFNOLayer.residuals self) k) => [W_res|] //=.
case E_R: (linear _ _) => [R|] //=.
case E_1: (add3 _ _) => [Z1|] //= E_Z.
exists S, B, R; split.
- by exists (Lambda_k, U_k), conv.
- by exists coupling, X_below, X_above, B_k, B_kp1.
- by exists W_res.
- by exists alpha_k, Z1.
Qed.




(* ===================================================================== *)
(* Further properties of the construction                                *)
(* ===================================================================== *)

Lemma sumqE (s : seq rat) : sumq s = \sum_(x <- s) x.
Proof. by elim: s => [|x s IH]; rewrite ?big_nil // big_cons /= IH. Qed.

Lemma enumerate_iota (T : Type) (x0 : T) (s : seq T) :
  enumerate s = [seq (i, nth x0 s i) | i <- iota 0 (size s)].
Proof.
rewrite /enumerate -{2}(mkseq_nth x0 s) /mkseq.
by rewrite -{1}(map_id (iota 0 (size s))) zip_map.
Qed.

(** X1 (index table of the boundary builder): the dict comprehension maps
    a sorted tuple to the index of the last simplex of the level that
    sorts to it, and holds no other key: with duplicates in a level, the
    later index overwrites the earlier one. *)
Theorem index_table_last_wins (lv : level) (t : simplex) :
  let keys := [seq sorted_tuple s | s <- lv] in
  dict_get (simplex_to_idx lv) t =
  if t \in keys then Some (size lv - (index t (rev keys)).+1)%N else None.
Proof.
elim/last_ind: lv => [|lv s IH] //=.
rewrite /simplex_to_idx dict_of_enumerate_rcons dict_get_set.
rewrite -/(simplex_to_idx lv) IH.
rewrite map_rcons rev_rcons mem_rcons in_cons size_rcons /=.
rewrite [t == _]eq_sym; case: eqP => [|_] /=; first by rewrite subn1.
by case: ifP => // _; rewrite subSS.
Qed.

(* Removing two different vertices of a tuple without repetition leaves
   two different faces. *)
Lemma face_inj (sigma : simplex) (v w : int) :
  v \in sigma -> w \in sigma -> face sigma v = face sigma w -> v = w.
Proof.
move=> v_in w_in e_f; apply/eqP; apply: contraT => ne_vw.
have : w \in face sigma v by rewrite mem_filter eq_sym ne_vw.
by rewrite e_f mem_filter eqxx.
Qed.

(* The column of a tuple without repetition: the row of its i-th face
   holds (-1)^i, whatever the other faces are. *)
Lemma column_sum_face (d : dict simplex nat) (sigma : simplex) (r i : nat) :
  uniq sigma -> (i < size sigma)%N ->
  (forall i', (i' < size sigma)%N ->
     dict_get d (face sigma (nth 0 sigma i')) = Some r -> i' = i) ->
  dict_get d (face sigma (nth 0 sigma i)) = Some r ->
  column_sum d sigma r = sign i.
Proof.
move=> uniq_s lt_i only_i at_i.
rewrite column_sumE (enumerate_iota 0) big_map /= big_mkcond /=.
have e_F : {in iota 0 (size sigma), forall i',
    (if dict_get d (face sigma (nth 0 sigma i')) == Some r then sign i' else 0)
    = sign i' * (Some i == Some i')%:R}.
  move=> i'; rewrite mem_iota add0n => /andP[_ lt_i'].
  case: eqP => [/only_i-/(_ lt_i') ->|ne_r]; first by rewrite eqxx mulr1.
  case: eqP => [[e_i]|_]; last by rewrite mulr0.
  by case: ne_r; rewrite -e_i.
by rewrite (eq_big_seq _ e_F) sum_iota_pick lt_i.
Qed.

Lemma column_sum_none (d : dict simplex nat) (sigma : simplex) (r : nat) :
  (forall i, (i < size sigma)%N ->
     dict_get d (face sigma (nth 0 sigma i)) != Some r) ->
  column_sum d sigma r = 0.
Proof.
move=> none; rewrite column_sumE (enumerate_iota 0) big_map /=.
rewrite big_seq_cond big1 // => i /andP[]; rewrite mem_iota add0n => /andP[_ lt_i].
by rewrite (negbTE (none i lt_i)).
Qed.

(** X2 (columns of the boundary matrices, lines 113-128): where level
    k+1 is closed over level k, column j of B_{k+1} is the boundary of
    the j-th simplex: the row of its i-th face (in the index table of
    level k) holds (-1)^i, and every row that is the row of no face
    holds 0.  Nothing cancels and nothing is added twice. *)
Theorem boundary_column_closed (levels : seq level) (k j : nat) :
  let B := boundary_level levels [seq size s | s <- levels] k.+1 in
  let sigma := sorted_tuple (nth [::] (nth [::] levels k.+1) j) in
  let d := simplex_to_idx (nth [::] levels k) in
  closed_over (nth [::] levels k) (nth [::] levels k.+1) ->
  (j < size (nth [::] levels k.+1))%N ->
  (forall i, (i < size sigma)%N ->
     exists2 r, dict_get d (face sigma (nth 0 sigma i)) = Some r
              & (r < nrows B)%N /\ entry B r j = sign i) /\
  (forall r, (forall i, (i < size sigma)%N ->
                dict_get d (face sigma (nth 0 sigma i)) != Some r) ->
     entry B r j = 0).
Proof.
move=> B sigma d closed lt_j.
have e_B r : entry B r j = column_sum d sigma r.
  by rewrite /B boundary_level_entry /= lt_j.
have s_in : nth [::] (nth [::] levels k.+1) j \in nth [::] levels k.+1.
  exact: mem_nth.
have [uniq_s faces_in] := closed_overP closed s_in.
split=> [i lt_i|r none]; last by rewrite e_B; apply: column_sum_none.
have f_in : face sigma (nth 0 sigma i) \in
            [seq sorted_tuple t | t <- nth [::] levels k].
  apply: (faces_in (sign i, face sigma (nth 0 sigma i))).
  rewrite -(faces_enumerate uniq_s) (enumerate_iota 0).
  rewrite -map_comp; apply/mapP; exists i => //.
  by rewrite mem_iota add0n.
have := simplex_to_idx_complete f_in.
case e_r: (dict_get _ _) => [r|] // _; exists r => //.
have [lt_r e_f] := simplex_to_idx_sound e_r.
split; first by rewrite (boundary_level_shape levels k.+1).1.
rewrite e_B; apply: column_sum_face => // i' lt_i' e_r'.
have [_ e_f'] := simplex_to_idx_sound e_r'.
have /(face_inj _ _) : face sigma (nth 0 sigma i') = face sigma (nth 0 sigma i).
  by rewrite -e_f -e_f'.
by move=> /(_ (mem_nth _ lt_i') (mem_nth _ lt_i)) /eqP; rewrite nth_uniq // => /eqP.
Qed.

Lemma boundary_column_closed_witness :
  let B := boundary_level triangle [seq size s | s <- triangle] 1 in
  let sigma := sorted_tuple (nth [::] (nth [::] triangle 1) 0) in
  let d := simplex_to_idx (nth [::] triangle 0) in
  (forall i, (i < size sigma)%N ->
     exists2 r, dict_get d (face sigma (nth 0 sigma i)) = Some r
              & (r < nrows B)%N /\ entry B r 0 = sign i) /\
  (forall r, (forall i, (i < size sigma)%N ->
                dict_get d (face sigma (nth 0 sigma i)) != Some r) ->
     entry B r 0 = 0).
Proof. by apply: (@boundary_column_closed triangle 0 0). Defined.

(* --------------------------------------------------------------------- *)
(* The Hodge Laplacians are positive semi-definite                       *)
(* --------------------------------------------------------------------- *)

(* x^T L x through the rational matrix of L. *)
Lemma quad_form_mx (n : nat) (L : dense int) (x : nat -> rat) :
  nrows L = n -> ncols L = n ->
  quad_form L x =
  ((\row_(i < n) x i) *m mxq n n L *m (\row_(i < n) x i)^T) ord0 ord0.
Proof.
move=> e_r e_c; rewrite /quad_form e_r e_c sumqE big_map big_iota_ord.
rewrite -mulmxA !mxE; apply: eq_bigr => i _; rewrite !mxE; congr (_ * _).
rewrite sumqE big_map big_iota_ord; apply: eq_bigr => j _.
by rewrite !mxE.
Qed.

(* v A A^T v^T is a sum of squares. *)
Lemma gram_form_ge0 (m n : nat) (A : 'M[rat]_(m, n)) (v : 'rV[rat]_m) :
  0 <= (v *m (A *m A^T) *m v^T) ord0 ord0.
Proof.
rewrite mulmxA -mulmxA -trmx_mul mxE; apply: sumr_ge0 => j _.
by rewrite [X in _ * X]mxE -expr2 sqr_ge0.
Qed.

Lemma gram_tr_form_ge0 (m n : nat) (A : 'M[rat]_(m, n)) (v : 'rV[rat]_n) :
  0 <= (v *m (A^T *m A) *m v^T) ord0 ord0.
Proof. by have := gram_form_ge0 A^T v; rewrite trmxK. Qed.

Lemma hodge_level_square (ns : seq nat) (d : nat)
    (bm : seq (option (dense int))) (k : nat) :
  ncols (hodge_level ns d bm k) = nrows (hodge_level ns d bm k).
Proof.
rewrite /hodge_level; case: ifP => // _.
by case: ifP => _; case: ifP => _ //; do ?[case: (nth None bm _) => [?|] //].
Qed.

(** X3 (Hodge Laplacians, lines 145-175): every Laplacian the
    constructor stores is positive semi-definite, x^T L_k x >= 0 for
    every level k and every vector x, on any input (closed or not): L_k
    is a sum of Gram matrices of the boundary matrices. *)
Theorem laplacian_positive_semidefinite
    (eigsh : dense int -> int -> option (seq rat * dense rat))
    (eigh : dense int -> seq rat * dense rat)
    (levels : seq level) (M : int) :
  (0 < size levels)%N ->
  exists c, __init__ eigsh eigh levels M = Ok c /\
            forall k x, 0 <= quad_form (laplacian c k) x.
Proof.
move=> nonempty.
have [c [e_c [_ e_d e_n e_bm e_L]]] := init_ok eigsh eigh M nonempty.
exists c; split=> // k x; rewrite /laplacian e_L.
case: (ltnP k (max_k c).+1) => [lt_k|le_k]; last first.
  by rewrite nth_default ?size_map ?size_iota // /quad_form /= /sumq.
rewrite (nth_map 0%N) ?size_iota // nth_iota // add0n.
move: e_bm; rewrite e_n (boundaries_closed nonempty) => -[<-].
rewrite e_d in lt_k *.
have [e_r e_mx] := hodge_level_mx nonempty lt_k.
rewrite (quad_form_mx _ e_r) ?hodge_level_square // e_mx mulmxDr mulmxDl mxE.
apply: addr_ge0.
  case: ifP => _; last by rewrite mulmx0 mul0mx mxE.
  exact: gram_tr_form_ge0.
case: ifP => _; last by rewrite mulmx0 mul0mx mxE.
exact: gram_form_ge0.
Qed.

Lemma laplacian_positive_semidefinite_witness :
  exists c, __init__ eigsh_raises eigh_table triangle 64 = Ok c /\
            forall k x, 0 <= quad_form (laplacian c k) x.
Proof.
by apply: (@laplacian_positive_semidefinite eigsh_raises eigh_table triangle 64).
Defined.

(* --------------------------------------------------------------------- *)
(* Stored spectra                                                        *)
(* --------------------------------------------------------------------- *)

Lemma eig_level_sorted
    (eigsh : dense int -> int -> option (seq rat * dense rat))
    (eigh : dense int -> seq rat * dense rat) (M : int) (L : dense int) :
  sorted (fun x y : rat => x <= y) (eig_level eigsh eigh M L).1.
Proof.
rewrite /eig_level; case: ifP => // _ /=.
by rewrite take_idx_argsort sort_sorted //; apply: le_total.
Qed.

(** X4 (_compute_eigendecompositions, lines 217-220): at every level
    the stored eigenvalues are in ascending order, whatever the solvers
    returned and in whatever order; the operators that keep the first
    modes therefore keep the smallest values that were computed. *)
Theorem stored_eigenvalues_ascending
    (eigsh : dense int -> int -> option (seq rat * dense rat))
    (eigh : dense int -> seq rat * dense rat)
    (levels : seq level) (M : int) :
  (0 < size levels)%N ->
  exists c, __init__ eigsh eigh levels M = Ok c /\
            forall k, sorted (fun x y : rat => x <= y) (eigenvalues c k).
Proof.
move=> nonempty.
have [c [e_c _]] := init_ok eigsh eigh M nonempty.
have [e_e _] := init_eigendecompositions e_c.
exists c; split=> // k; rewrite /eigenvalues e_e.
case: (ltnP k (size (laplacians_of levels))) => [lt_k|le_k].
  by rewrite (nth_map (zeros 0 0)) //; apply: eig_level_sorted.
by rewrite nth_default // size_map.
Qed.

Lemma stored_eigenvalues_ascending_witness :
  exists c, __init__ eigsh_raises eigh_table triangle 64 = Ok c /\
            forall k, sorted (fun x y : rat => x <= y) (eigenvalues c k).
Proof.
by apply: (@stored_eigenvalues_ascending eigsh_raises eigh_table triangle 64).
Defined.

Lemma count_py_take (a : pred rat) (n : int) (s : seq rat) :
  (count a (py_take n s) <= count a s)%N.
Proof.
have le_take m : (count a (take m s) <= count a s)%N.
  by rewrite -{2}(cat_take_drop m s) count_cat leq_addr.
by case: n => m /=.
Qed.

Lemma betti_levelE (tol : rat) (e : seq rat * dense rat) :
  betti_level tol e = count (fun l : rat => `|l| < tol) e.1.
Proof. by rewrite /betti_level; case: e.1. Qed.

(* One level: with the iterative solver failing, truncation keeps a
   prefix of what eigh returned. *)
Lemma betti_level_fallback
    (eigsh : dense int -> int -> option (seq rat * dense rat))
    (eigh : dense int -> seq rat * dense rat)
    (tol : rat) (M M' : int) (L : dense int) :
  (forall A m, eigsh A m = None) -> (nrows L)%:Z - 1 <= M' ->
  (betti_level tol (eig_level eigsh eigh M L) <=
   betti_level tol (eig_level eigsh eigh M' L))%N.
Proof.
move=> fails full; rewrite !betti_levelE /eig_level.
have -> : (py_min M' (nrows L) < (nrows L)%:Z - 1) = false.
  rewrite /py_min; case: ifP => _; last by rewrite ltNge full.
  by rewrite ltrBrDr gtrDl.
case: ifP => // _ /=; rewrite !take_idx_argsort !count_sort.
by case: ifP => // _; rewrite fails /= count_py_take.
Qed.

(** X5 (truncated spectra, lines 196-212 and 230-243): when the
    iterative solver fails and the code falls back to the first n_modes
    values of the full decomposition, the count beta_k obtained with any
    mode limit M is at most the count obtained from the full spectrum:
    truncation on the fallback path can only lose near-zero eigenvalues. *)
Theorem betti_lower_bound_on_fallback
    (eigsh : dense int -> int -> option (seq rat * dense rat))
    (eigh : dense int -> seq rat * dense rat)
    (levels : seq level) (M M' : int) :
  (forall A m, eigsh A m = None) ->
  (0 < size levels)%N ->
  all (fun lv : level => (size lv)%:Z - 1 <= M') levels ->
  exists c c',
    [/\ __init__ eigsh eigh levels M = Ok c,
        __init__ eigsh eigh levels M' = Ok c' &
        forall k, (nth 0%N (betti_numbers c) k <= nth 0%N (betti_numbers c') k)%N].
Proof.
move=> fails nonempty full.
have [c [e_c _]] := init_ok eigsh eigh M nonempty.
have [c' [e_c' _]] := init_ok eigsh eigh M' nonempty.
have [e_e e_b] := init_eigendecompositions e_c.
have [e_e' e_b'] := init_eigendecompositions e_c'.
exists c, c'; split=> // k; rewrite e_b e_e e_b' e_e' -!map_comp.
case: (ltnP k (size (laplacians_of levels))) => [lt_k|le_k]; last first.
  by rewrite !nth_default ?size_map.
rewrite !(nth_map (zeros 0 0)) //=; apply: betti_level_fallback => //.
move: lt_k; rewrite (laplacians_of_closed nonempty) size_map size_iota => lt_k.
rewrite (nth_map 0%N) ?size_iota // nth_iota // add0n.
have [-> _] := hodge_level_mx nonempty lt_k.
by have /allP := full; apply; apply: mem_nth; rewrite -(prednK nonempty).
Qed.

Lemma betti_lower_bound_on_fallback_witness :
  exists c c',
    [/\ __init__ eigsh_raises eigh_table triangle 1 = Ok c,
        __init__ eigsh_raises eigh_table triangle 64 = Ok c' &
        forall k, (nth 0%N (betti_numbers c) k <= nth 0%N (betti_numbers c') k)%N].
Proof.
by apply: (@betti_lower_bound_on_fallback eigsh_raises eigh_table triangle 1 64).
Defined.

(* --------------------------------------------------------------------- *)
(* The kernel of the Laplacian of a closed complex                       *)
(* --------------------------------------------------------------------- *)

(** X6 (Hodge Laplacians of closed complexes, lines 89-175): where the
    levels are closed under taking faces, the kernel of every stored
    Laplacian has dimension n_k - rank B_k - rank B_{k+1} over the
    rationals, the k-th Betti number of the complex (Theorem 2.2 of the
    docstrings, on the matrices the code builds). *)
Theorem hodge_kernel_dimension
    (eigsh : dense int -> int -> option (seq rat * dense rat))
    (eigh : dense int -> seq rat * dense rat)
    (levels : seq level) (M : int) :
  closed_complex levels -> (0 < size levels)%N ->
  exists c, __init__ eigsh eigh levels M = Ok c /\
    forall k, (k <= max_k c)%N ->
      (kernel_dim (laplacian c k) + (boundary_rank c k + boundary_rank c k.+1)
       = nth 0%N (n_simplices c) k)%N.
Proof.
move=> closed nonempty.
have [c [e_c [_ e_d e_n e_bm e_L]]] := init_ok eigsh eigh M nonempty.
exists c; split=> // k; rewrite e_d => le_k.
have e_rank j : boundary_rank c j =
    if (0 < j <= (size levels).-1)%N
    then \rank (mxq (size (nth [::] levels j.-1)) (size (nth [::] levels j))
                    (boundary_level levels [seq size s | s <- levels] j))
    else 0%N.
  rewrite /boundary_rank /boundary e_n !nth_n_simplices.
  case: ifP => [in_j|out_j]; first by rewrite (nth_boundaries _ in_j) -?e_n.
  case: j out_j => [|j] out_j.
    move: e_bm; rewrite e_n (boundaries_closed nonempty) => -[<-] /=.
    by rewrite mxq_zeros mxrank0.
  case e_B: (nth None _ _) => [B|] /=; last by rewrite mxq_zeros mxrank0.
  have -> : size (nth [::] levels j.+1) = 0%N.
    by rewrite nth_default // -(prednK nonempty) ltnNge; move: out_j => /= ->.
  by apply/eqP; rewrite -leqn0 rank_leq_col.
rewrite /laplacian e_L e_d (nth_map 0%N) ?size_iota // nth_iota // add0n.
move: e_bm; rewrite e_n (boundaries_closed nonempty) => -[<-].
rewrite (kernel_dim_level closed nonempty le_k) !e_rank nth_n_simplices.
by rewrite subnK // (rank_level_le closed nonempty le_k).
Qed.

Lemma hodge_kernel_dimension_witness :
  exists c, __init__ eigsh_raises eigh_table triangle 64 = Ok c /\
    forall k, (k <= max_k c)%N ->
      (kernel_dim (laplacian c k) + (boundary_rank c k + boundary_rank c k.+1)
       = nth 0%N (n_simplices c) k)%N.
Proof.
by apply: (@hodge_kernel_dimension eigsh_raises eigh_table triangle 64).
Defined.

(* --------------------------------------------------------------------- *)
(* from_sequence                                                         *)
(* --------------------------------------------------------------------- *)

Lemma sorted_vertices (n : nat) :
  [seq sorted_tuple s | s <- [seq [:: Posz i] | i <- iota 0 n]] =
  [seq [:: Posz i] | i <- iota 0 n].
Proof. by rewrite -map_comp. Qed.

Lemma mem_vertices (n a : nat) :
  ([:: Posz a] \in [seq [:: Posz i] | i <- iota 0 n]) = (a < n)%N.
Proof.
apply/mapP/idP => [[i]|lt_a]; last by exists a; rewrite ?mem_iota.
by rewrite mem_iota add0n /= => lt_i [->].
Qed.

Lemma sorted_windows (n : nat) :
  [seq sorted_tuple s
  | s <- [seq [:: Posz i; Posz i.+1; Posz i.+2] | i <- iota 0 n]] =
  [seq [:: Posz i; Posz i.+1; Posz i.+2] | i <- iota 0 n].
Proof. by rewrite -map_comp; apply: eq_map => i /=; rewrite sorted_tuple_window. Qed.

(* The consecutive pairs over the positions: a closed level. *)
Lemma closed_over_path (L : nat) :
  closed_over [seq [:: Posz i] | i <- iota 0 L]
              [seq [:: Posz i; Posz i.+1] | i <- iota 0 (L - 1)].
Proof.
apply/allP => s /mapP[i]; rewrite mem_iota add0n /= => lt_i ->.
rewrite sorted_tuple_edge sorted_vertices /face /= !eqz_nat !eqxx /=.
rewrite !inE /= eqz_nat eq_sym succ_neq /= !mem_vertices.
by rewrite -[(i.+1 < L)%N]/(1 + i < L)%N -ltn_subRL lt_i (leq_trans lt_i) ?leq_subr.
Qed.

Lemma no_duplicates_sequence (L : nat) :
  [/\ uniq [seq [:: Posz i] | i <- iota 0 L],
      uniq [seq [:: Posz i; Posz i.+1] | i <- iota 0 (L - 1)] &
      uniq [seq [:: Posz i; Posz i.+1; Posz i.+2] | i <- iota 0 (L - 2)]].
Proof.
by split; rewrite map_inj_uniq ?iota_uniq // => i j [].
Qed.

Lemma in_range_sequence (L : nat) :
  [/\ all (fun s : simplex => all (fun v : int => (0 <= v) && (v < L%:Z)) s)
          [seq [:: Posz i] | i <- iota 0 L],
      all (fun s : simplex => all (fun v : int => (0 <= v) && (v < L%:Z)) s)
          [seq [:: Posz i; Posz i.+1] | i <- iota 0 (L - 1)] &
      all (fun s : simplex => all (fun v : int => (0 <= v) && (v < L%:Z)) s)
          [seq [:: Posz i; Posz i.+1; Posz i.+2] | i <- iota 0 (L - 2)]].
Proof.
split; apply/allP => s /mapP[i]; rewrite mem_iota add0n /= => lt_i ->.
- by rewrite /= ltz_nat lt_i.
- have lt1 : (i.+1 < L)%N by rewrite -[(_ < _)%N]/(1 + i < L)%N -ltn_subRL.
  by rewrite /= !ltz_nat lt1 (ltnW lt1).
- have lt2 : (i.+2 < L)%N by rewrite -[(_ < _)%N]/(2 + i < L)%N -ltn_subRL.
  by rewrite /= !ltz_nat lt2 (ltnW lt2) (ltnW (ltnW lt2)).
Qed.

(** X7 (from_sequence, lines 288-308): from_sequence returns on every
    length and window size; its levels have no duplicate simplex and
    only vertices below the length; and they are closed under taking
    faces exactly when no window is built, window_size < 3 or
    length < 3.  In that case the complex is the path graph and the laws
    of closed complexes apply to it. *)
Theorem from_sequence_closed_iff
    (eigsh : dense int -> int -> option (seq rat * dense rat))
    (eigh : dense int -> seq rat * dense rat)
    (L w : nat) (M : int) :
  exists c,
    [/\ from_sequence eigsh eigh L w M = Ok c,
        no_duplicates (simplices c), vertices_in_range (simplices c) &
        closed_complex (simplices c) = ~~ ((3 <= w)%N && (3 <= L)%N)].
Proof.
rewrite /from_sequence.
set V : level := [seq _ | i <- iota 0 L].
set E : level := [seq _ | i <- iota 0 (L - 1)].
have [uniq_V uniq_E uniq_T] := no_duplicates_sequence L.
have [in_V in_E in_T] := in_range_sequence L.
case: ifP => [/andP[le3w le3L]|_] /=.
  set T : level := [seq _ | i <- iota 0 (L - 2)].
  have [c [e_c [e_S _ _ _ _]]] :=
    init_ok eigsh eigh M (isT : (0 < size [:: V; E; T])%N).
  exists c; rewrite e_c e_S; split=> //.
  - by rewrite /no_duplicates /= sorted_vertices sorted_edges sorted_windows
               uniq_V uniq_E uniq_T.
  - by rewrite /vertices_in_range /= size_map size_iota in_V in_E in_T.
  apply/negbTE/negP => /closed_complex_at-/(_ 1%N isT) /allP /=.
  have in_T0 : [:: Posz 0; Posz 1; Posz 2] \in T.
    by apply/mapP; exists 0%N; rewrite // mem_iota /= subn_gt0.
  have [_ f1 _] := face_window 0.
  move=> /(_ _ in_T0) /andP[_ /and3P[_]].
  by rewrite (sorted_tuple_window 0) f1 sorted_edges mem_edges.
have [c [e_c [e_S _ _ _ _]]] :=
  init_ok eigsh eigh M (isT : (0 < size [:: V; E])%N).
exists c; rewrite e_c e_S; split=> //.
- by rewrite /no_duplicates /= sorted_vertices sorted_edges uniq_V uniq_E.
- by rewrite /vertices_in_range /= size_map size_iota in_V in_E.
by rewrite /closed_complex /= closed_over_path.
Qed.

(* The index table of the positions. *)
Lemma vertices_lookup (n a : nat) :
  dict_get (simplex_to_idx [seq [:: Posz i] | i <- iota 0 n]) [:: Posz a] =
  if (a < n)%N then Some a else None.
Proof.
set V := [seq _ | i <- iota 0 n]; rewrite -mem_vertices -/V.
case: ifP => [in_V|/negbT nin_V]; last first.
  by apply: simplex_to_idx_none; rewrite sorted_vertices.
have := @simplex_to_idx_complete V [:: Posz a].
rewrite sorted_vertices in_V => /(_ isT).
case D: (dict_get _ _) => [m|//] _.
have [lt_m] := simplex_to_idx_sound D; rewrite size_map size_iota in lt_m.
by rewrite /V (nth_map 0%N) ?size_iota // nth_iota // add0n => -[->].
Qed.

(* The column of the pair (e, e+1): -1 in row e, +1 in row e+1. *)
Lemma path_column (n r e : nat) :
  (e.+1 < n)%N ->
  column_sum (simplex_to_idx [seq [:: Posz i] | i <- iota 0 n])
             [:: Posz e; Posz e.+1] r =
  (r == e.+1)%:R - (r == e)%:R.
Proof.
move=> lt_e.
rewrite column_sumE /enumerate /= !big_cons big_nil /= /face /=.
rewrite !eqz_nat !eqxx succ_neq [(e == e.+1)]eq_sym succ_neq /=.
rewrite !vertices_lookup lt_e (ltnW lt_e).
rewrite -[Some e.+1 == Some r]/(e.+1 == r) -[Some e == Some r]/(e == r).
rewrite ![_ == r]eq_sym /sign /=.
by case: (r == e.+1); case: (r == e).
Qed.

Lemma sum_iota_pickl (F : nat -> int) (n m0 : nat) :
  \sum_(m <- iota 0 n) (m0 == m)%:R * F m = if (m0 < n)%N then F m0 else 0.
Proof.
rewrite -(sum_iota_pick F n m0); apply: eq_bigr => m _.
by rewrite mulrC.
Qed.

Lemma sum_iota_pickS (F : nat -> int) (n m0 : nat) :
  \sum_(m <- iota 0 n) (m0 == m.+1)%:R * F m =
  if (0 < m0 <= n)%N then F m0.-1 else 0.
Proof.
case: m0 => [|m0]; first by rewrite big1 // => m _; rewrite mul0r.
by rewrite /= -sum_iota_pickl; apply: eq_bigr => m _; rewrite eqSS.
Qed.

(* The Gram sum of the incidence columns of a path with n edges. *)
Lemma path_gram (n i j : nat) :
  (i <= n)%N -> (j <= n)%N ->
  \sum_(m <- iota 0 n)
     ((i == m.+1)%:R - (i == m)%:R) * ((j == m.+1)%:R - (j == m)%:R) =
  (if i == j then (0 < i)%:R + (i < n)%:R
   else if (i == j.+1) || (j == i.+1) then -1 else 0 : int).
Proof.
move=> le_i le_j.
under eq_bigr => m _ do rewrite mulrBl.
rewrite sumrB sum_iota_pickS sum_iota_pickl le_i andbT.
case: i le_i => [|i] lt_i /=.
  rewrite sub0r; case: j le_j => [|[|j]] le_j /=.
  - by rewrite sub0r; case: ifP => _; rewrite ?opprK ?oppr0.
  - by rewrite le_j subr0.
  - by rewrite subrr; case: ifP => _; rewrite ?oppr0.
rewrite eqSS [i.+1 == j]eq_sym [i == j]eq_sym.
case: (ltngtP j i.+1) => [le_ji|lt_ij|e_j].
- have -> : (j == i.+2) = false by apply: ltn_eqF; apply: ltnW.
  by case: ifP => _; case: (j == i); rewrite /= ?subr0 ?sub0r ?subrr ?oppr0.
- have -> : (j == i) = false by apply: gtn_eqF; apply: ltnW.
  case: (j =P i.+2) => [e_j|_] /=; last first.
    by case: ifP => _; rewrite /= ?subr0 ?sub0r ?subrr ?oppr0.
  by move: le_j; rewrite e_j => ->; rewrite !subr0 sub0r.
- rewrite e_j succ_neq eqSS [i == i.+1]eq_sym succ_neq /=.
  by case: ifP => _; rewrite /= ?subr0 ?sub0r ?opprK ?addr0.
Qed.

(** X8 (from_sequence with the boundary and Laplacian builders): for
    every length and window size, B_1 of from_sequence is the incidence
    matrix of the path 0 - 1 - ... - (L-1), with -1 in row e and +1 in
    row e+1 of column e, and L_0 is the Laplacian of that path: the
    degree on the diagonal, -1 between neighbours, 0 elsewhere.  The
    windows of level 2 do not change level 0. *)
Theorem from_sequence_path_laplacian
    (eigsh : dense int -> int -> option (seq rat * dense rat))
    (eigh : dense int -> seq rat * dense rat)
    (L w : nat) (M : int) :
  exists c,
    [/\ from_sequence eigsh eigh L w M = Ok c,
        forall r e, (e < L - 1)%N ->
          entry (boundary c 1) r e = (r == e.+1)%:R - (r == e)%:R &
        forall i j, (i < L)%N -> (j < L)%N ->
          entry (laplacian c 0) i j =
          if i == j then (0 < i)%:R + (i.+1 < L)%:R
          else if (i == j.+1) || (j == i.+1) then -1 else 0].
Proof.
rewrite /from_sequence.
set V : level := [seq _ | i <- iota 0 L].
set E : level := [seq _ | i <- iota 0 (L - 1)].
set levels := (if _ then _ else _).
have [e_0 e_1 gt1] :
    [/\ nth [::] levels 0 = V, nth [::] levels 1 = E & (1 < size levels)%N].
  by rewrite /levels; case: ifP.
have nonempty : (0 < size levels)%N by exact: ltnW.
have [c [e_c [_ e_d e_n e_bm e_L]]] := init_ok eigsh eigh M nonempty.
have in_1 : (0 < 1 <= (size levels).-1)%N.
  by case: (size levels) gt1 => [|[|n]].
have e_B : nth None (boundary_matrices c) 1 =
           Some (boundary_level levels [seq size s | s <- levels] 1).
  by apply: nth_boundaries in_1; rewrite -e_n.
have entry_B r e : (e < L - 1)%N ->
    entry (boundary_level levels [seq size s | s <- levels] 1) r e =
    (r == e.+1)%:R - (r == e)%:R.
  move=> lt_e; rewrite boundary_level_entry /= e_0 e_1 size_map size_iota lt_e.
  rewrite (nth_map 0%N) ?size_iota // nth_iota // add0n sorted_tuple_edge.
  by rewrite path_column // -[(_ < _)%N]/(1 + e < L)%N -ltn_subRL.
exists c; split=> // [r e lt_e|i j lt_i lt_j].
  by rewrite /boundary e_B /= entry_B.
rewrite /laplacian e_L /= /hodge_level e_n nth_n_simplices e_0 size_map size_iota.
rewrite e_B e_d -subn1 subn_gt0 gt1 (gtn_eqF (leq_ltn_trans (leq0n i) lt_i)) /=.
rewrite add0r sumzE big_map (boundary_level_shape levels 1).2 e_1 size_map size_iota.
have e_F : {in iota 0 (L - 1), forall m,
    entry (boundary_level levels [seq size s | s <- levels] 1) i m *
    entry (boundary_level levels [seq size s | s <- levels] 1) j m =
    ((i == m.+1)%:R - (i == m)%:R) * ((j == m.+1)%:R - (j == m)%:R)}.
  by move=> m; rewrite mem_iota add0n => /andP[_ lt_m]; rewrite !entry_B.
have le_L k : (k < L)%N -> (k <= L - 1)%N by rewrite subn1; case: (L).
rewrite (eq_big_seq _ e_F) (path_gram (le_L _ lt_i) (le_L _ lt_j)).
by rewrite ltn_subRL add1n.
Qed.

(* ===================================================================== *)
(* Further properties of the operators                                   *)
(* ===================================================================== *)

Lemma bdim_ok (a b : nat) :
  bdim a b = if [|| a == b, a == 1%N | b == 1%N]
             then Some (if a == 1%N then b else a) else None.
Proof.
rewrite /bdim; case: (a =P b) => [->|_] /=; first by case: ifP => // /eqP.
by case: ifP.
Qed.

Lemma bdim_same (a : nat) : bdim a a = Some a.
Proof. by rewrite /bdim eqxx. Qed.

(** X9 (SpectralConvolution.forward, mlp filter, lines 376-412): with
    the documented shapes (X is batch x n x C_in, U has n rows, the
    filter is M x C_in x C_out) forward returns exactly when the number
    q = min(M, columns of U) of modes used equals the number n of
    simplices, or q = 1, or n = 1, and raises otherwise; when it returns,
    the result has shape batch x n x C_out.  A spectrum truncated to
    1 < q < n modes always raises. *)
Theorem spectral_forward_returns_iff (self : SpectralConvolution.t)
    (F X : tensor3) (U : dense rat) (Lambda : seq rat) :
  SpectralConvolution.filter_type self = SpectralConvolution.Mlp F ->
  shape3 F = [:: SpectralConvolution.n_modes self;
                 SpectralConvolution.in_features self;
                 SpectralConvolution.out_features self] ->
  dim1 X = nrows U -> dim2 X = SpectralConvolution.in_features self ->
  let q := minn (SpectralConvolution.n_modes self) (ncols U) in
  is_ok (SpectralConvolution.forward self X U Lambda) =
    [|| q == nrows U, q == 1%N | nrows U == 1%N] /\
  forall Y, SpectralConvolution.forward self X U Lambda = Ok Y ->
    shape3 Y = [:: dim0 X; nrows U; SpectralConvolution.out_features self].
Proof.
move=> e_F [e_F0 e_F1 e_F2] e_n e_in q.
rewrite /SpectralConvolution.forward e_F -/q.
rewrite /einsum_nm_bni_bmi [nrows _]/= -minnA minnn -/q e_n bdim_ok.
case: ifP => [ok_q|_] /=; last by split.
rewrite /einsum_mio_bmi_bmo /= e_F0 e_F1 e_in bdim_same.
have -> : minn q (SpectralConvolution.n_modes self) = q.
  by rewrite /q minnAC minnn.
rewrite bdim_ok ok_q /= /einsum_nm_bmo_bno /= -minnA minnn -/q.
have -> : bdim q (if q == 1%N then nrows U else q) = 
          Some (if q == 1%N then nrows U else q).
  case: (q =P 1%N) => [->|_]; last exact: bdim_same.
  by rewrite /bdim; case: eqP => [<-|].
by split=> // Y [<-] /=; rewrite /shape3 /= e_F2.
Qed.

Lemma spectral_forward_returns_iff_witness :
  let q := minn (SpectralConvolution.n_modes conv2) (ncols U_rot) in
  is_ok (SpectralConvolution.forward conv2 X_1x2x1 U_rot [:: 0; 1]) =
    [|| q == nrows U_rot, q == 1%N | nrows U_rot == 1%N] /\
  forall Y, SpectralConvolution.forward conv2 X_1x2x1 U_rot [:: 0; 1] = Ok Y ->
    shape3 Y = [:: dim0 X_1x2x1; nrows U_rot;
                   SpectralConvolution.out_features conv2].
Proof.
by apply: (@spectral_forward_returns_iff conv2 (ones3 2 1 1)).
Defined.

(* --------------------------------------------------------------------- *)
(* BoundaryCoupling.forward                                              *)
(* --------------------------------------------------------------------- *)

(* One guarded block adds to output a tensor that does not depend on the
   channel. *)
Lemma contribution_constant (self : BoundaryCoupling.t)
    (gate : option (dense rat * rat)) (B : dense rat) (X_nb out Y : tensor3) :
  BoundaryCoupling.contribution self gate B X_nb out = Ok Y ->
  (forall b n c c', at3 out b n c = at3 out b n c') ->
  shape3 Y = shape3 out /\ forall b n c c', at3 Y b n c = at3 Y b n c'.
Proof.
rewrite /BoundaryCoupling.contribution; case: gate => [[W g]|] //.
case: (linear W X_nb) => [X_proj|] //=.
case: (einsum_ij_bji_bi _ _) => [coupled|] //=.
rewrite /iadd3; case: ifP => // _ [<-] const_out; split=> // b n c c' /=.
by rewrite (const_out b n c c').
Qed.

Lemma guarded_constant (self : BoundaryCoupling.t) (has : bool)
    (X_nb : option tensor3) (B_nb : option (dense rat))
    (gate : option (dense rat * rat)) (tr : dense rat -> dense rat)
    (out Y : tensor3) :
  match has, X_nb, B_nb with
  | true, Some X, Some B =>
      if (0 < dim1 X)%N
      then BoundaryCoupling.contribution self gate (tr B) X out
      else Ok out
  | _, _, _ => Ok out
  end = Ok Y ->
  (forall b n c c', at3 out b n c = at3 out b n c') ->
  shape3 Y = shape3 out /\ forall b n c c', at3 Y b n c = at3 Y b n c'.
Proof.
case: has; last by case=> <-.
case: X_nb => [X|]; last by case=> <-.
case: B_nb => [B|]; last by case=> <-.
case: ifP => _; last by case=> <-.
exact: contribution_constant.
Qed.

Lemma coupling_constant (self : BoundaryCoupling.t) (X_k : tensor3)
    (X_below X_above : option tensor3) (B_k B_kp1 : option (dense rat))
    (Y : tensor3) :
  BoundaryCoupling.forward self X_k X_below X_above B_k B_kp1 = Ok Y ->
  shape3 Y = shape3 X_k /\ forall b n c c', at3 Y b n c = at3 Y b n c'.
Proof.
rewrite /BoundaryCoupling.forward.
have const_0 b n c c' : at3 (zeros_like X_k) b n c = at3 (zeros_like X_k) b n c'.
  by [].
case e_above: (X in bind X _) => [Y1|] //=.
have [sh_1 const_1] := guarded_constant (tr := id) e_above const_0.
move/(@guarded_constant _ _ _ _ _ (@transpose rat)) => /(_ const_1) [-> const_Y].
by rewrite sh_1.
Qed.

(** X10 (BoundaryCoupling.forward, lines 472-495): whenever forward
    returns, the result has the shape of X_k and holds, for every batch
    entry and simplex, one value repeated in all channels: each
    contribution is einsum('ij,bji->bi', ...) expanded along the channel
    dimension, so nothing of the projection is kept per channel. *)
Theorem boundary_coupling_channel_constant (self : BoundaryCoupling.t)
    (X_k : tensor3) (X_below X_above : option tensor3)
    (B_k B_kp1 : option (dense rat)) (Y : tensor3) :
  BoundaryCoupling.forward self X_k X_below X_above B_k B_kp1 = Ok Y ->
  shape3 Y = shape3 X_k /\ forall b n c c', at3 Y b n c = at3 Y b n c'.
Proof. exact: coupling_constant. Qed.

Lemma is_ok_value (r : result tensor3) : is_ok r -> r = Ok (value_of r).
Proof. by case: r. Qed.

Lemma boundary_coupling_channel_constant_witness :
  let Y := value_of (BoundaryCoupling.forward (coupling_up_only 3) X_1x3x3 None
                       (Some X_1x3x3) None (Some B1_triangle)) in
  shape3 Y = shape3 X_1x3x3 /\ forall b n c c', at3 Y b n c = at3 Y b n c'.
Proof.
apply: (@boundary_coupling_channel_constant (coupling_up_only 3) X_1x3x3 None
          (Some X_1x3x3) None (Some B1_triangle)).
by apply: is_ok_value; vm_compute.
Defined.

(* The from-above block of forward on a coupling built by __init__. *)
Lemma coupling_above_outcome
    (dim_k dim_below dim_above : nat) (has_below : bool)
    (W_down : nat -> nat -> rat) (beta : rat)
    (W_up : nat -> nat -> rat) (gamma : rat)
    (X_k X_above : tensor3) (B : dense rat) :
  let self := BoundaryCoupling__init__ dim_k dim_below dim_above has_below true
                W_down beta W_up gamma in
  let r := BoundaryCoupling.forward self X_k None (Some X_above) None (Some B) in
  let n_k := dim1 X_k in
  let n_above := dim1 X_above in
  dim2 X_k = dim_k -> dim0 X_above = dim0 X_k -> dim2 X_above = dim_above ->
  (0 < n_above)%N -> nrows B = n_k -> ncols B = n_above ->
  if dim_above == 0%N then r = Raise AttributeError
  else if (n_above == 1%N) ||
          (n_k == n_above) && ((dim_k == n_above) || (dim_k == 1%N))
       then exists Y, r = Ok Y else r = Raise RuntimeError.
Proof.
case: has_below => self r n_k n_above e_dk e_b e_da gt0 e_r e_c;
rewrite /r /BoundaryCoupling.forward /= gt0 /BoundaryCoupling.contribution /=;
rewrite lt0n; (case: eqP => [//|_] /=);
rewrite /linear /= e_da eqxx /= /einsum_ij_bji_bi /= e_r e_c -/n_k -/n_above;
rewrite !bdim_ok [dim_k == n_above]eq_sym;
case a1: (n_above == 1%N); case a2: (n_k == n_above); case a3: (n_k == 1%N);
  case a4: (n_above == dim_k); case a5: (dim_k == 1%N);
  rewrite /= /iadd3 /fits /= ?e_b ?e_dk ?eqxx ?a1 ?a3 ?[n_above == n_k]eq_sym ?a2 /=;
  by [eexists|].
Qed.

(** X11 (BoundaryCoupling.__init__ and the from-above block of forward,
    lines 442-444 and 476-483): for a coupling built with
    has_level_above=True, on inputs of the documented shapes (X_k is
    batch x n_k x dim_k, X_{k+1} is batch x n_{k+1} x dim_{k+1} with
    n_{k+1} > 0, B_{k+1} is n_k x n_{k+1}) and no level below: if
    dim_{k+1} = 0 the attribute W_down was never created and forward
    raises AttributeError; otherwise forward returns exactly when
    n_{k+1} = 1, or n_k = n_{k+1} and dim_k is n_{k+1} or 1, and raises
    RuntimeError in every other case, whatever the weights are. *)
Theorem boundary_coupling_above_outcome
    (dim_k dim_below dim_above : nat) (has_below : bool)
    (W_down : nat -> nat -> rat) (beta : rat)
    (W_up : nat -> nat -> rat) (gamma : rat)
    (X_k X_above : tensor3) (B : dense rat) :
  let self := BoundaryCoupling__init__ dim_k dim_below dim_above has_below true
                W_down beta W_up gamma in
  let r := BoundaryCoupling.forward self X_k None (Some X_above) None (Some B) in
  let n_k := dim1 X_k in
  let n_above := dim1 X_above in
  dim2 X_k = dim_k -> dim0 X_above = dim0 X_k -> dim2 X_above = dim_above ->
  (0 < n_above)%N -> nrows B = n_k -> ncols B = n_above ->
  if dim_above == 0%N then r = Raise AttributeError
  else if (n_above == 1%N) ||
          (n_k == n_above) && ((dim_k == n_above) || (dim_k == 1%N))
       then exists Y, r = Ok Y else r = Raise RuntimeError.
Proof. exact: coupling_above_outcome. Qed.

Lemma boundary_coupling_above_outcome_witness :
  let self := BoundaryCoupling__init__ 2 0 2 false true
                (fun i j => (i == j)%:R) (1 / 10%:R)
                (fun i j => (i == j)%:R) (1 / 10%:R) in
  let r := BoundaryCoupling.forward self X_1x3x2 None (Some X_1x3x2) None
             (Some B1_triangle) in
  let n_k := dim1 X_1x3x2 in
  let n_above := dim1 X_1x3x2 in
  if 2%N == 0%N then r = Raise AttributeError
  else if (n_above == 1%N) ||
          (n_k == n_above) && ((2%N == n_above) || (2%N == 1%N))
       then exists Y, r = Ok Y else r = Raise RuntimeError.
Proof.
by apply: (@boundary_coupling_above_outcome 2 0 2 false
             (fun i j => (i == j)%:R) (1 / 10%:R)
             (fun i j => (i == j)%:R) (1 / 10%:R) X_1x3x2 X_1x3x2 B1_triangle).
Defined.

(* --------------------------------------------------------------------- *)
(* SFNOLayer.forward                                                     *)
(* --------------------------------------------------------------------- *)







(** X13 (SFNOLayer.forward, lines 581-582 and 598-599): given fewer
    tensors than the layer has levels, forward never returns a list: the
    loop reaches X[k] (or X[k+1]) out of range, unless an earlier level
    has already raised. *)
Theorem layer_forward_short_input
    (rsqrt gelu : rat -> rat) (dropout : tensor3 -> tensor3)
    (self : SFNOLayer.t) (X : seq tensor3) (c : SimplicialComplex) :
  (size X < size (SFNOLayer.dims self))%N ->
  exists e, SFNOLayer.forward rsqrt gelu dropout self X c = Raise e.
Proof.
move=> short.
case e_Y: (SFNOLayer.forward _ _ _ _ _ _) => [Y|e]; last by exists e.
have [_ /(_ _ short)] := forward_levels e_Y.
rewrite /SFNOLayer.level_output /getitem nth_default ?size_map //.
Qed.

Lemma layer_forward_short_input_witness :
  exists e, SFNOLayer.forward rsqrt_sample id id layer1 [::] cycle3_complex
            = Raise e.
Proof.
by apply: (@layer_forward_short_input rsqrt_sample id id layer1 [::]
             cycle3_complex).
Defined.

(* ===================================================================== *)
(* from_graph                                                            *)
(* ===================================================================== *)

Lemma mem_set_add (T : eqType) (s : seq T) (y x : T) :
  (x \in set_add s y) = (x == y) || (x \in s).
Proof.
rewrite /set_add; case: ifP => [y_in|_]; last by rewrite mem_rcons in_cons.
by case: eqP => [->|].
Qed.

Lemma uniq_set_add (T : eqType) (s : seq T) (y : T) :
  uniq s -> uniq (set_add s y).
Proof. by rewrite /set_add; case: ifP => // nin_y; rewrite rcons_uniq nin_y. Qed.

Lemma mem_foldl_add (T : eqType) (I : Type) (P : I -> bool) (f : I -> T)
    (s0 : seq T) (l : seq I) (x : T) :
  (x \in foldl (fun s i => if P i then set_add s (f i) else s) s0 l) =
  (x \in s0) || has (fun i => P i && (x == f i)) l.
Proof.
elim: l s0 => [|i l IH] s0 /=; first by rewrite orbF.
rewrite IH; case: (P i) => //=.
by rewrite mem_set_add orbA [(x == _) || _]orbC.
Qed.

Lemma uniq_foldl_add (T : eqType) (I : Type) (P : I -> bool) (f : I -> T)
    (s0 : seq T) (l : seq I) :
  uniq s0 -> uniq (foldl (fun s i => if P i then set_add s (f i) else s) s0 l).
Proof.
elim: l s0 => [|i l IH] s0 //= uniq_s0; apply: IH.
by case: (P i) => //; apply: uniq_set_add.
Qed.

Lemma sorted_pair (u v : int) :
  sorted_tuple [:: u; v] = if u <= v then [:: u; v] else [:: v; u].
Proof. by rewrite /sorted_tuple /sort /=; case: (u <= v). Qed.

(* The set of edges: the sorted pairs of the columns that are no loop. *)
Lemma mem_edges_set (edge_index : dense int) (e : simplex) :
  (e \in edges_set_of edge_index) =
  has (fun uv : int * int => (uv.1 != uv.2) && (e == sorted_tuple [:: uv.1; uv.2]))
      (columns edge_index).
Proof. by rewrite /edges_set_of mem_foldl_add /= /columns has_map. Qed.

Lemma uniq_edges_set (edge_index : dense int) : uniq (edges_set_of edge_index).
Proof. exact: uniq_foldl_add. Qed.

Lemma mem_edge_pair (edge_index : dense int) (a b : int) :
  ([:: a; b] \in edges_set_of edge_index) = (a < b) && has_edge edge_index a b.
Proof.
rewrite mem_edges_set /has_edge; apply/hasP/idP => [[[u v] in_uv /=]|].
  rewrite sorted_pair; case: (leP u v) => [le_uv|lt_vu] /andP[ne_uv /eqP[-> ->]].
    by rewrite lt_neqAle ne_uv le_uv /= in_uv.
  by rewrite lt_vu eq_sym ne_uv in_uv orbT.
case/and3P=> lt_ab ne_ab /orP[in_ab|in_ba].
  by exists (a, b); rewrite //= ne_ab sorted_pair (ltW lt_ab) eqxx.
by exists (b, a); rewrite //= eq_sym ne_ab sorted_pair leNgt lt_ab /= eqxx.
Qed.

Lemma edge_is_pair (edge_index : dense int) (e : simplex) :
  e \in edges_set_of edge_index ->
  exists a b, [/\ e = [:: a; b], a < b & has_edge edge_index a b].
Proof.
move=> in_e; move: (in_e); rewrite mem_edges_set => /hasP[[u v] _ /=].
rewrite sorted_pair => /andP[_ /eqP e_e].
have [a [b e_ab]] : exists a b, e = [:: a; b].
  by move: e_e; case: ifP => _ ->; [exists u, v|exists v, u].
by exists a, b; move: in_e; rewrite e_ab mem_edge_pair => /andP[].
Qed.

(* --------------------------------------------------------------------- *)
(* The adjacency sets                                                    *)
(* --------------------------------------------------------------------- *)

Lemma dict_get_const (keys : seq int) (v : seq int) (a : int) :
  dict_get [seq (k, v) | k <- keys] a = if a \in keys then Some v else None.
Proof.
elim: keys => [|k keys IH] //=; rewrite in_cons eq_sym.
by case: (a == k).
Qed.

Lemma mem_range (n : nat) (a : int) :
  (a \in [seq Posz i | i <- iota 0 n]) = in_range n a.
Proof.
case: a => k; rewrite /in_range /=.
  by rewrite mem_map ?mem_iota // => i j [].
by apply/negbTE/mapP => -[i _].
Qed.

Lemma adj_spec_init (n : nat) :
  adj_spec n [::] [seq (Posz i, [::]) | i <- iota 0 n].
Proof.
move=> a.
have -> : [seq (Posz i, [::]) | i <- iota 0 n] =
          [seq (k, [::]) | k <- [seq Posz i | i <- iota 0 n]] :> dict int (seq int).
  by rewrite -map_comp.
rewrite dict_get_const mem_range; case: (in_range n a) => //.
by exists [::].
Qed.

Lemma neighbours_rcons (es : seq simplex) (e : simplex) (a b : int) :
  neighbours (rcons es e) a b =
  neighbours es a b ||
  ((nth 0 e 0 == a) && (nth 0 e 1 == b)) || ((nth 0 e 0 == b) && (nth 0 e 1 == a)).
Proof. by rewrite /neighbours has_rcons orbC orbA. Qed.

(* adj[e[0]].add(e[1]); adj[e[1]].add(e[0]) with both ends keys of adj *)
Lemma adj_step_ok (n : nat) (es : seq simplex) (adj : dict int (seq int))
    (e : simplex) :
  adj_spec n es adj -> in_range n (nth 0 e 0) -> in_range n (nth 0 e 1) ->
  exists2 adj',
    (if adj_add adj (nth 0 e 0) (nth 0 e 1) is Some adj1
     then adj_add adj1 (nth 0 e 1) (nth 0 e 0) else None) = Some adj' &
    adj_spec n (rcons es e) adj'.
Proof.
set x := nth 0 e 0; set y := nth 0 e 1 => spec in_x in_y.
have := spec x; rewrite in_x => -[s_x e_x [uniq_x mem_x]].
have := spec y; rewrite in_y => -[s_y e_y [uniq_y mem_y]].
rewrite /adj_add e_x dict_get_set.
set s_y' := if x == y then set_add s_x y else s_y.
have -> : (if x == y then Some (set_add s_x y) else dict_get adj y) = Some s_y'.
  by rewrite /s_y' e_y; case: ifP.
eexists; first by reflexivity.
move=> a; rewrite !dict_get_set.
have := spec a; case: ifP => [in_a [s_a e_a [uniq_a mem_a]]|out_a e_a].
  case: (y =P a) => [e_ya|/eqP ne_ya].
    exists (set_add s_y' x) => //; split=> [|b].
      by apply: uniq_set_add; rewrite /s_y'; case: ifP => // _; apply: uniq_set_add.
    rewrite neighbours_rcons -/x -/y mem_set_add /s_y' -e_ya.
    case: (x =P y) => [e_xy|/eqP ne_xy].
      rewrite mem_set_add mem_x e_xy eqxx /= andbT [y == b]eq_sym.
      by case: (b == y); rewrite ?orbT ?orbF.
    by rewrite mem_y eqxx /= orbF andbT [x == b]eq_sym orbC.
  case: (x =P a) => [e_xa|/eqP ne_xa].
    exists (set_add s_x y); first by [].
    split=> [|b]; first exact: uniq_set_add.
    rewrite neighbours_rcons -/x -/y mem_set_add mem_x -e_xa eqxx /=.
    by rewrite e_xa (negbTE ne_ya) andbF orbF [y == b]eq_sym orbC.
  exists s_a; rewrite // ; split=> // b.
  by rewrite neighbours_rcons -/x -/y (negbTE ne_ya) (negbTE ne_xa) andbF !orbF.
have ne_y : (y == a) = false.
  by apply/negP => /eqP e_ya; rewrite -e_ya in_y in out_a.
have ne_x : (x == a) = false.
  by apply/negP => /eqP e_xa; rewrite -e_xa in_x in out_a.
by rewrite ne_y ne_x.
Qed.

Lemma adjacency_from (n : nat) (es0 es : seq simplex) (adj : dict int (seq int)) :
  adj_spec n es0 adj ->
  all (fun e : simplex => in_range n (nth 0 e 0) && in_range n (nth 0 e 1)) es ->
  exists2 adj',
    foldl_opt (fun adj e =>
                 if adj_add adj (nth 0 e 0) (nth 0 e 1) is Some adj1
                 then adj_add adj1 (nth 0 e 1) (nth 0 e 0) else None)
              adj es = Some adj' &
    adj_spec n (es0 ++ es) adj'.
Proof.
elim: es es0 adj => [|e es IH] es0 adj spec /=; first by exists adj; rewrite ?cats0.
case/andP=> /andP[in_0 in_1] in_es.
have [adj1 -> spec1] := adj_step_ok spec in_0 in_1.
by rewrite -cat_rcons; apply: IH.
Qed.

Lemma adjacency_fails (n : nat) (es0 es : seq simplex)
    (adj : dict int (seq int)) :
  adj_spec n es0 adj ->
  ~~ all (fun e : simplex => in_range n (nth 0 e 0) && in_range n (nth 0 e 1)) es ->
  foldl_opt (fun adj e =>
               if adj_add adj (nth 0 e 0) (nth 0 e 1) is Some adj1
               then adj_add adj1 (nth 0 e 1) (nth 0 e 0) else None)
            adj es = None.
Proof.
elim: es es0 adj => [|e es IH] es0 adj spec //=.
case in_0: (in_range n (nth 0 e 0)); last first.
  by move=> _; have := spec (nth 0 e 0); rewrite in_0 /adj_add => ->.
case in_1: (in_range n (nth 0 e 1)) => /=.
  have [adj1 -> spec1] := adj_step_ok spec in_0 in_1.
  exact: IH spec1.
move=> _; have := spec (nth 0 e 0); rewrite in_0 => -[s_0 e_0 _].
rewrite {1}/adj_add e_0 /adj_add dict_get_set.
have -> : (nth 0 e 0 == nth 0 e 1) = false.
  by apply/negP => /eqP e_01; rewrite -e_01 in_0 in in_1.
by have := spec (nth 0 e 1); rewrite in_1 => ->.
Qed.

(* Python yields every element of a set once. *)
Lemma neighbours_perm (es es' : seq simplex) (a b : int) :
  perm_eq es' es -> neighbours es' a b = neighbours es a b.
Proof. by move=> perm; apply: eq_has_r; apply: perm_mem. Qed.

(* The neighbours in the list of edges are the edges of the graph. *)
Lemma neighbours_edges (edge_index : dense int) (es : seq simplex) (a b : int) :
  perm_eq es (edges_set_of edge_index) ->
  neighbours es a b = has_edge edge_index a b.
Proof.
move=> perm; rewrite (neighbours_perm _ _ perm).
have sym u v : has_edge edge_index u v = has_edge edge_index v u.
  by rewrite /has_edge eq_sym orbC.
apply/hasP/idP => [[e in_e]|edge_ab].
  have [x [y [-> lt_xy edge_xy]]] := edge_is_pair in_e.
  by case/orP=> /andP[/= /eqP <- /eqP <-]; rewrite // sym.
have ne_ab : a != b by case/andP: edge_ab.
case: (ltgtP a b) ne_ab => [lt_ab|lt_ba|->] // _.
  by exists [:: a; b]; rewrite ?mem_edge_pair ?lt_ab //= !eqxx.
by exists [:: b; a]; rewrite ?mem_edge_pair ?lt_ba 1?sym //= !eqxx orbT.
Qed.

(* --------------------------------------------------------------------- *)
(* The triangles                                                         *)
(* --------------------------------------------------------------------- *)

Section Triangles.

Variable iter_ints : seq int -> seq int.
Hypothesis iter_perm : forall s, perm_eq (iter_ints s) s.

Variables (n : nat) (es : seq simplex) (adj : dict int (seq int)).
Hypothesis spec : adj_spec n es adj.
Hypothesis es_in_range :
  all (fun e : simplex => in_range n (nth 0 e 0) && in_range n (nth 0 e 1)) es.

Lemma neighbours_in_range (a b : int) :
  neighbours es a b -> in_range n a /\ in_range n b.
Proof.
case/hasP=> e in_e; have /allP/(_ e in_e)/andP[in_0 in_1] := es_in_range.
by case/orP=> /andP[/eqP <- /eqP <-].
Qed.

Lemma adj_lookup (a : int) :
  in_range n a ->
  exists2 s, dict_get adj a = Some s & forall b, (b \in s) = neighbours es a b.
Proof. by move=> in_a; have := spec a; rewrite in_a => -[s e_s [_ mem_s]]; exists s. Qed.

Lemma mem_triangles_of_pair (u v : int) (adj_u adj_v : seq int)
    (T : seq simplex) (t : simplex) :
  (forall b, (b \in adj_u) = neighbours es u b) ->
  (forall b, (b \in adj_v) = neighbours es v b) ->
  neighbours es u v ->
  t \in triangles_of_pair iter_ints u v adj_u adj_v T <->
  t \in T \/ exists2 w, t = [:: u; v; w] & clique es u v w.
Proof.
move=> mem_u mem_v nb_uv; rewrite /triangles_of_pair mem_foldl_add.
rewrite (eq_has_r (perm_mem (iter_perm _))) /set_and.
split=> [/orP[in_T|/hasP[w in_w]]|[in_T|[w e_t /and5P[lt_uv lt_vw _ nb_uw nb_vw]]]].
- by left.
- move: in_w; rewrite mem_filter mem_u mem_v => /andP[nb_vw nb_uw].
  case/andP=> /andP[lt_uv lt_vw] /eqP ->.
  by right; exists w; rewrite // /clique lt_uv lt_vw nb_uv nb_uw nb_vw.
- by rewrite in_T.
apply/orP; right; apply/hasP; exists w; first by rewrite mem_filter mem_u mem_v nb_vw.
by rewrite /= lt_uv lt_vw e_t eqxx.
Qed.

Lemma uniq_triangles_of_pair (u v : int) (adj_u adj_v : seq int)
    (T : seq simplex) :
  uniq T -> uniq (triangles_of_pair iter_ints u v adj_u adj_v T).
Proof. exact: uniq_foldl_add. Qed.

(* The loop over v for one u. *)
Lemma triangles_over (u : int) (adj_u : seq int) (vs : seq int)
    (T : seq simplex) :
  (forall b, (b \in adj_u) = neighbours es u b) ->
  (forall v, v \in vs -> neighbours es u v) ->
  exists T',
    [/\ foldl_opt (fun triangles v =>
                     if dict_get adj v is Some adj_v
                     then Some (triangles_of_pair iter_ints u v adj_u adj_v triangles)
                     else None)
                  T vs = Some T',
        uniq T -> uniq T' &
        forall t, t \in T' <->
          t \in T \/ exists v w, [/\ v \in vs, t = [:: u; v; w] & clique es u v w]].
Proof.
move=> mem_u; elim: vs T => [|v vs IH] T nb_vs /=.
  by exists T; split=> // t; split=> [|[//|[v [w []]]]]; first by left.
have nb_uv : neighbours es u v by apply: nb_vs; rewrite mem_head.
have [_ in_v] := neighbours_in_range nb_uv.
have [adj_v -> mem_v] := adj_lookup in_v.
have [|T' [-> uniq_T' mem_T']] := IH (triangles_of_pair iter_ints u v adj_u adj_v T).
  by move=> v' in_v'; apply: nb_vs; rewrite in_cons in_v' orbT.
exists T'; split=> // [uniq_T|t].
  by apply: uniq_T'; apply: uniq_triangles_of_pair.
rewrite mem_T' (mem_triangles_of_pair _ _ mem_u mem_v nb_uv).
split=> [[[in_T|[w e_t cl]]|[v' [w [in_v' e_t cl]]]]|[in_T|[v' [w []]]]].
- by left.
- by right; exists v, w; rewrite mem_head.
- by right; exists v', w; rewrite in_cons in_v' orbT.
- by left; left.
rewrite in_cons => /orP[/eqP ->|in_v'] e_t cl.
  by left; right; exists w.
by right; exists v', w.
Qed.

Lemma triangles_of_vertex_spec (u : int) (T : seq simplex) :
  in_range n u ->
  exists T',
    [/\ triangles_of_vertex iter_ints adj u T = Some T',
        uniq T -> uniq T' &
        forall t, t \in T' <->
          t \in T \/ exists v w, t = [:: u; v; w] /\ clique es u v w].
Proof.
move=> in_u; rewrite /triangles_of_vertex.
have [adj_u -> mem_u] := adj_lookup in_u.
have [|T' [-> uniq_T' mem_T']] := @triangles_over u adj_u (iter_ints adj_u) T mem_u.
  by move=> v; rewrite (perm_mem (iter_perm _)) mem_u.
exists T'; split=> // t; rewrite mem_T'.
split=> [[in_T|[v [w [_ e_t cl]]]]|[in_T|[v [w [e_t cl]]]]].
- by left.
- by right; exists v, w.
- by left.
right; exists v, w; split=> //.
by rewrite (perm_mem (iter_perm _)) mem_u; case/and5P: cl.
Qed.

Lemma triangles_from (us : seq nat) (T : seq simplex) :
  all (fun u : nat => in_range n (Posz u)) us ->
  exists T',
    [/\ foldl_opt (fun triangles (u : nat) =>
                     triangles_of_vertex iter_ints adj (Posz u) triangles)
                  T us = Some T',
        uniq T -> uniq T' &
        forall t, t \in T' <->
          t \in T \/
          exists u v w, [/\ u \in us, t = [:: Posz u; v; w] & clique es (Posz u) v w]].
Proof.
elim: us T => [|u us IH] T /=.
  by exists T; split=> // t; split=> [|[//|[u [v [w []]]]]]; first by left.
case/andP=> in_u in_us.
have [T1 [-> uniq_1 mem_1]] := triangles_of_vertex_spec T in_u.
have [T' [-> uniq_T' mem_T']] := IH T1 in_us.
exists T'; split=> // [uniq_T|t]; first by apply: uniq_T'; apply: uniq_1.
rewrite mem_T' mem_1.
split=> [[[in_T|[v [w [e_t cl]]]]|[u' [v [w [in_u' e_t cl]]]]]|[in_T|[u' [v [w []]]]]].
- by left.
- by right; exists u, v, w; rewrite mem_head.
- by right; exists u', v, w; rewrite in_cons in_u' orbT.
- by left; left.
rewrite in_cons => /orP[/eqP ->|in_u'] e_t cl.
  by left; right; exists v, w.
by right; exists u', v, w.
Qed.

(* The set of triangles: the cliques u < v < w of the list of edges. *)
Lemma triangles_set_spec :
  exists T,
    [/\ triangles_set_of iter_ints n adj = Some T, uniq T &
        forall t, t \in T <->
          exists u v w, t = [:: u; v; w] /\ clique es u v w].
Proof.
have [|T [e_T uniq_T mem_T]] := @triangles_from (iota 0 n) [::].
  by apply/allP => u; rewrite mem_iota add0n /in_range /= ltz_nat.
exists T; split=> //; first exact: uniq_T.
move=> t; rewrite mem_T; split=> [[//|[u [v [w [_ e_t cl]]]]]|[u [v [w [e_t cl]]]]].
  by exists (Posz u), v, w.
right; have /and5P[_ _ nb_uv _ _] := cl.
have [] := neighbours_in_range nb_uv.
case: u e_t cl {nb_uv} => // u e_t cl; rewrite /in_range /= ltz_nat => in_u _.
by exists u, v, w; rewrite mem_iota.
Qed.

End Triangles.

(* --------------------------------------------------------------------- *)
(* The levels that from_graph builds                                     *)
(* --------------------------------------------------------------------- *)

Lemma mem_vertex (n : nat) (a : int) :
  ([:: a] \in [seq [:: Posz i] | i <- iota 0 n]) = in_range n a.
Proof.
rewrite -mem_range (map_comp (fun k : int => [:: k]) Posz) mem_map //.
by move=> x y [].
Qed.

Lemma map_id_in (T : eqType) (f : T -> T) (s : seq T) :
  {in s, forall x, f x = x} -> [seq f x | x <- s] = s.
Proof. by move=> f_id; rewrite -{2}(map_id s); apply/eq_in_map. Qed.

Section GraphLevels.

Variable list_of_tuples : seq simplex -> seq simplex.
Variable iter_ints : seq int -> seq int.
Hypothesis tuples_perm : forall s, perm_eq (list_of_tuples s) s.
Hypothesis ints_perm : forall s, perm_eq (iter_ints s) s.

Variables (edge_index : dense int) (n : nat).

Let edges := list_of_tuples (edges_set_of edge_index).

Lemma mem_graph_edges (a b : int) :
  ([:: a; b] \in edges) = (a < b) && has_edge edge_index a b.
Proof. by rewrite (perm_mem (tuples_perm _)) mem_edge_pair. Qed.

Lemma graph_edge_is_pair (e : simplex) :
  e \in edges -> exists a b, [/\ e = [:: a; b], a < b & has_edge edge_index a b].
Proof. by rewrite (perm_mem (tuples_perm _)); apply: edge_is_pair. Qed.

Lemma uniq_graph_edges : uniq edges.
Proof. by rewrite (perm_uniq (tuples_perm _)) uniq_edges_set. Qed.

Lemma graph_neighbours (a b : int) :
  neighbours edges a b = has_edge edge_index a b.
Proof. by apply: neighbours_edges; apply: tuples_perm. Qed.

Lemma has_edge_columns (a b : int) :
  has_edge edge_index a b -> edges_in_range edge_index n ->
  in_range n a /\ in_range n b.
Proof.
case/andP=> ne_ab in_cols /allP in_range_cols.
case/orP: in_cols => /in_range_cols /=; rewrite ?(negbTE ne_ab) /=.
  by case/andP.
by rewrite eq_sym (negbTE ne_ab) /= => /andP[].
Qed.

Lemma edges_all_in_range :
  all (fun e : simplex => in_range n (nth 0 e 0) && in_range n (nth 0 e 1)) edges
  = edges_in_range edge_index n.
Proof.
apply/allP/idP => [in_edges|in_cols e in_e].
  apply/allP => -[u v] in_uv /=; case: (u =P v) => //= /eqP ne_uv.
  have edge_uv : has_edge edge_index u v by rewrite /has_edge ne_uv in_uv.
  case: (ltgtP u v) ne_uv => [lt_uv|lt_vu|//] _.
    have := in_edges [:: u; v]; rewrite mem_graph_edges lt_uv edge_uv /=.
    by apply.
  have := in_edges [:: v; u]; rewrite mem_graph_edges lt_vu /=.
  by rewrite /has_edge eq_sym orbC -/(has_edge edge_index u v) edge_uv andbC; apply.
have [a [b [-> _ edge_ab]]] := graph_edge_is_pair in_e.
by have [-> ->] := has_edge_columns edge_ab in_cols.
Qed.

(* adj and the triangles, as from_graph computes them. *)
Lemma graph_triangles :
  if edges_in_range edge_index n then
    exists T,
      [/\ (if adjacency n edges is Some adj
           then triangles_set_of iter_ints n adj else None) = Some T,
          uniq T &
          forall t, t \in T <-> exists u v w, t = [:: u; v; w] /\ clique edges u v w]
  else adjacency n edges = None.
Proof.
rewrite -edges_all_in_range; case: ifP => [in_es|/negbT out_es]; last first.
  exact: adjacency_fails (adj_spec_init n) out_es.
have [adj e_adj spec] := adjacency_from (adj_spec_init n) in_es.
rewrite /adjacency e_adj.
exact: (triangles_set_spec ints_perm spec in_es).
Qed.

Let V : level := [seq [:: Posz i] | i <- iota 0 n].

Lemma sorted_graph_edges : [seq sorted_tuple e | e <- edges] = edges.
Proof.
apply: map_id_in => e /graph_edge_is_pair[a [b [-> lt_ab _]]].
by apply: sorted_tuple_id; rewrite /= (ltW lt_ab).
Qed.

Lemma closed_over_graph_edges :
  edges_in_range edge_index n -> closed_over V edges.
Proof.
move=> in_cols; apply/allP => e in_e.
have [a [b [e_e lt_ab edge_ab]]] := graph_edge_is_pair in_e.
have [in_a in_b] := has_edge_columns edge_ab in_cols.
have e_s : sorted_tuple e = e.
  by rewrite e_e; apply: sorted_tuple_id; rewrite /= (ltW lt_ab).
rewrite e_s e_e sorted_vertices /face /= !inE !eqxx (lt_eqF lt_ab) (gt_eqF lt_ab) /=.
by rewrite !mem_vertex in_a in_b.
Qed.

Lemma closed_over_graph_edgesE :
  closed_over V edges = edges_in_range edge_index n.
Proof.
apply/idP/idP; last exact: closed_over_graph_edges.
move=> closed; rewrite -edges_all_in_range; apply/allP => e in_e.
have [a [b [e_e lt_ab _]]] := graph_edge_is_pair in_e.
have e_s : sorted_tuple e = e.
  by rewrite e_e; apply: sorted_tuple_id; rewrite /= (ltW lt_ab).
have /allP/(_ e in_e) := closed.
rewrite e_s e_e sorted_vertices /face /= !eqxx (lt_eqF lt_ab) (gt_eqF lt_ab) /=.
by rewrite !mem_vertex andbT => /and3P[_ -> ->].
Qed.

Section WithTriangles.

Variable T : seq simplex.
Hypothesis uniq_T : uniq T.
Hypothesis mem_T :
  forall t, t \in T <-> exists u v w, t = [:: u; v; w] /\ clique edges u v w.

Let triangles := list_of_tuples T.

Lemma graph_triangle_is_clique (t : simplex) :
  t \in triangles ->
  exists u v w,
    [/\ t = [:: u; v; w], u < v, v < w &
        [/\ has_edge edge_index u v, has_edge edge_index u w &
            has_edge edge_index v w]].
Proof.
rewrite (perm_mem (tuples_perm _)) => /mem_T[u [v [w [-> /and5P[lt_uv lt_vw]]]]].
by rewrite !graph_neighbours => e_uv e_uw e_vw; exists u, v, w.
Qed.

Lemma mem_graph_triangles (u v w : int) :
  ([:: u; v; w] \in triangles) =
  [&& u < v, v < w, has_edge edge_index u v, has_edge edge_index u w &
      has_edge edge_index v w].
Proof.
rewrite (perm_mem (tuples_perm _)) -!graph_neighbours -/(clique edges u v w).
apply/idP/idP => [/mem_T[u' [v' [w' [[-> -> ->]]]]] //|cl].
by apply/mem_T; exists u, v, w.
Qed.

Lemma sorted_graph_triangles : [seq sorted_tuple t | t <- triangles] = triangles.
Proof.
apply: map_id_in => t /graph_triangle_is_clique[u [v [w [-> lt_uv lt_vw _]]]].
by apply: sorted_tuple_id; rewrite /= (ltW lt_uv) (ltW lt_vw).
Qed.

Lemma closed_over_graph_triangles : closed_over edges triangles.
Proof.
apply/allP => t in_t.
have [u [v [w [e_t lt_uv lt_vw [e_uv e_uw e_vw]]]]] := graph_triangle_is_clique in_t.
have lt_uw : u < w by exact: lt_trans lt_vw.
have e_s : sorted_tuple t = t.
  by rewrite e_t; apply: sorted_tuple_id; rewrite /= (ltW lt_uv) (ltW lt_vw).
rewrite e_s e_t sorted_graph_edges /face /= !inE !eqxx.
rewrite (lt_eqF lt_uv) (gt_eqF lt_uv) (lt_eqF lt_vw) (gt_eqF lt_vw).
rewrite (lt_eqF lt_uw) (gt_eqF lt_uw) /=.
by rewrite !mem_graph_edges lt_uv lt_vw lt_uw e_uv e_uw e_vw.
Qed.

Lemma graph_levels_valid :
  edges_in_range edge_index n ->
  valid_input [:: V; edges] /\ valid_input [:: V; edges; triangles].
Proof.
move=> in_cols.
have [uniq_V _ _] := no_duplicates_sequence n.
have [in_V _ _] := in_range_sequence n.
have in_E : all (fun s : simplex => all (fun v : int => (0 <= v) && (v < n%:Z)) s)
                edges.
  apply/allP => e /graph_edge_is_pair[a [b [-> _ edge_ab]]].
  by have [] := has_edge_columns edge_ab in_cols; rewrite /in_range /= => -> ->.
have in_T : all (fun s : simplex => all (fun v : int => (0 <= v) && (v < n%:Z)) s)
                triangles.
  apply/allP => t /graph_triangle_is_clique[u [v [w [-> _ _ [e_uv e_uw _]]]]].
  have [] := has_edge_columns e_uv in_cols; rewrite /in_range /= => -> ->.
  by have [_] := has_edge_columns e_uw in_cols; rewrite /in_range => ->.
have uniq_triangles : uniq triangles by rewrite (perm_uniq (tuples_perm _)).
split; apply/and3P; split.
- by rewrite /no_duplicates /= sorted_vertices sorted_graph_edges uniq_V
             uniq_graph_edges.
- by rewrite /vertices_in_range /= size_map size_iota in_V in_E.
- by rewrite /closed_complex /= closed_over_graph_edges.
- by rewrite /no_duplicates /= sorted_vertices sorted_graph_edges
             sorted_graph_triangles uniq_V uniq_graph_edges uniq_triangles.
- by rewrite /vertices_in_range /= size_map size_iota in_V in_E in_T.
- by rewrite /closed_complex /= closed_over_graph_edges //
             closed_over_graph_triangles.
Qed.

End WithTriangles.

End GraphLevels.

(* --------------------------------------------------------------------- *)
(* from_graph                                                            *)
(* --------------------------------------------------------------------- *)

Lemma init_simplices
    (eigsh : dense int -> int -> option (seq rat * dense rat))
    (eigh : dense int -> seq rat * dense rat)
    (levels : seq level) (M : int) (c : SimplicialComplex) :
  __init__ eigsh eigh levels M = Ok c -> simplices c = levels.
Proof.
case: levels => [|lv levels]; first by rewrite init_nil.
have [c' [-> [e_S _ _ _ _]]] :=
  init_ok eigsh eigh M (isT : (0 < size (lv :: levels))%N).
by case=> <-.
Qed.

(** X14 (from_graph, lines 256-286): when every edge of edge_index that
    is no self-loop has both ends in range(num_nodes), from_graph
    returns, with or without triangles and whatever order Python
    iterates its sets in, and the levels of the complex are valid: no
    duplicate simplex, every vertex in range, and closed under taking
    faces.  The laws of closed complexes (B_k B_{k+1} = 0,
    Euler-Poincare) therefore hold for the complexes from_graph
    builds. *)
Theorem from_graph_valid
    (eigsh : dense int -> int -> option (seq rat * dense rat))
    (eigh : dense int -> seq rat * dense rat)
    (list_of_tuples : seq simplex -> seq simplex)
    (iter_ints : seq int -> seq int)
    (edge_index : dense int) (num_nodes : nat) (include_triangles : bool)
    (M : int) :
  (forall s, perm_eq (list_of_tuples s) s) ->
  (forall s, perm_eq (iter_ints s) s) ->
  ~~ ((0 < ncols edge_index)%N && (nrows edge_index < 2)%N) ->
  edges_in_range edge_index num_nodes ->
  exists c,
    [/\ from_graph eigsh eigh list_of_tuples iter_ints edge_index num_nodes
                   include_triangles M = Built c,
        size (simplices c) = (if include_triangles then 3 else 2)%N &
        valid_input (simplices c)].
Proof.
move=> tuples_perm ints_perm /negbTE shape in_cols; rewrite /from_graph shape.
have := graph_triangles tuples_perm ints_perm edge_index num_nodes.
rewrite in_cols => -[T [e_T uniq_T mem_T]].
have [valid_2 valid_3] := graph_levels_valid tuples_perm uniq_T mem_T in_cols.
case: include_triangles.
  move: e_T; case: (adjacency _ _) => [adj|] // ->.
  set levels := rcons _ _.
  have [c [e_c [e_S _ _ _ _]]] := init_ok eigsh eigh M (isT : (0 < size levels)%N).
  by exists c; rewrite e_c e_S.
set levels := [:: _; _].
have [c [e_c [e_S _ _ _ _]]] := init_ok eigsh eigh M (isT : (0 < size levels)%N).
by exists c; rewrite e_c e_S.
Qed.

Lemma from_graph_valid_witness :
  exists c,
    [/\ from_graph eigsh_raises eigh_table id id triangle_edge_index 3 true 64
        = Built c,
        size (simplices c) = (if true then 3 else 2)%N &
        valid_input (simplices c)].
Proof.
by apply: (@from_graph_valid eigsh_raises eigh_table id id triangle_edge_index
             3 true 64).
Defined.

(** X15 (from_graph, lines 270-275): when some edge that is no
    self-loop has an end outside range(num_nodes), from_graph with
    include_triangles raises KeyError (adj has no such key); without
    triangles nothing checks the edge: from_graph returns a complex
    whose level of edges is not closed over its level of vertices. *)
Theorem from_graph_key_error
    (eigsh : dense int -> int -> option (seq rat * dense rat))
    (eigh : dense int -> seq rat * dense rat)
    (list_of_tuples : seq simplex -> seq simplex)
    (iter_ints : seq int -> seq int)
    (edge_index : dense int) (num_nodes : nat) (M : int) :
  (forall s, perm_eq (list_of_tuples s) s) ->
  (forall s, perm_eq (iter_ints s) s) ->
  ~~ ((0 < ncols edge_index)%N && (nrows edge_index < 2)%N) ->
  ~~ edges_in_range edge_index num_nodes ->
  from_graph eigsh eigh list_of_tuples iter_ints edge_index num_nodes true M
    = KeyError /\
  exists2 c,
    from_graph eigsh eigh list_of_tuples iter_ints edge_index num_nodes false M
      = Built c &
    ~~ closed_complex (simplices c).
Proof.
move=> tuples_perm ints_perm /negbTE shape out_cols; rewrite /from_graph shape.
have := graph_triangles tuples_perm ints_perm edge_index num_nodes.
rewrite (negbTE out_cols) => ->; split=> //.
set levels := [:: _; _].
have [c [e_c [e_S _ _ _ _]]] := init_ok eigsh eigh M (isT : (0 < size levels)%N).
exists c; rewrite ?e_c // e_S /closed_complex /= andbT.
by rewrite closed_over_graph_edgesE.
Qed.

Lemma from_graph_key_error_witness :
  from_graph eigsh_raises eigh_table id id stray_edge_index 2 true 64
    = KeyError /\
  exists2 c,
    from_graph eigsh_raises eigh_table id id stray_edge_index 2 false 64
      = Built c &
    ~~ closed_complex (simplices c).
Proof.
by apply: (@from_graph_key_error eigsh_raises eigh_table id id stray_edge_index
             2 64).
Defined.

(** X16 (from_graph, lines 257-284): in the complex from_graph returns
    with include_triangles, level 0 holds the vertices (i,) in order,
    level 1 holds exactly the sorted pairs (a, b), a < b, of the edges of
    the graph (self-loops dropped, both directions of an edge merged),
    and level 2 holds exactly the triangles of the graph, the triples
    u < v < w whose three pairs are edges: the clique complex of the
    graph up to dimension 2. *)
Theorem from_graph_clique_complex
    (eigsh : dense int -> int -> option (seq rat * dense rat))
    (eigh : dense int -> seq rat * dense rat)
    (list_of_tuples : seq simplex -> seq simplex)
    (iter_ints : seq int -> seq int)
    (edge_index : dense int) (num_nodes : nat) (M : int)
    (c : SimplicialComplex) :
  (forall s, perm_eq (list_of_tuples s) s) ->
  (forall s, perm_eq (iter_ints s) s) ->
  from_graph eigsh eigh list_of_tuples iter_ints edge_index num_nodes true M
    = Built c ->
  [/\ nth [::] (simplices c) 0 = [seq [:: Posz i] | i <- iota 0 num_nodes],
      (forall e, e \in nth [::] (simplices c) 1 -> size e = 2%N) /\
      (forall a b, ([:: a; b] \in nth [::] (simplices c) 1) =
                   (a < b) && has_edge edge_index a b) &
      (forall t, t \in nth [::] (simplices c) 2 -> size t = 3%N) /\
      (forall u v w, ([:: u; v; w] \in nth [::] (simplices c) 2) =
         [&& u < v, v < w, has_edge edge_index u v, has_edge edge_index u w &
             has_edge edge_index v w])].
Proof.
move=> tuples_perm ints_perm; rewrite /from_graph.
case: ifP => // _.
have := graph_triangles tuples_perm ints_perm edge_index num_nodes.
case: ifP => _; last by move=> ->.
case=> T [e_T uniq_T mem_T].
move: e_T; case: (adjacency _ _) => [adj|] // ->.
case e_c: (__init__ _ _ _ _) => [c'|] // [<-] {c}.
rewrite (init_simplices e_c) /=; split=> //; split.
- by move=> e /(graph_edge_is_pair tuples_perm)[a [b [-> _ _]]].
- exact: mem_graph_edges.
- by move=> t /(graph_triangle_is_clique tuples_perm mem_T)[u [v [w [-> _ _ _]]]].
- exact: mem_graph_triangles.
Qed.

Lemma is_built_complex (r : graph_result) : is_built r -> r = Built (complex_of r).
Proof. by case: r. Qed.

Lemma from_graph_clique_complex_witness :
  let c := complex_of triangle_graph in
  [/\ nth [::] (simplices c) 0 = [seq [:: Posz i] | i <- iota 0 3],
      (forall e, e \in nth [::] (simplices c) 1 -> size e = 2%N) /\
      (forall a b, ([:: a; b] \in nth [::] (simplices c) 1) =
                   (a < b) && has_edge triangle_edge_index a b) &
      (forall t, t \in nth [::] (simplices c) 2 -> size t = 3%N) /\
      (forall u v w, ([:: u; v; w] \in nth [::] (simplices c) 2) =
         [&& u < v, v < w, has_edge triangle_edge_index u v,
             has_edge triangle_edge_index u w &
             has_edge triangle_edge_index v w])].
Proof.
apply: (@from_graph_clique_complex eigsh_raises eigh_table id id
          triangle_edge_index 3 64); try by move=> s; apply: perm_refl.
by apply: is_built_complex; vm_compute.
Defined.

(* --------------------------------------------------------------------- *)
(* The value SpectralConvolution.forward returns                         *)
(* --------------------------------------------------------------------- *)

Lemma bidx_lt (a i : nat) : (i < a)%N -> bidx a i = i.
Proof. by rewrite /bidx; case: eqP => // ->; case: i. Qed.

Lemma eq_sumq_iota (n : nat) (f g : nat -> rat) :
  (forall i, (i < n)%N -> f i = g i) ->
  sumq [seq f i | i <- iota 0 n] = sumq [seq g i | i <- iota 0 n].
Proof.
move=> e_fg; congr sumq; apply/eq_in_map => i.
by rewrite mem_iota add0n => /andP[_ /e_fg].
Qed.

(** X17 (SpectralConvolution.forward, mlp filter, lines 381-410): in
    the case where forward returns with all q = n modes, the value is
    Y = U (F . (U X)): the first einsum, 'nm,bni->bmi' applied to
    U_truncated.T, contracts the columns of U with the simplices of X,
    so the projection onto the modes multiplies by U where the comment
    and the docstring have U^T; the mode-wise filter and the projection
    back are as documented. *)
Theorem spectral_forward_value (self : SpectralConvolution.t)
    (F X Y : tensor3) (U : dense rat) (Lambda : seq rat) :
  SpectralConvolution.filter_type self = SpectralConvolution.Mlp F ->
  shape3 F = [:: SpectralConvolution.n_modes self;
                 SpectralConvolution.in_features self;
                 SpectralConvolution.out_features self] ->
  dim1 X = nrows U -> dim2 X = SpectralConvolution.in_features self ->
  minn (SpectralConvolution.n_modes self) (ncols U) = nrows U ->
  SpectralConvolution.forward self X U Lambda = Ok Y ->
  forall b r o, (r < nrows U)%N ->
    at3 Y b r o =
    sumq [seq entry U r m *
              sumq [seq at3 F m i o *
                        sumq [seq entry U m n' * at3 X b n' i
                             | n' <- iota 0 (nrows U)]
                   | i <- iota 0 (SpectralConvolution.in_features self)]
         | m <- iota 0 (nrows U)].
Proof.
move=> e_F [e_F0 e_F1 e_F2] e_n e_in e_q.
have e_c : minn (nrows U) (ncols U) = nrows U.
  by rewrite -{1}e_q -minnA minnn.
have e_min : minn (nrows U) (SpectralConvolution.n_modes self) = nrows U.
  by rewrite -e_q minnAC minnn.
rewrite /SpectralConvolution.forward e_F e_q.
rewrite /einsum_nm_bni_bmi [nrows _]/= e_c e_n bdim_same /=.
rewrite /einsum_mio_bmi_bmo /= e_F0 e_F1 e_in e_min !bdim_same /=.
rewrite /einsum_nm_bmo_bno /= e_c bdim_same => -[<-] b r o lt_r /=.
apply: eq_sumq_iota => m lt_m; rewrite !(bidx_lt lt_m); congr (_ * _).
apply: eq_sumq_iota => i lt_i; rewrite !(bidx_lt lt_i).
congr (_ * _); apply: eq_sumq_iota => n' lt_n'.
by rewrite !(bidx_lt lt_n').
Qed.

Lemma spectral_forward_value_witness :
  minn (SpectralConvolution.n_modes conv2) (ncols U_rot) = nrows U_rot /\
  let Y := value_of (SpectralConvolution.forward conv2 X_1x2x1 U_rot [:: 0; 1]) in
  forall b r o, (r < nrows U_rot)%N ->
    at3 Y b r o =
    sumq [seq entry U_rot r m *
              sumq [seq at3 (ones3 2 1 1) m i o *
                        sumq [seq entry U_rot m n' * at3 X_1x2x1 b n' i
                             | n' <- iota 0 (nrows U_rot)]
                   | i <- iota 0 (SpectralConvolution.in_features conv2)]
         | m <- iota 0 (nrows U_rot)].
Proof.
split; first by [].
by apply: (@spectral_forward_value conv2 (ones3 2 1 1) X_1x2x1 _ U_rot [:: 0; 1]).
Defined.

(* ===================================================================== *)
(* SFNOLoss: the boundary-consistency term                               *)
(* ===================================================================== *)

Lemma fadd_nan (x : pyfloat) : fadd x NaN = NaN.
Proof. by case: x. Qed.

Lemma boundary_loop_cat (c : SimplicialComplex) (x : pyfloat) (s1 s2 : seq nat) :
  SFNOLoss.boundary_loop c x (s1 ++ s2) =
  bind (SFNOLoss.boundary_loop c x s1) (fun y => SFNOLoss.boundary_loop c y s2).
Proof.
elim: s1 x => [|k s1 IH] x //=.
by case: (SFNOLoss.boundary_step c x k) => [y|e] //=.
Qed.

Lemma iota_split3 (N d : nat) :
  (0 < d)%N -> (d <= N)%N -> iota 1 N = iota 1 d.-1 ++ d :: iota d.+1 (N - d).
Proof.
move=> gt0 le_d.
have le_pred : (d.-1 <= N)%N by exact: leq_trans (leq_pred _) le_d.
have e_S : (N - d.-1 = (N - d).+1)%N.
  rewrite -{2}(prednK gt0) subnS prednK //.
  by rewrite subn_gt0 prednK.
by rewrite -{1}(subnKC le_pred) iotaD add1n prednK // e_S.
Qed.

Section BoundaryTerm.

Variable eigsh : dense int -> int -> option (seq rat * dense rat).
Variable eigh : dense int -> seq rat * dense rat.
Variables (levels : seq level) (M : int) (c : SimplicialComplex).
Hypothesis built : __init__ eigsh eigh levels M = Ok c.
Hypothesis two_levels : (1 < size levels)%N.

Let d := (size levels).-1.
Let ns := [seq size s | s <- levels].

Lemma loss_boundaries :
  [/\ size (boundary_matrices c) = d.+2,
      forall k, (0 < k <= d)%N ->
        nth None (boundary_matrices c) k = Some (boundary_level levels ns k) &
      nth None (boundary_matrices c) d.+1 = Some (zeros (nth 0%N ns d) 0)].
Proof.
have nonempty : (0 < size levels)%N by exact: ltnW.
have [c' [e_c' [_ _ e_n e_bm _]]] := init_ok eigsh eigh M nonempty.
move: built; rewrite e_c' => -[e_cc']; rewrite -e_cc' e_n in e_bm *.
split=> [|k in_k|]; last exact: nth_boundaries_top e_bm.
  move: e_bm; rewrite (boundaries_closed nonempty) => -[<-].
  by rewrite /= size_rcons size_map size_iota.
exact: nth_boundaries e_bm in_k.
Qed.

Lemma boundary_step_inner (x : pyfloat) (k : nat) :
  (0 < k < d)%N -> exists y, SFNOLoss.boundary_step c x k = Ok y.
Proof.
case/andP=> gt0 lt_k; have [e_sz e_B _] := loss_boundaries.
rewrite /SFNOLoss.boundary_step e_sz subn1 /= ltnS (ltnW lt_k).
rewrite !e_B ?gt0 ?(ltnW lt_k) //= /matmul_checked.
rewrite (boundary_level_shape levels k).2 (boundary_level_shape levels k.+1).1 eqxx.
by eexists.
Qed.

Lemma boundary_step_top (x : pyfloat) : SFNOLoss.boundary_step c x d = Ok NaN.
Proof.
have gt0 : (0 < d)%N by rewrite /d -subn1 subn_gt0.
have [e_sz e_B e_top] := loss_boundaries.
rewrite /SFNOLoss.boundary_step e_sz subn1 /= ltnS leqnn e_B ?gt0 ?leqnn // e_top.
rewrite /matmul_checked (boundary_level_shape levels d).2 /= nth_n_simplices eqxx /=.
by rewrite /mean_sq /= muln0 eqxx fadd_nan.
Qed.

Lemma boundary_step_beyond (x : pyfloat) (k : nat) :
  (d < k)%N -> SFNOLoss.boundary_step c x k = Ok x.
Proof.
move=> lt_k; have [e_sz _ _] := loss_boundaries.
by rewrite /SFNOLoss.boundary_step e_sz subn1 /= ltnS leqNgt lt_k.
Qed.

Lemma boundary_loop_inner (x : pyfloat) (ks : seq nat) :
  all (fun k => (0 < k < d)%N) ks ->
  exists y, SFNOLoss.boundary_loop c x ks = Ok y.
Proof.
elim: ks x => [|k ks IH] x /=; first by exists x.
case/andP=> in_k in_ks; have [y ->] := boundary_step_inner x in_k.
exact: IH.
Qed.

Lemma boundary_loop_beyond (x : pyfloat) (ks : seq nat) :
  all (fun k => (d < k)%N) ks -> SFNOLoss.boundary_loop c x ks = Ok x.
Proof.
elim: ks => [|k ks IH] //= /andP[lt_k /IH e_ks].
by rewrite boundary_step_beyond.
Qed.

Lemma boundary_loss_nan (n_predictions : nat) :
  (size levels <= n_predictions)%N ->
  SFNOLoss.boundary_loss true n_predictions c = Ok NaN.
Proof.
move=> le_n; rewrite /SFNOLoss.boundary_loss.
have gt0 : (0 < d)%N by rewrite /d -subn1 subn_gt0.
have le_d : (d <= n_predictions - 1)%N.
  by rewrite /d -subn1 leq_sub2r.
rewrite (iota_split3 gt0 le_d).
rewrite boundary_loop_cat.
have [y -> /=] : exists y, SFNOLoss.boundary_loop c (Num 0) (iota 1 d.-1) = Ok y.
  by apply: boundary_loop_inner; apply/allP => k; rewrite mem_iota add1n prednK.
rewrite boundary_step_top /=; apply: boundary_loop_beyond.
by apply/allP => k; rewrite mem_iota => /andP[].
Qed.

End BoundaryTerm.

(** X18 (SFNOLoss.forward, lines 846-857 and 870-877): for every
    complex with at least two levels, when `intermediate` holds the key
    'layer_0' and there is a prediction for every level, the
    boundary-consistency term is nan, and so is the total loss whenever
    forward returns: at the top level the product B_k @ B_{k+1} has no
    column (B_{max_k+1} is n x 0) and the mean of a tensor without
    elements is nan.  The term never reads the predictions or the
    model. *)
Theorem boundary_loss_is_nan
    (eigsh : dense int -> int -> option (seq rat * dense rat))
    (eigh : dense int -> seq rat * dense rat)
    (levels : seq level) (M : int) (n_predictions : nat) :
  (1 < size levels)%N -> (size levels <= n_predictions)%N ->
  exists c,
    [/\ __init__ eigsh eigh levels M = Ok c,
        SFNOLoss.boundary_loss true n_predictions c = Ok NaN &
        forall self task spectral incompleteness r,
          SFNOLoss.forward self task spectral incompleteness true
                           n_predictions c = Ok r ->
          r.1 = NaN /\ dict_get r.2 "boundary"%string = Some NaN].
Proof.
move=> two_levels le_n.
have [c [e_c _]] := init_ok eigsh eigh M (ltnW two_levels).
have e_nan := boundary_loss_nan e_c two_levels le_n.
exists c; split=> // self task spectral incompleteness r.
rewrite /SFNOLoss.forward e_nan.
case: task => [task_loss|] //=; case: spectral => [spectral_loss|] //=.
case: incompleteness => [incompleteness_loss|] //= [<-] /=.
by case: task_loss; case: spectral_loss; case: incompleteness_loss.
Qed.

Lemma boundary_loss_is_nan_witness :
  exists c,
    [/\ __init__ eigsh_raises eigh_table triangle 64 = Ok c,
        SFNOLoss.boundary_loss true 3 c = Ok NaN &
        forall self task spectral incompleteness r,
          SFNOLoss.forward self task spectral incompleteness true 3 c = Ok r ->
          r.1 = NaN /\ dict_get r.2 "boundary"%string = Some NaN].
Proof.
by apply: (@boundary_loss_is_nan eigsh_raises eigh_table triangle 64 3).
Defined.

(* ===================================================================== *)
(* compute_attention_skeleton                                            *)
(* ===================================================================== *)







(* ===================================================================== *)
(* When can a layer return?                                              *)
(* ===================================================================== *)

Lemma getitem_nth (T : Type) (s : seq (option T)) (k : nat) (x : T) :
  nth None s k = Some x -> getitem s k = Ok (Some x).
Proof.
rewrite /getitem; elim: s k => [|y s IH] [|k] //=; first by move=> ->.
exact: IH.
Qed.

(** X20 (SFNOLayer.forward over BoundaryCoupling.forward, lines 581-605
    and 476-483): take a layer with at least two levels whose coupling at
    level 0 is built as SFNOLayer.__init__ builds it,
    BoundaryCoupling(dims[0], 0, dims[1], has_level_below=False,
    has_level_above=True), inputs of the documented shapes with n_0 > 0
    vertices and n_1 > 0 edges, and B_1 of shape n_0 x n_1.  If forward
    returns at all, then dims[1] > 0 and either n_1 = 1, or n_0 = n_1 and
    dims[0] is n_1 or 1: on every other input the layer raises, whatever
    its weights. *)
Theorem layer_returns_only_if
    (rsqrt gelu : rat -> rat) (dropout : tensor3 -> tensor3)
    (self : SFNOLayer.t) (X Y : seq tensor3) (c : SimplicialComplex)
    (X_0 X_1 : tensor3) (B_1 : dense int) (d_0 d_1 : nat)
    (W_down : nat -> nat -> rat) (beta : rat)
    (W_up : nat -> nat -> rat) (gamma : rat) :
  (1 < size (SFNOLayer.dims self))%N ->
  getitem (SFNOLayer.boundary_couplings self) 0 =
    Ok (BoundaryCoupling__init__ d_0 0 d_1 false true W_down beta W_up gamma) ->
  X = [:: X_0, X_1 & drop 2 X] ->
  [/\ dim2 X_0 = d_0, dim2 X_1 = d_1 & dim0 X_1 = dim0 X_0] ->
  (0 < dim1 X_0)%N -> (0 < dim1 X_1)%N ->
  nth None (boundary_matrices c) 1 = Some B_1 ->
  nrows B_1 = dim1 X_0 /\ ncols B_1 = dim1 X_1 ->
  SFNOLayer.forward rsqrt gelu dropout self X c = Ok Y ->
  (0 < d_1)%N /\
  (dim1 X_1 == 1%N) ||
  (dim1 X_0 == dim1 X_1) && ((d_0 == dim1 X_1) || (d_0 == 1%N)).
Proof.
move=> gt1 e_coupling e_X [e_d0 e_d1 e_b] gt0_0 gt0_1 e_B [e_r e_c] e_Y.
have lt0 : (0 < size (SFNOLayer.dims self))%N by exact: ltnW.
have [_ /(_ 0%N lt0)] := forward_levels e_Y.
rewrite /SFNOLayer.level_output e_X /= eqn0Ngt gt0_0 /=.
case e_Z: (SFNOLayer.combine _ _ _ _ _) => [Z|] // _.
move: e_Z; rewrite /SFNOLayer.combine.
case: (getitem (eigendecompositions c) 0) => [[Lambda_0 U_0]|] //=.
case: (getitem (SFNOLayer.spectral_convs self) 0) => [conv|] //=.
case: (SpectralConvolution.forward _ _ _ _) => [S|] //=.
case: (getitem (SFNOLayer.alpha self) 0) => [alpha_0|] //=.
rewrite gt1 /= (getitem_nth e_B) /= e_coupling /=.
case e_out: (BoundaryCoupling.forward _ _ _ _ _ _) => [B|] // _.
have := @coupling_above_outcome d_0 0 d_1 false W_down beta W_up gamma
          X_0 X_1 (to_rat B_1) e_d0 e_b e_d1 gt0_1 e_r e_c.
rewrite /= e_out lt0n; case: (d_1 == 0%N) => //=.
by case: ifP.
Qed.

Lemma layer_returns_only_if_witness :
  (0 < 3)%N /\
  (dim1 X_1x3x3 == 1%N) ||
  (dim1 X_1x3x3 == dim1 X_1x3x3) && ((3%N == dim1 X_1x3x3) || (3%N == 1%N)).
Proof.
apply: (@layer_returns_only_if rsqrt_sample id id layer333 X_cycle3
          cycle3_outputs cycle3_complex X_1x3x3 X_1x3x3
          (boundary_level cycle3 [seq size s | s <- cycle3] 1) 3 3
          (fun i j => (i == j)%:R) (1 / 10%:R) (fun i j => (i == j)%:R)
          (1 / 10%:R)) => //.
Defined.

(* ===================================================================== *)
(* The polynomial filter of SpectralConvolution                          *)
(* ===================================================================== *)












